(** * socialX: the scheduled-post publication pipeline

    A shallow embedding of the cron scheduler of socialX (the platform
    publishers [postToTwitter], [postToReddit], [postToLinkedin], their
    media-upload helpers, and the batch orchestrator
    [processScheduledPosts]) together with the properties its design
    document states about them.

    JavaScript values coming back from remote services are kept as an
    untyped [Value]; everything the code does with the outside world
    (HTTP requests, the clock, random nonces, the document store, timers)
    goes through an environment [Env] of oracles indexed by the number of
    interactions made so far, so that every statement holds for every
    behaviour of the network and of the store.

    A JavaScript string is the sequence of its UTF-16 code units; a
    [string] here is such a sequence, one character per code unit, the
    code units being those below 256.  Lengths, [substring] and order are
    therefore those of JavaScript, counted in code units. *)

From Stdlib Require Import ZArith String Ascii List Bool Lia Permutation.
From Stdlib.Strings Require Import Byte.
From stdpp Require Import base gmap strings list pretty.

Open Scope Z_scope.

(* ================================================================== *)
(** ** JavaScript values *)
(* ================================================================== *)

(** Values as [JSON.parse] and property access produce them.  Numbers are
    integers only; an object is an association list read at the first
    binding of a key. *)
#[warnings="-register-all"]
Inductive Value :=
| VUndef
| VNull
| VBool (b : bool)
| VNum (n : Z)
| VStr (s : string)
| VArr (items : list Value)
| VObj (fields : list (string * Value)).

(** Thrown values: the code only ever throws [new Error(msg)], and the
    runtime throws [TypeError] (property of null or undefined, call of a
    non-function, rejected [fetch]) and [SyntaxError] (body that is not
    JSON). *)
Inductive Exn :=
| Error (msg : string)
| TypeError (msg : string)
| SyntaxError (msg : string).

Definition message (e : Exn) : string :=
  match e with Error m | TypeError m | SyntaxError m => m end.

(** [!!v] *)
Definition truthy (v : Value) : bool :=
  match v with
  | VUndef | VNull => false
  | VBool b => b
  | VNum n => negb (n =? 0)
  | VStr s => negb (String.eqb s EmptyString)
  | VArr _ | VObj _ => true
  end.

(** [a || b] *)
Definition js_or (a b : Value) : Value := if truthy a then a else b.

Fixpoint field (k : string) (fs : list (string * Value)) : Value :=
  match fs with
  | [] => VUndef
  | (k', v) :: rest => if String.eqb k k' then v else field k rest
  end.

(** [v.k] for a [v] that is neither null nor undefined. *)
Definition member (v : Value) (k : string) : Value :=
  match v with
  | VObj fs => field k fs
  | VArr l => if String.eqb k "length" then VNum (Z.of_nat (length l)) else VUndef
  | VStr s => if String.eqb k "length" then VNum (Z.of_nat (String.length s)) else VUndef
  | _ => VUndef
  end.

Definition nullish (v : Value) : bool :=
  match v with VUndef | VNull => true | _ => false end.

(** [v?.k] *)
Definition oprop (v : Value) (k : string) : Value :=
  if nullish v then VUndef else member v k.

(** [String(v)], as template literals, [URLSearchParams] and
    [FormData.append] apply it. *)
Fixpoint to_js_string (v : Value) : string :=
  match v with
  | VUndef => "undefined"
  | VNull => "null"
  | VBool true => "true"
  | VBool false => "false"
  | VNum n => pretty n
  | VStr s => s
  | VArr l =>
      (fix join (l : list Value) : string :=
         match l with
         | [] => EmptyString
         | x :: rest =>
             let sx := if nullish x then EmptyString else to_js_string x in
             match rest with
             | [] => sx
             | _ => sx +:+ "," +:+ join rest
             end
         end) l
  | VObj _ => "[object Object]"
  end.

(** [s.toLowerCase()] and [s.includes(t)].  Of the code units below 256
    the upper-case letters are A-Z (65-90) and the Latin-1 letters
    192-214 and 216-222; each has its lower case 32 further. *)
Definition lower_case_unit (c : ascii) : ascii :=
  let n := nat_of_ascii c in
  if ((Nat.leb 65 n && Nat.leb n 90)
      || (Nat.leb 192 n && Nat.leb n 214)
      || (Nat.leb 216 n && Nat.leb n 222))%bool
  then ascii_of_nat (n + 32) else c.

Fixpoint toLowerCase (s : string) : string :=
  match s with
  | EmptyString => EmptyString
  | String c rest => String (lower_case_unit c) (toLowerCase rest)
  end.

Fixpoint includes (needle hay : string) : bool :=
  if String.prefix needle hay then true
  else match hay with
       | EmptyString => false
       | String _ rest => includes needle rest
       end.

(** [s.trim()].  The white space and line terminators of ECMAScript
    among the code units below 256: tab, line feed, vertical tab, form
    feed, carriage return (9-13), space (32) and no-break space (160). *)
Definition is_space (c : ascii) : bool :=
  let n := nat_of_ascii c in
  (Nat.eqb n 32 || (Nat.leb 9 n && Nat.leb n 13) || Nat.eqb n 160)%bool.

Fixpoint trim_start (s : string) : string :=
  match s with
  | String c rest => if is_space c then trim_start rest else s
  | EmptyString => EmptyString
  end.

Definition trim (s : string) : string :=
  String.rev (trim_start (String.rev (trim_start s))).

(** A string used as a condition. *)
Definition nonempty (s : string) : bool := negb (String.eqb s EmptyString).

(** An optional string property used as a condition. *)
Definition present (o : option string) : bool :=
  match o with Some s => nonempty s | None => false end.

(* ================================================================== *)
(** ** Persistent data model (models/User.js, models/Post.js) *)
(* ================================================================== *)

Record Account := {
  connected : bool;
  accessToken : option string;
  refreshToken : option string;
  oauth1aAccessToken : option string;
  oauth1aAccessTokenSecret : option string
}.

Record User := {
  user_id : nat;
  connectedAccounts : gmap string Account;
  postsCount : Z
}.

Record MediaItem := {
  cloudinaryUrl : option string;
  itemUrl : option string
}.

(** [Post.media] is of Mixed type: the schedule endpoint stores either an
    array of items, or one object [{hasMedia: true, cloudinaryUrl, ...}],
    or [{hasMedia: false}]. *)
Inductive Media :=
| MediaNull
| MediaObject (hasMedia : bool) (item : MediaItem)
| MediaArray (items : list MediaItem).

Inductive Status := scheduled | published | failed.

Module Stored.
(** One slot of [post.platformResults]. *)
Record entry := { success : bool; postId : Value; error : option string }.
End Stored.

Record Post := {
  post_id : nat;
  userId : nat;
  content : string;
  platforms : list string;
  scheduledTime : Z;
  status : Status;
  publishedAt : option Z;
  errorMessage : option string;
  media : Media;
  platformResults : gmap string Stored.entry
}.

(* ================================================================== *)
(** ** The outside world *)
(* ================================================================== *)

Inductive Body :=
| NoBody
| Form (params : list (string * string))       (* URLSearchParams *)
| Json (v : Value)                             (* JSON.stringify(v) *)
| Multipart (params : list (string * string)) (file : list byte) (* FormData *)
| Raw (data : list byte).

Record Request := {
  url : string;
  method : string;
  headers : list (string * string);
  body : Body
}.

Record Response := {
  status_code : Z;
  text : string;
  json : option Value;       (* [None]: the body is not JSON *)
  arrayBuffer : list byte
}.

(** [response.ok] *)
Definition ok (r : Response) : bool :=
  (200 <=? status_code r) && (status_code r <=? 299).

Inductive FetchOutcome :=
| NetFail (e : Exn)
| NetReply (r : Response).

(** Oracles and runtime primitives.  The [nat] argument of an oracle is
    the number of interactions with the outside made before it. *)
Record Env := {
  net : nat -> Request -> FetchOutcome;
  clock : nat -> Z;                       (* Date.now(), milliseconds *)
  random_hex : nat -> string;             (* crypto.randomBytes(16).toString('hex') *)
  connect_error : nat -> option Exn;      (* connectDB() raced with its 3s timer *)
  find_error : nat -> option Exn;         (* Post.find(...) *)
  save_error : nat -> option Exn;         (* post.save() *)
  update_error : nat -> option Exn;       (* User.findByIdAndUpdate(...) *)
  timer_first : nat -> bool;              (* the timer of a Promise.race settles first *)
  env_var : string -> option string;      (* process.env *)
  base64 : list byte -> string;
  hmac_sha1_base64 : string -> string -> string;
  encodeURIComponent : string -> string;
  json_stringify : Value -> string;
  form_urlencoded : list (string * string) -> string;  (* URLSearchParams.toString() *)
  string_to_number : string -> option Z;  (* [None] is NaN *)
  toISOString : Z -> string;
  toUpperCase : string -> string          (* String.prototype.toUpperCase *)
}.

Record World := {
  w_time : nat;                (* interactions made so far *)
  w_sent : list Request;       (* requests issued so far, oldest first *)
  w_posts : list Post;         (* the posts collection *)
  w_users : list User          (* the users collection *)
}.

Definition advance (w : World) : World :=
  {| w_time := S (w_time w); w_sent := w_sent w;
     w_posts := w_posts w; w_users := w_users w |}.

Definition record_request (q : Request) (w : World) : World :=
  {| w_time := S (w_time w); w_sent := w_sent w ++ [q];
     w_posts := w_posts w; w_users := w_users w |}.

(* ================================================================== *)
(** ** The monad of asynchronous functions *)
(* ================================================================== *)

Inductive Res (A : Type) :=
| Ok (a : A)
| Thrown (e : Exn).
Arguments Ok {A} a.
Arguments Thrown {A} e.

Definition M (A : Type) : Type := Env -> World -> Res A * World.

Definition ret {A} (a : A) : M A := fun _ w => (Ok a, w).

Definition throw {A} (e : Exn) : M A := fun _ w => (Thrown e, w).

Definition bind {A B} (m : M A) (f : A -> M B) : M B :=
  fun E w =>
    match m E w with
    | (Ok a, w') => f a E w'
    | (Thrown e, w') => (Thrown e, w')
    end.

(** [try { m } catch (e) { h e }] *)
Definition try_catch {A} (m : M A) (h : Exn -> M A) : M A :=
  fun E w =>
    match m E w with
    | (Ok a, w') => (Ok a, w')
    | (Thrown e, w') => h e E w'
    end.

Declare Scope js_scope.
Delimit Scope js_scope with js.
Notation "x <- m ;; k" := (bind m (fun x => k))
  (at level 100, m at next level, right associativity) : js_scope.
Notation "m ;;; k" := (bind m (fun _ => k))
  (at level 100, right associativity) : js_scope.
Open Scope js_scope.

Definition ask {A} (f : Env -> A) : M A := fun E w => (Ok (f E), w).

(** [if (c) throw e] *)
Definition throw_if (c : bool) (e : Exn) : M unit :=
  if c then throw e else ret tt.

(** Consulting an oracle is one interaction. *)
Definition oracle {A} (f : Env -> nat -> A) : M A :=
  fun E w => (Ok (f E (w_time w)), advance w).

(** [Date.now()] / [new Date()] *)
Definition now : M Z := oracle clock.

Definition randomHex : M string := oracle random_hex.

(** [await fetch(url, {method, headers, body})] *)
Definition fetch (q : Request) : M Response :=
  fun E w =>
    match net E (w_time w) q with
    | NetFail e => (Thrown e, record_request q w)
    | NetReply r => (Ok r, record_request q w)
    end.

Definition GET (u : string) : Request :=
  {| url := u; method := "GET"; headers := []; body := NoBody |}.

(** [await response.json()] *)
Definition json_of (r : Response) : M Value :=
  match json r with
  | Some v => ret v
  | None => throw (SyntaxError "Unexpected token in JSON")
  end.

(** [v.k], throwing on null and undefined. *)
Definition prop (v : Value) (k : string) : M Value :=
  if nullish v
  then throw (TypeError ("Cannot read properties of " +:+ to_js_string v
                         +:+ " (reading '" +:+ k +:+ "')"))
  else ret (member v k).

(** [v > 0] *)
Definition gt_zero (E : Env) (v : Value) : bool :=
  let of_string s := match string_to_number E s with Some n => 0 <? n | None => false end in
  match v with
  | VUndef | VObj _ => false
  | VNull => false
  | VBool b => b
  | VNum n => 0 <? n
  | VStr s => of_string s
  | VArr _ => of_string (to_js_string v)
  end.

(** [await new Promise(resolve => setTimeout(resolve, delay))]: time
    passes; how much is the clock oracle's business. *)
Definition sleep : M unit := oracle (fun _ _ => tt).

(** [process.env.NAME], usable when set and not empty. *)
Definition getenv (name : string) : M (option string) :=
  ask (fun E => match env_var E name with
                | Some s => if nonempty s then Some s else None
                | None => None
                end).

Definition bearer (token : string) : string * string :=
  ("Authorization", "Bearer " +:+ token).

(** What a publisher returns: [{success, postId, url, error, sentAt}]. *)
Record PublishResult := {
  success : bool;
  postId : Value;
  postUrl : Value;
  error : option string;
  sentAt : Z
}.

Definition succeeded (postId postUrl : Value) : M PublishResult :=
  t <- now ;;
  ret {| success := true; postId := postId; postUrl := postUrl;
         error := None; sentAt := t |}.

(** The [catch (error)] block shared by the three publishers. *)
Definition failure (e : Exn) : M PublishResult :=
  t <- now ;;
  ret {| success := false; postId := VUndef; postUrl := VUndef;
         error := Some (message e); sentAt := t |}.

(** [media && (media.hasMedia || (Array.isArray(media) && media.length > 0))] *)
Definition media_present (media : Media) : bool :=
  match media with
  | MediaNull => false
  | MediaObject hasMedia _ => hasMedia
  | MediaArray items => negb (Nat.eqb (length items) 0)
  end.

(** [item.cloudinaryUrl || item.url] *)
Definition item_source (item : MediaItem) : option string :=
  if present (cloudinaryUrl item) then cloudinaryUrl item else itemUrl item.

(** An optional string handed to [fetch] or a template literal. *)
Definition string_or_undefined (o : option string) : string :=
  match o with Some s => s | None => "undefined" end.

(** [{...a, ...b}] *)
Fixpoint set_param (kv : string * string) (l : list (string * string)) :=
  match l with
  | [] => [kv]
  | kv' :: rest =>
      if String.eqb (fst kv) (fst kv') then kv :: rest
      else kv' :: set_param kv rest
  end.

Definition spread (a b : list (string * string)) : list (string * string) :=
  fold_left (fun acc kv => set_param kv acc) b a.

(* ================================================================== *)
(** ** Twitter publisher *)
(* ================================================================== *)

Module Twitter.

(** [Object.keys(params).sort()] on the bindings themselves. *)
Fixpoint insert_sorted (kv : string * string) (l : list (string * string)) :=
  match l with
  | [] => [kv]
  | kv' :: rest =>
      if String.leb (fst kv) (fst kv') then kv :: l
      else kv' :: insert_sorted kv rest
  end.

Definition sort_params (l : list (string * string)) : list (string * string) :=
  fold_right insert_sorted [] l.

Definition dquote : string := String (ascii_of_nat 34) EmptyString.

(** oauth 1.0a signature generation for twitter v1.1 api *)
Definition generateOAuthSignature (E : Env) (method url : string)
    (params : list (string * string)) (consumerSecret tokenSecret : string) : string :=
  let enc := encodeURIComponent E in
  let sortedParams :=
    String.concat "&"
      (map (fun kv => enc (fst kv) +:+ "=" +:+ enc (snd kv)) (sort_params params)) in
  let signatureBaseString :=
    toUpperCase E method +:+ "&" +:+ enc url +:+ "&" +:+ enc sortedParams in
  let signingKey := enc consumerSecret +:+ "&" +:+ enc tokenSecret in
  hmac_sha1_base64 E signingKey signatureBaseString.

(** The header [generateOAuthHeader] builds once it has read the clock
    ([ms]) and drawn its nonce. *)
Definition oauthHeader (E : Env) (ms : Z) (nonce : string) (method url : string)
    (params : list (string * string))
    (consumerKey consumerSecret accessToken accessTokenSecret : string) : string :=
  let oauthParams :=
    [ ("oauth_consumer_key", consumerKey);
      ("oauth_token", accessToken);
      ("oauth_signature_method", "HMAC-SHA1");
      ("oauth_timestamp", pretty (ms / 1000));
      ("oauth_nonce", nonce);
      ("oauth_version", "1.0") ] in
  (* combine oauth params with request params for signature *)
  let allParams := spread oauthParams params in
  let signature :=
    generateOAuthSignature E method url allParams consumerSecret accessTokenSecret in
  let oauthParams := oauthParams ++ [("oauth_signature", signature)] in
  let enc := encodeURIComponent E in
  "OAuth " +:+
  String.concat ", "
    (map (fun kv => enc (fst kv) +:+ "=" +:+ dquote +:+ enc (snd kv) +:+ dquote)
         oauthParams).

(** generate oauth 1.0a authorization header *)
Definition generateOAuthHeader (method url : string) (params : list (string * string))
    (consumerKey consumerSecret accessToken accessTokenSecret : string) : M string :=
  ms <- now ;;
  nonce <- randomHex ;;
  ask (fun E => oauthHeader E ms nonce method url params
                  consumerKey consumerSecret accessToken accessTokenSecret).

Definition uploadUrl : string := "https://upload.twitter.com/1.1/media/upload.json".

(** A signed, url-encoded POST to the upload endpoint. *)
Definition uploadRequest (authHeader : string) (params : list (string * string)) : Request :=
  {| url := uploadUrl; method := "POST";
     headers := [ ("Authorization", authHeader);
                  ("Content-Type", "application/x-www-form-urlencoded") ];
     body := Form params |}.

(** simple upload for images *)
Definition uploadImageSimple (mediaBuffer : list byte) (mediaCategory : string)
    (consumerKey consumerSecret appAccessToken appAccessTokenSecret : string) : M Value :=
  mediaBase64 <- ask (fun E => base64 E mediaBuffer) ;;
  let bodyParams := [ ("media_data", mediaBase64); ("media_category", mediaCategory) ] in
  authHeader <- generateOAuthHeader "POST" uploadUrl bodyParams
                  consumerKey consumerSecret appAccessToken appAccessTokenSecret ;;
  uploadResponse <- fetch (uploadRequest authHeader bodyParams) ;;
  throw_if (negb (ok uploadResponse))
    (Error ("Twitter media upload failed: " +:+ pretty (status_code uploadResponse))) ;;;
  uploadResult <- json_of uploadResponse ;;
  prop uploadResult "media_id_string".

Definition initParams (mediaType mediaCategory : string) (totalBytes : nat) :=
  [ ("command", "INIT");
    ("media_type", mediaType);
    ("total_bytes", pretty (Z.of_nat totalBytes));
    ("media_category", mediaCategory) ].

Definition appendParams (mediaId : Value) (mediaBase64 : string) :=
  [ ("command", "APPEND");
    ("media_id", to_js_string mediaId);
    ("segment_index", "0");
    ("media_data", mediaBase64) ].

Definition finalizeParams (mediaId : Value) :=
  [ ("command", "FINALIZE"); ("media_id", to_js_string mediaId) ].

Definition statusParams (mediaId : Value) :=
  [ ("command", "STATUS"); ("media_id", to_js_string mediaId) ].

(** chunked upload for gifs *)
Definition uploadGifChunked (mediaBuffer : list byte) (mediaType mediaCategory : string)
    (consumerKey consumerSecret appAccessToken appAccessTokenSecret : string) : M Value :=
  let totalBytes := length mediaBuffer in
  (* step 1: init *)
  let initP := initParams mediaType mediaCategory totalBytes in
  initAuthHeader <- generateOAuthHeader "POST" uploadUrl initP
                      consumerKey consumerSecret appAccessToken appAccessTokenSecret ;;
  initResponse <- fetch (uploadRequest initAuthHeader initP) ;;
  throw_if (negb (ok initResponse))
    (Error ("Twitter INIT failed: " +:+ pretty (status_code initResponse)
            +:+ " - " +:+ text initResponse)) ;;;
  initResult <- json_of initResponse ;;
  mediaId <- prop initResult "media_id_string" ;;
  (* step 2: append *)
  mediaBase64 <- ask (fun E => base64 E mediaBuffer) ;;
  let appendP := appendParams mediaId mediaBase64 in
  appendAuthHeader <- generateOAuthHeader "POST" uploadUrl appendP
                        consumerKey consumerSecret appAccessToken appAccessTokenSecret ;;
  appendResponse <- fetch (uploadRequest appendAuthHeader appendP) ;;
  throw_if (negb (ok appendResponse))
    (Error ("Twitter APPEND failed: " +:+ pretty (status_code appendResponse)
            +:+ " - " +:+ text appendResponse)) ;;;
  (* step 3: finalize *)
  let finalizeP := finalizeParams mediaId in
  finalizeAuthHeader <- generateOAuthHeader "POST" uploadUrl finalizeP
                          consumerKey consumerSecret appAccessToken appAccessTokenSecret ;;
  finalizeResponse <- fetch (uploadRequest finalizeAuthHeader finalizeP) ;;
  throw_if (negb (ok finalizeResponse))
    (Error ("Twitter FINALIZE failed: " +:+ pretty (status_code finalizeResponse)
            +:+ " - " +:+ text finalizeResponse)) ;;;
  finalizeResult <- json_of finalizeResponse ;;
  (* step 4: check for processing status *)
  processing_info <- prop finalizeResult "processing_info" ;;
  if truthy processing_info
  then (* return the media_id immediately *) ret mediaId
  else ret mediaId.

Definition statusRequest (E : Env) (authHeader : string) (mediaId : Value) : Request :=
  {| url := uploadUrl +:+ "?" +:+ form_urlencoded E (statusParams mediaId);
     method := "GET";
     headers := [ ("Authorization", authHeader) ];
     body := NoBody |}.

(** The body of the polling loop, for the attempts that remain. *)
Fixpoint waitForProcessing_loop (attempts : nat) (mediaId : Value)
    (consumerKey consumerSecret appAccessToken appAccessTokenSecret : string) : M Value :=
  match attempts with
  | O => throw (Error "GIF processing timeout - exceeded maximum wait time")
  | S remaining =>
      let continue :=
        waitForProcessing_loop remaining mediaId
          consumerKey consumerSecret appAccessToken appAccessTokenSecret in
      sleep ;;;
      statusAuthHeader <- generateOAuthHeader "GET" uploadUrl (statusParams mediaId)
                            consumerKey consumerSecret appAccessToken appAccessTokenSecret ;;
      statusRequest <- ask (fun E => statusRequest E statusAuthHeader mediaId) ;;
      statusResponse <- fetch statusRequest ;;
      if negb (ok statusResponse) then continue
      else
        statusResult <- json_of statusResponse ;;
        processing_info <- prop statusResult "processing_info" ;;
        match oprop processing_info "state" with
        | VStr "succeeded" => ret mediaId
        | VStr "failed" => throw (Error "GIF processing failed on Twitter servers")
        | _ => sleep ;;; continue
        end
  end.

(** wait for gif processing to complete *)
Definition waitForProcessing (mediaId : Value)
    (consumerKey consumerSecret appAccessToken appAccessTokenSecret : string) : M Value :=
  let maxAttempts := 10%nat in
  waitForProcessing_loop maxAttempts mediaId
    consumerKey consumerSecret appAccessToken appAccessTokenSecret.

(** upload media to twitter using OAuth 1.0a, chunked for GIFs *)
Definition uploadMediaToTwitterV1 (imageUrl appAccessToken appAccessTokenSecret : string)
    : M Value :=
  try_catch
    (imageResponse <- fetch (GET imageUrl) ;;
     throw_if (negb (ok imageResponse))
       (Error ("Failed to fetch media: " +:+ pretty (status_code imageResponse))) ;;;
     let mediaBuffer := arrayBuffer imageResponse in
     let isGif := includes ".gif" (toLowerCase imageUrl) in
     let mediaType := if isGif then "image/gif" else "image/jpeg" in
     let mediaCategory := if isGif then "tweet_gif" else "tweet_image" in
     consumerKey <- getenv "TWITTER_API_KEY" ;;
     consumerSecret <- getenv "TWITTER_API_SECRET" ;;
     match consumerKey, consumerSecret with
     | Some consumerKey, Some consumerSecret =>
         if isGif
         then uploadGifChunked mediaBuffer mediaType mediaCategory
                consumerKey consumerSecret appAccessToken appAccessTokenSecret
         else uploadImageSimple mediaBuffer mediaCategory
                consumerKey consumerSecret appAccessToken appAccessTokenSecret
     | _, _ => throw (Error "Missing Twitter OAuth 1.0a app credentials")
     end)
    (fun error => throw error).


Definition tweetsUrl : string := "https://api.twitter.com/2/tweets".

Definition tweetRequest (accessToken : string) (tweetData : Value) : Request :=
  {| url := tweetsUrl; method := "POST";
     headers := [ bearer accessToken; ("Content-Type", "application/json") ];
     body := Json tweetData |}.

(** The [for (const mediaItem of mediaArray)] loop. *)
Fixpoint upload_all (mediaArray : list MediaItem) (token secret : string)
    (mediaIds : list Value) : M (list Value) :=
  match mediaArray with
  | [] => ret mediaIds
  | mediaItem :: rest =>
      match item_source mediaItem with
      | Some imageUrl =>
          if nonempty imageUrl then
            mediaId <- uploadMediaToTwitterV1 imageUrl token secret ;;
            upload_all rest token secret
              (if truthy mediaId then mediaIds ++ [mediaId] else mediaIds)
          else upload_all rest token secret mediaIds
      | None => upload_all rest token secret mediaIds
      end
  end.

(** [userAccount && userAccount.oauth1aAccessToken &&
    userAccount.oauth1aAccessTokenSecret] *)
Definition legacy_pair (userAccount : option Account) : option (string * string) :=
  match userAccount with
  | Some a =>
      match oauth1aAccessToken a, oauth1aAccessTokenSecret a with
      | Some t, Some s => if (nonempty t && nonempty s)%bool then Some (t, s) else None
      | _, _ => None
      end
  | None => None
  end.

(** The part of [postToTwitter] that fills [tweetData]. *)
Definition prepare_tweet (content : string) (media : Media)
    (userAccount : option Account) : M Value :=
  let tweetData := [ ("text", VStr content) ] in
  if media_present media then
    match legacy_pair userAccount with
    | Some (token, secret) =>
        try_catch
          (let mediaArray :=
             match media with
             | MediaArray items => items
             | MediaObject _ item => [item]
             | MediaNull => []
             end in
           mediaIds <- upload_all mediaArray token secret [] ;;
           if negb (Nat.eqb (length mediaIds) 0)
           then ret (VObj (tweetData ++
                           [ ("media", VObj [ ("media_ids", VArr mediaIds) ]) ]))
           else ret (VObj tweetData))
          (fun mediaError => (* falling back to text-only tweet *)
             ret (VObj tweetData))
    | None => (* posting text-only tweet *) ret (VObj tweetData)
    end
  else ret (VObj tweetData).

(** function to post to twitter *)
Definition postToTwitter (content accessToken : string) (media : Media)
    (userAccount : option Account) : M PublishResult :=
  try_catch
    (tweetData <- prepare_tweet content media userAccount ;;
     throw_if (negb (nonempty accessToken)) (Error "No access token provided") ;;;
     response <- fetch (tweetRequest accessToken tweetData) ;;
     (if negb (ok response)
      then throw (Error ("Twitter API error: " +:+ pretty (status_code response)
                         +:+ " - " +:+ text response))
      else ret tt) ;;;
     data <- json_of response ;;
     inner <- prop data "data" ;;
     succeeded (js_or (oprop inner "id") (VStr "unknown")) VUndef)
    failure.

End Twitter.

(* ================================================================== *)
(** ** Reddit publisher *)
(* ================================================================== *)

Module Reddit.

Definition userAgent : string * string := ("User-Agent", "SocialX/1.0").

Definition formHeaders (accessToken : string) : list (string * string) :=
  [ bearer accessToken;
    ("Content-Type", "application/x-www-form-urlencoded");
    userAgent ].

(** step 1 of every upload: the lease from reddit's media asset api *)
Definition leaseRequest (accessToken : string) : Request :=
  {| url := "https://oauth.reddit.com/api/media/asset.json"; method := "POST";
     headers := formHeaders accessToken;
     body := Form [ ("filepath", "image.jpg"); ("mimetype", "image/jpeg") ] |}.

(** [uploadLease.fields.forEach(field => formData.append(field.name, field.value))] *)
Fixpoint append_fields (fields : list Value) : M (list (string * string)) :=
  match fields with
  | [] => ret []
  | f :: rest =>
      name <- prop f "name" ;;
      value <- prop f "value" ;;
      more <- append_fields rest ;;
      ret ((to_js_string name, to_js_string value) :: more)
  end.

Definition lease_form (fields : Value) : M (list (string * string)) :=
  match fields with
  | VArr l => append_fields l
  | VUndef | VNull =>
      throw (TypeError ("Cannot read properties of " +:+ to_js_string fields
                        +:+ " (reading 'forEach')"))
  | _ => throw (TypeError "uploadLease.fields.forEach is not a function")
  end.

(** step 3 of every upload: the multipart POST to the leased storage url *)
Definition storageRequest (action : Value) (form : list (string * string))
    (image : list byte) : Request :=
  {| url := "https:" +:+ to_js_string action; method := "POST";
     headers := [];
     body := Multipart form image |}.

(** [uploadLease.fields.find(f => f.name === 'key')?.value] *)
Fixpoint find_key (fields : list Value) : Value :=
  match fields with
  | [] => VUndef
  | f :: rest =>
      match member f "name" with
      | VStr "key" => member f "value"
      | _ => find_key rest
      end
  end.

Definition uploadKey (fields : Value) : Value :=
  match fields with VArr l => find_key l | _ => VUndef end.

Definition storedUrl (fields : Value) : string :=
  "https://reddit-uploaded-media.s3-accelerate.amazonaws.com/"
  +:+ to_js_string (uploadKey fields).

(** The three steps common to the upload helpers; [what] and [item] are
    the words their error messages differ in.  Returns the lease. *)
Definition lease_and_upload (what item : string) (imageUrl : option string)
    (accessToken : string) : M Value :=
  (* step 1: get upload lease *)
  leaseResponse <- fetch (leaseRequest accessToken) ;;
  throw_if (negb (ok leaseResponse))
    (Error ("Failed to get " +:+ what +:+ "upload lease: "
            +:+ pretty (status_code leaseResponse))) ;;;
  leaseData <- json_of leaseResponse ;;
  uploadLease <- prop leaseData "args" ;;
  asset <- prop leaseData "asset" ;;
  _ <- prop asset "asset_id" ;;
  (* step 2: download image from cloudinary *)
  imageResponse <- fetch (GET (string_or_undefined imageUrl)) ;;
  throw_if (negb (ok imageResponse))
    (Error ("Failed to fetch image: " +:+ pretty (status_code imageResponse))) ;;;
  let imageBuffer := arrayBuffer imageResponse in
  (* step 3: upload image to reddit's aws *)
  fields <- prop uploadLease "fields" ;;
  form <- lease_form fields ;;
  action <- prop uploadLease "action" ;;
  uploadResponse <- fetch (storageRequest action form imageBuffer) ;;
  throw_if (negb (ok uploadResponse))
    (Error ("Failed to upload " +:+ item +:+ ": "
            +:+ pretty (status_code uploadResponse))) ;;;
  ret leaseData.

Definition asset_id (leaseData : Value) : Value :=
  member (member leaseData "asset") "asset_id".

(** upload media for gallery posts and return media_id *)
Definition uploadMediaForGallery (imageUrl : option string) (accessToken : string)
    : M Value :=
  try_catch
    (leaseData <- lease_and_upload "gallery " "gallery image" imageUrl accessToken ;;
     ret (asset_id leaseData))
    (fun error => throw error).

(** upload image to reddit media asset API and return both asset_id and
    reddit URL *)
Definition uploadImageToRedditAsset (imageUrl : option string) (accessToken : string)
    : M (Value * string) :=
  try_catch
    (leaseData <- lease_and_upload "asset " "image" imageUrl accessToken ;;
     ret (asset_id leaseData, storedUrl (member (member leaseData "args") "fields")))
    (fun error => throw error).

Definition submitUrl : string := "https://oauth.reddit.com/api/submit".
Definition galleryUrl : string := "https://oauth.reddit.com/api/submit_gallery_post".

(** [fetch('.../api/submit', {..., body: new URLSearchParams(postData)})] *)
Definition submitRequest (accessToken : string) (postData : list (string * string))
    : Request :=
  {| url := submitUrl; method := "POST";
     headers := formHeaders accessToken;
     body := Form postData |}.

Definition galleryRequest (accessToken : string) (postData : Value) : Request :=
  {| url := galleryUrl; method := "POST";
     headers := [ bearer accessToken; ("Content-Type", "application/json"); userAgent ];
     body := Json postData |}.

(** [content.substring(0, 300)]: the first 300 code units. *)
Definition title (content : string) : string := String.substring 0 300 content.

Definition selfPost (subreddit content : string) : list (string * string) :=
  [ ("api_type", "json"); ("kind", "self"); ("sr", subreddit);
    ("title", title content); ("text", content) ].

Definition imagePost (subreddit content imageUrl : string) : list (string * string) :=
  [ ("api_type", "json"); ("kind", "image"); ("sr", subreddit);
    ("title", title content); ("url", imageUrl) ].

Definition galleryItem (mediaId : Value) : Value :=
  VObj [ ("caption", VStr EmptyString); ("outbound_url", VStr EmptyString);
         ("media_id", mediaId) ].

Definition galleryPost (subreddit content : string) (galleryItems : list Value) : Value :=
  VObj [ ("api_type", VStr "json");
         ("items", VArr galleryItems);
         ("nsfw", VBool false);
         ("sendreplies", VBool true);
         ("show_error_list", VBool true);
         ("spoiler", VBool false);
         ("sr", VStr subreddit);
         ("title", VStr (title content));
         ("kind", VStr "gallery") ].

(** [if (result.json?.errors && result.json.errors.length > 0) throw ...] *)
Definition check_api_errors (result : Value) : M unit :=
  j <- prop result "json" ;;
  let errors := oprop j "errors" in
  reported <- ask (fun E => (truthy errors && gt_zero E (member errors "length"))%bool) ;;
  if reported
  then text <- ask (fun E => json_stringify E errors) ;;
       throw (Error ("Reddit API error: " +:+ text))
  else ret tt.

(** [result.json?.data?.f], once [result.json] has been read. *)
Definition data_field (result : Value) (f : string) : Value :=
  oprop (oprop (member result "json") "data") f.

(** The [for (const mediaItem of media)] loop of the gallery branch. *)
Fixpoint upload_gallery (media : list MediaItem) (accessToken : string)
    (galleryItems : list Value) : M (list Value) :=
  match media with
  | [] => ret galleryItems
  | mediaItem :: rest =>
      mediaId <- uploadMediaForGallery (cloudinaryUrl mediaItem) accessToken ;;
      upload_gallery rest accessToken (galleryItems ++ [galleryItem mediaId])
  end.

(** [customSubreddit && customSubreddit.trim() ? customSubreddit.trim() : 'test'] *)
Definition target (customSubreddit : option string) : string :=
  match customSubreddit with
  | Some s => if nonempty (trim s) then trim s else "test"
  | None => "test"
  end.

(** multiple images: reddit's gallery submission endpoint *)
Definition post_gallery (content accessToken subreddit : string) (media : list MediaItem)
    : M PublishResult :=
  galleryItems <- upload_gallery media accessToken [] ;;
  response <- fetch (galleryRequest accessToken (galleryPost subreddit content galleryItems)) ;;
  throw_if (negb (ok response))
    (Error ("Reddit gallery post failed: " +:+ pretty (status_code response))) ;;;
  result <- json_of response ;;
  check_api_errors result ;;;
  throw_if (negb (truthy (data_field result "id")))
    (Error "Reddit post failed - no post ID returned") ;;;
  succeeded (data_field result "id")
            (js_or (data_field result "url") (VStr EmptyString)).

(** single image: image link post with reddit's uploaded image url *)
Definition post_single_image (content accessToken subreddit : string) (item : MediaItem)
    : M PublishResult :=
  uploadResult <- uploadImageToRedditAsset (cloudinaryUrl item) accessToken ;;
  response <- fetch (submitRequest accessToken
                       (imagePost subreddit content (snd uploadResult))) ;;
  throw_if (negb (ok response))
    (Error ("Reddit single image post failed: " +:+ pretty (status_code response))) ;;;
  result <- json_of response ;;
  check_api_errors result ;;;
  let postId := js_or (data_field result "id")
                  (js_or (data_field result "name") (VStr "unknown")) in
  let postUrl := js_or (data_field result "url")
                   (js_or (data_field result "user_submitted_page") (VStr EmptyString)) in
  throw_if (negb (truthy (data_field result "id"))
            && negb (truthy (data_field result "user_submitted_page")))
    (Error "Reddit post failed - no post confirmation returned") ;;;
  succeeded postId postUrl.

(** The [else] of the media branch: media that is not an array of one
    or more items is posted as text, and the reply is not examined. *)
Definition post_text_unchecked (content accessToken subreddit : string)
    : M PublishResult :=
  response <- fetch (submitRequest accessToken (selfPost subreddit content)) ;;
  throw_if (negb (ok response))
    (Error ("Reddit post failed: " +:+ pretty (status_code response))) ;;;
  result <- json_of response ;;
  j <- prop result "json" ;;
  succeeded (js_or (data_field result "id") (VStr "unknown"))
            (js_or (data_field result "url") (VStr EmptyString)).

(** text-only post, when no media is present *)
Definition post_text (content accessToken subreddit : string) : M PublishResult :=
  response <- fetch (submitRequest accessToken (selfPost subreddit content)) ;;
  throw_if (negb (ok response))
    (Error ("Reddit post failed: " +:+ pretty (status_code response))) ;;;
  result <- json_of response ;;
  check_api_errors result ;;;
  throw_if (negb (truthy (data_field result "id")))
    (Error "Reddit post failed - no post ID returned") ;;;
  succeeded (data_field result "id")
            (js_or (data_field result "url") (VStr EmptyString)).

(** function to post to reddit *)
Definition postToReddit (content accessToken : string) (media : Media)
    (userAccount : option Account) (customSubreddit : option string) : M PublishResult :=
  try_catch
    (let subreddit := target customSubreddit in
     if media_present media then
       match media with
       | MediaArray (item1 :: item2 :: rest) =>
           post_gallery content accessToken subreddit (item1 :: item2 :: rest)
       | MediaArray [item] =>
           post_single_image content accessToken subreddit item
       | _ => post_text_unchecked content accessToken subreddit
       end
     else post_text content accessToken subreddit)
    failure.

End Reddit.

(* ================================================================== *)
(** ** LinkedIn publisher *)
(* ================================================================== *)

Module Linkedin.

Definition restliHeaders (accessToken : string) : list (string * string) :=
  [ bearer accessToken;
    ("Content-Type", "application/json");
    ("X-Restli-Protocol-Version", "2.0.0") ].

Definition registerData (personUrn : string) : Value :=
  VObj [ ("registerUploadRequest",
          VObj [ ("owner", VStr personUrn);
                 ("recipes", VArr [ VStr "urn:li:digitalmediaRecipe:feedshare-image" ]);
                 ("serviceRelationships",
                  VArr [ VObj [ ("identifier", VStr "urn:li:userGeneratedContent");
                                ("relationshipType", VStr "OWNER") ] ]);
                 ("supportedUploadMechanism", VArr [ VStr "SYNCHRONOUS_UPLOAD" ]) ]) ].

Definition registerRequest (accessToken personUrn : string) : Request :=
  {| url := "https://api.linkedin.com/v2/assets?action=registerUpload"; method := "POST";
     headers := restliHeaders accessToken;
     body := Json (registerData personUrn) |}.

(** The own enumerable properties [...uploadHeaders] copies. *)
Definition own_entries (v : Value) : list (string * string) :=
  match v with
  | VObj fs => map (fun kv => (fst kv, to_js_string (snd kv))) fs
  | VArr l => imap (fun i x => (pretty (Z.of_nat i), to_js_string x)) l
  | VStr s =>
      imap (fun i c => (pretty (Z.of_nat i), String c EmptyString)) (list_ascii_of_string s)
  | _ => []
  end.

Definition putRequest (uploadUrl : Value) (accessToken : string) (uploadHeaders : Value)
    (imageBuffer : list byte) : Request :=
  {| url := to_js_string uploadUrl; method := "PUT";
     headers := spread [ bearer accessToken; ("Content-Type", "image/jpeg") ]
                       (own_entries uploadHeaders);
     body := Raw imageBuffer |}.

(** function to upload image to linkedin's servers *)
Definition uploadImageToLinkedin (imageUrl : option string)
    (accessToken personUrn : string) : M Value :=
  try_catch
    ((* step 1: register upload with linkedin assets api *)
     registerResponse <- fetch (registerRequest accessToken personUrn) ;;
     throw_if (negb (ok registerResponse))
       (Error ("Failed to register LinkedIn upload: "
               +:+ pretty (status_code registerResponse)
               +:+ " - " +:+ text registerResponse)) ;;;
     registerResult <- json_of registerResponse ;;
     value <- prop registerResult "value" ;;
     mechanisms <- prop value "uploadMechanism" ;;
     uploadMechanism <-
       prop mechanisms "com.linkedin.digitalmedia.uploading.MediaUploadHttpRequest" ;;
     uploadUrl <- prop uploadMechanism "uploadUrl" ;;
     let uploadHeaders := js_or (member uploadMechanism "headers") (VObj []) in
     throw_if (negb (truthy uploadUrl)) (Error "No upload URL received from LinkedIn") ;;;
     let assetUrn := member value "asset" in
     (* step 2: download image from cloudinary *)
     imageResponse <- fetch (GET (string_or_undefined imageUrl)) ;;
     throw_if (negb (ok imageResponse))
       (Error ("Failed to fetch image: " +:+ pretty (status_code imageResponse))) ;;;
     let imageBuffer := arrayBuffer imageResponse in
     (* step 3: upload image to linkedin using put with proper headers *)
     uploadResponse <- fetch (putRequest uploadUrl accessToken uploadHeaders imageBuffer) ;;
     throw_if (negb (ok uploadResponse))
       (Error ("Failed to upload image to LinkedIn: "
               +:+ pretty (status_code uploadResponse))) ;;;
     ret assetUrn)
    (fun error => throw error).

(** The [for (const mediaItem of imagesToUpload)] loop. *)
Fixpoint upload_images (imagesToUpload : list MediaItem) (accessToken personUrn : string)
    (assetUrns : list Value) : M (list Value) :=
  match imagesToUpload with
  | [] => ret assetUrns
  | mediaItem :: rest =>
      assetUrn <- uploadImageToLinkedin (item_source mediaItem) accessToken personUrn ;;
      upload_images rest accessToken personUrn (assetUrns ++ [assetUrn])
  end.

(** One entry of [media]; its description is [content.substring(0, 200)],
    the first 200 code units. *)
Definition shareMedia (content : string) (index : nat) (assetUrn : Value) : Value :=
  VObj [ ("status", VStr "READY");
         ("description", VObj [ ("text", VStr (String.substring 0 200 content)) ]);
         ("media", assetUrn);
         ("title", VObj [ ("text", VStr ("Shared Image "
                                          +:+ pretty (Z.of_nat index + 1))) ]) ].

Definition visibility : string * Value :=
  ("visibility", VObj [ ("com.linkedin.ugc.MemberNetworkVisibility", VStr "PUBLIC") ]).

Definition imageShare (personUrn content : string) (assetUrns : list Value) : Value :=
  VObj [ ("author", VStr personUrn);
         ("lifecycleState", VStr "PUBLISHED");
         ("specificContent",
          VObj [ ("com.linkedin.ugc.ShareContent",
                  VObj [ ("shareCommentary", VObj [ ("text", VStr content) ]);
                         ("shareMediaCategory", VStr "IMAGE");
                         ("media", VArr (imap (shareMedia content) assetUrns)) ]) ]);
         visibility ].

Definition textShare (personUrn content : string) : Value :=
  VObj [ ("author", VStr personUrn);
         ("lifecycleState", VStr "PUBLISHED");
         ("specificContent",
          VObj [ ("com.linkedin.ugc.ShareContent",
                  VObj [ ("shareCommentary", VObj [ ("text", VStr content) ]);
                         ("shareMediaCategory", VStr "NONE") ]) ]);
         visibility ].

Definition profileRequest (accessToken : string) : Request :=
  {| url := "https://api.linkedin.com/v2/userinfo"; method := "GET";
     headers := [ bearer accessToken ]; body := NoBody |}.

Definition shareRequest (accessToken : string) (shareData : Value) : Request :=
  {| url := "https://api.linkedin.com/v2/ugcPosts"; method := "POST";
     headers := restliHeaders accessToken;
     body := Json shareData |}.

(** function to post to linkedin *)
Definition postToLinkedin (content accessToken : string) (media : Media)
    : M PublishResult :=
  try_catch
    ((* get user profile id first *)
     profileResponse <- fetch (profileRequest accessToken) ;;
     throw_if (negb (ok profileResponse)) (Error "Failed to get LinkedIn profile") ;;;
     profileData <- json_of profileResponse ;;
     sub <- prop profileData "sub" ;;
     let personUrn := "urn:li:person:" +:+ to_js_string sub in
     shareData <-
       (if media_present media then
          assetUrns <-
            match media with
            | MediaArray items =>
                (* up to 4 images *)
                upload_images (firstn 4 items) accessToken personUrn []
            | MediaObject _ item =>
                (* single image (old format) *)
                assetUrn <- uploadImageToLinkedin (item_source item) accessToken personUrn ;;
                ret [assetUrn]
            | MediaNull => ret []
            end ;;
          ret (imageShare personUrn content assetUrns)
        else ret (textShare personUrn content)) ;;
     postResponse <- fetch (shareRequest accessToken shareData) ;;
     throw_if (negb (ok postResponse))
       (Error ("LinkedIn API error: " +:+ pretty (status_code postResponse))) ;;;
     postResult <- json_of postResponse ;;
     id <- prop postResult "id" ;;
     postId <- (if truthy id then ret id
                else t <- now ;; ret (VStr ("linkedin_" +:+ pretty t))) ;;
     succeeded postId VUndef)
    failure.

End Linkedin.

(* ================================================================== *)
(** ** Batch orchestrator *)
(* ================================================================== *)

(** What a platform task resolves to: [{platform, ...result}]. *)
Record TaskResult := {
  platform : string;
  result : PublishResult
}.

Inductive Settled (A : Type) :=
| Fulfilled (value : A)
| Rejected (reason : Exn).
Arguments Fulfilled {A} value.
Arguments Rejected {A} reason.

(** A promise, settled. *)
Definition settle {A} (m : M A) : M (Settled A) :=
  fun E w =>
    match m E w with
    | (Ok a, w') => (Ok (Fulfilled a), w')
    | (Thrown e, w') => (Ok (Rejected e), w')
    end.

(** [await Promise.allSettled(promises)].  The tasks are run one after the
    other, in the order of the array: one of the interleavings of the
    concurrent tasks. *)
Fixpoint allSettled {A} (promises : list (M A)) : M (list (Settled A)) :=
  match promises with
  | [] => ret []
  | p :: rest =>
      r <- settle p ;;
      rs <- allSettled rest ;;
      ret (r :: rs)
  end.

(** [await Promise.race([m, timer])], the timer rejecting with [e]. *)
Definition race_with_timer {A} (m : M A) (e : Exn) : M A :=
  a <- m ;;
  timed_out <- oracle timer_first ;;
  if (timed_out : bool) then throw e else ret a.

(** A result object carrying only [{success: false, error, sentAt}]. *)
Definition refusal (error : string) : M PublishResult :=
  t <- now ;;
  ret {| success := false; postId := VUndef; postUrl := VUndef;
         error := Some error; sentAt := t |}.

(** The callback of [post.platforms.map(async (platform) => ...)]. *)
Definition platformTask (post : Post) (user : option User) (platform : string)
    : M TaskResult :=
  (* console.log('User ID:', user._id) *)
  user <- match user with
          | Some u => ret u
          | None => throw (TypeError "Cannot read properties of null (reading '_id')")
          end ;;
  match connectedAccounts user !! platform with
  | None =>
      r <- refusal (platform +:+ " account not found") ;;
      ret {| platform := platform; result := r |}
  | Some account =>
      if negb (connected account) then
        r <- refusal (platform +:+ " account not connected") ;;
        ret {| platform := platform; result := r |}
      else
        match accessToken account with
        | Some token =>
            if nonempty token then
              r <- try_catch
                     (match platform with
                      | "twitter" =>
                          race_with_timer
                            (Twitter.postToTwitter (content post) token (media post)
                               (Some account))
                            (Error "Twitter API timeout")
                      | "linkedin" =>
                          Linkedin.postToLinkedin (content post) token (media post)
                      | "reddit" =>
                          Reddit.postToReddit (content post) token (media post)
                            (Some account) (Some "test")
                      | _ => refusal "unsupported platform"
                      end)
                     (fun error => refusal (message error)) ;;
              ret {| platform := platform; result := r |}
            else
              r <- refusal (platform +:+ " account missing access token") ;;
              ret {| platform := platform; result := r |}
        | None =>
            r <- refusal (platform +:+ " account missing access token") ;;
            ret {| platform := platform; result := r |}
        end
  end.

(** The body of [platformResults.forEach]: what is pushed on [results]. *)
Definition collect (promiseResult : Settled TaskResult) : M TaskResult :=
  match promiseResult with
  | Fulfilled value => ret value
  | Rejected reason =>
      r <- refusal (if nonempty (message reason) then message reason
                    else "Platform processing failed") ;;
      ret {| platform := "unknown"; result := r |}
  end.

Fixpoint collect_all (platformResults : list (Settled TaskResult)) : M (list TaskResult) :=
  match platformResults with
  | [] => ret []
  | p :: rest =>
      r <- collect p ;;
      rs <- collect_all rest ;;
      ret (r :: rs)
  end.

(** [hasSuccess] once [forEach] is over. *)
Definition any_success (platformResults : list (Settled TaskResult)) : bool :=
  existsb (fun p => match p with
                    | Fulfilled value => success (result value)
                    | Rejected _ => false
                    end) platformResults.

(** [post.platformResults = {}; results.forEach(result => ...)] *)
Definition results_object (results : list TaskResult) : gmap string Stored.entry :=
  fold_left
    (fun obj r =>
       <[ platform r := {| Stored.success := success (result r);
                           Stored.postId := postId (result r);
                           Stored.error := error (result r) |} ]> obj)
    results ∅.

Definition set_outcome (post : Post) (results : gmap string Stored.entry)
    (st : Status) (at_ : option Z) : Post :=
  {| post_id := post_id post; userId := userId post; content := content post;
     platforms := platforms post; scheduledTime := scheduledTime post;
     status := st; publishedAt := at_; errorMessage := errorMessage post;
     media := media post; platformResults := results |}.

(** [post.status = 'failed'; post.errorMessage = error.message] *)
Definition mark_failed (post : Post) (msg : string) : Post :=
  {| post_id := post_id post; userId := userId post; content := content post;
     platforms := platforms post; scheduledTime := scheduledTime post;
     status := failed; publishedAt := publishedAt post; errorMessage := Some msg;
     media := media post; platformResults := platformResults post |}.

Definition store_post (post : Post) (posts : list Post) : list Post :=
  if existsb (fun p => Nat.eqb (post_id p) (post_id post)) posts
  then map (fun p => if Nat.eqb (post_id p) (post_id post) then post else p) posts
  else posts ++ [post].

(** The slots models/Post.js declares under [platformResults]. *)
Definition declared_platforms : list string := ["twitter"; "reddit"; "linkedin"].

(** What is written of [post.platformResults]: the schema is strict, so a
    key it does not declare - ['unknown'] - stays on the object in memory
    and is not saved. *)
Definition declared (results : gmap string Stored.entry) : gmap string Stored.entry :=
  fold_right
    (fun slot doc =>
       match results !! slot with
       | Some entry => <[ slot := entry ]> doc
       | None => doc
       end)
    ∅ declared_platforms.

(** The document [post.save()] writes. *)
Definition document (post : Post) : Post :=
  {| post_id := post_id post; userId := userId post; content := content post;
     platforms := platforms post; scheduledTime := scheduledTime post;
     status := status post; publishedAt := publishedAt post;
     errorMessage := errorMessage post; media := media post;
     platformResults := declared (platformResults post) |}.

(** [await post.save()] *)
Definition save (post : Post) : M unit :=
  fun E w =>
    match save_error E (w_time w) with
    | Some e => (Thrown e, advance w)
    | None =>
        (Ok tt, {| w_time := S (w_time w); w_sent := w_sent w;
                   w_posts := store_post (document post) (w_posts w);
                   w_users := w_users w |})
    end.

Definition inc_postsCount (id : nat) (u : User) : User :=
  if Nat.eqb (user_id u) id
  then {| user_id := user_id u; connectedAccounts := connectedAccounts u;
          postsCount := postsCount u + 1 |}
  else u.

(** [await User.findByIdAndUpdate(id, { $inc: { postsCount: 1 } })] *)
Definition incrementPostsCount (id : nat) : M unit :=
  fun E w =>
    match update_error E (w_time w) with
    | Some e => (Thrown e, advance w)
    | None =>
        (Ok tt, {| w_time := S (w_time w); w_sent := w_sent w;
                   w_posts := w_posts w;
                   w_users := map (inc_postsCount id) (w_users w) |})
    end.

(** The [catch] of one post: mark it failed, best effort. *)
Definition recover (post : Post) (processedCount : Z) (error : Exn) : M (Post * Z) :=
  let post := mark_failed post (message error) in
  try_catch (save post) (fun saveError => ret tt) ;;;
  ret (post, processedCount).

(** The platform attempts of one post, settled:
    [await Promise.allSettled(post.platforms.map(async (platform) => ...))] *)
Definition attempts (post : Post) (user : option User) : M (list (Settled TaskResult)) :=
  allSettled (map (platformTask post user) (platforms post)).

(** From [await post.save()] to the end of the iteration, with the
    [catch] of the iteration around it. *)
Definition persist (post : Post) (user : option User) (hasSuccess : bool)
    (processedCount : Z) : M (Post * Z) :=
  try_catch
    (save post ;;;
     (* increment user's sent posts count if at least one platform succeeded *)
     (if hasSuccess
      then match user with
           | Some u => incrementPostsCount (user_id u)
           | None => throw (TypeError "Cannot read properties of null (reading '_id')")
           end
      else ret tt) ;;;
     (* only count as processed if at least one platform succeeded *)
     ret (post, if hasSuccess then processedCount + 1 else processedCount))
    (recover post processedCount).

(** The body of [for (const post of duePosts)] after the time check.
    Returns the post as the iteration leaves it and the new
    [processedCount]. *)
Definition processPost (post : Post) (user : option User) (processedCount : Z)
    : M (Post * Z) :=
  try_catch
    ((* process platforms in parallel, wait for all of them *)
     platformResults <- attempts post user ;;
     results <- collect_all platformResults ;;
     let hasSuccess := any_success platformResults in
     (* update post status and results *)
     publishedAt <- (if hasSuccess then t <- now ;; ret (Some t) else ret None) ;;
     let post := set_outcome post (results_object results)
                   (if hasSuccess then published else failed) publishedAt in
     persist post user hasSuccess processedCount)
    (recover post processedCount).

Definition MAX_EXECUTION_TIME : Z := 8000.

(** The [for (const post of duePosts)] loop.  Returns the array as the
    loop leaves it, and [processedCount]. *)
Fixpoint process_posts (duePosts : list (Post * option User)) (startTime : Z)
    (processedCount : Z) : M (list Post * Z) :=
  match duePosts with
  | [] => ret ([], processedCount)
  | (post, user) :: rest =>
      t <- now ;;
      if t - startTime >? MAX_EXECUTION_TIME - 2000
      then (* approaching time limit, stopping processing *)
        ret (map fst duePosts, processedCount)
      else
        r <- processPost post user processedCount ;;
        rs <- process_posts rest startTime (snd r) ;;
        ret (fst r :: fst rs, snd rs)
  end.

(** [Post.find({status: 'scheduled', scheduledTime: {$lte: now, $gte:
    fiveMinutesAgo}}).populate('userId').limit(5)] *)
Definition find_due (now_ : Z) : M (list (Post * option User)) :=
  fun E w =>
    match find_error E (w_time w) with
    | Some e => (Thrown e, advance w)
    | None =>
        let fiveMinutesAgo := now_ - 5 * 60 * 1000 in
        let due p :=
          (match status p with scheduled => true | _ => false end
           && (scheduledTime p <=? now_) && (fiveMinutesAgo <=? scheduledTime p))%bool in
        let populate p :=
          (p, List.find (fun u => Nat.eqb (user_id u) (userId p)) (w_users w)) in
        (Ok (map populate (firstn 5 (List.filter due (w_posts w)))), advance w)
    end.

(** [await Promise.race([connectDB(), timeoutPromise])] *)
Definition connect : M unit :=
  fun E w =>
    match connect_error E (w_time w) with
    | Some e => (Thrown e, advance w)
    | None => (Ok tt, advance w)
    end.

Record Report := {
  processed : Z;
  report_message : string;
  duePosts_after : list Post   (* the posts found, as the run leaves them *)
}.

(** function to process scheduled posts with timeout handling *)
Definition processScheduledPosts : M Report :=
  startTime <- now ;;
  try_catch
    (connect ;;;
     (* posts that are due to be sent (within the last 5 minutes) *)
     now_ <- now ;;
     duePosts <- find_due now_ ;;
     if Nat.eqb (length duePosts) 0
     then ret {| processed := 0; report_message := "No posts to process";
                 duePosts_after := [] |}
     else
       r <- process_posts duePosts startTime 0 ;;
       ret {| processed := snd r;
              report_message := "Processed " +:+ pretty (snd r) +:+ " posts";
              duePosts_after := fst r |})
    (fun error => throw error).

(** What the Vercel cron endpoint answers. *)
Record HttpResponse := {
  http_status : Z;
  http_body : list (string * Value)
}.

(** serverless function endpoint for Vercel cron *)
Definition endpoint : M HttpResponse :=
  startTime <- now ;;
  (* console.log('Cron job triggered at:', new Date().toISOString()) *)
  _ <- now ;;
  outcome <- settle processScheduledPosts ;;
  (* the 9 second timer answers first when it fires before the run is over *)
  timed_out <- oracle timer_first ;;
  if (timed_out : bool) then
    t <- now ;;
    stamp <- ask (fun E => toISOString E t) ;;
    ret {| http_status := 408;
           http_body := [ ("success", VBool false); ("error", VStr "Request timeout");
                          ("timestamp", VStr stamp) ] |}
  else
    finished <- now ;;
    let executionTime := VStr (pretty (finished - startTime) +:+ "ms") in
    t <- now ;;
    stamp <- ask (fun E => toISOString E t) ;;
    match outcome with
    | Fulfilled r =>
        ret {| http_status := 200;
               http_body :=
                 [ ("success", VBool true);
                   ("message", js_or (VStr (report_message r))
                                 (VStr "Scheduled posts processed successfully"));
                   ("processed", js_or (VNum (processed r)) (VNum 0));
                   ("executionTime", executionTime);
                   ("timestamp", VStr stamp) ] |}
    | Rejected error =>
        ret {| http_status := 500;
               http_body :=
                 [ ("success", VBool false);
                   ("error", VStr "Internal server error");
                   ("details", VStr (message error));
                   ("executionTime", executionTime);
                   ("timestamp", VStr stamp) ] |}
    end.

(* ================================================================== *)
(** ** Notions used by the statements *)
(* ================================================================== *)

(** [w'] comes after [w], the store untouched, and every request issued
    in between satisfies [P]. *)
Definition extends (P : Request -> Prop) (w w' : World) : Prop :=
  w_posts w' = w_posts w /\ w_users w' = w_users w /\
  (w_time w <= w_time w')%nat /\
  exists reqs, w_sent w' = w_sent w ++ reqs /\ Forall P reqs.

(** A computation that leaves the store alone and only issues requests
    satisfying [P], whatever the outside answers. *)
Definition sends_only (P : Request -> Prop) {A} (m : M A) : Prop :=
  forall E w, extends P w (snd (m E w)).

(** A computation that never throws. *)
Definition total {A} (m : M A) : Prop :=
  forall E w, exists a w', m E w = (Ok a, w').

(** A store that raises no exception. *)
Definition reliable_store (E : Env) : Prop :=
  forall t, save_error E t = None /\ update_error E t = None.

Definition counter (id : nat) (users : list User) : option Z :=
  postsCount <$> List.find (fun u => Nat.eqb (user_id u) id) users.

Definition is_published (p : Post) : bool :=
  match status p with published => true | _ => false end.

Definition any_request : Request -> Prop := fun _ => True.

(** Every value the computation can return satisfies [Q]. *)
Definition returns {A} (Q : A -> Prop) (m : M A) : Prop :=
  forall E w a w', m E w = (Ok a, w') -> Q a.

(** The two shapes of a publisher's result: [{success: true, ...}] without
    an error, or [{success: false, error: <message>}]. *)
Definition success_shape (r : PublishResult) : Prop :=
  success r = true /\ error r = None.

Definition failure_shape (r : PublishResult) : Prop :=
  success r = false /\ postId r = VUndef /\ exists msg, error r = Some msg.

Definition well_shaped (r : PublishResult) : Prop :=
  success_shape r \/ failure_shape r.

(* ------------------------------------------------------------------ *)
(** *** Concrete outsides, users and posts for the examples *)

Definition reply (code : Z) (body : option Value) : Response :=
  {| status_code := code; text := "body"; json := body; arrayBuffer := [] |}.

(** Upper case for the letters a-z, as the example outside computes it. *)
Definition upper_case (s : string) : string :=
  string_of_list_ascii
    (map (fun c => let n := nat_of_ascii c in
                   if (Nat.leb 97 n && Nat.leb n 122)%bool then ascii_of_nat (n - 32) else c)
         (list_ascii_of_string s)).

(** An outside given by its network and the faults of its store. *)
Definition outside (network : nat -> Request -> FetchOutcome)
    (save_fault update_fault : nat -> option Exn) : Env :=
  {| net := network;
     clock := fun t => 1000 * Z.of_nat t;
     random_hex := fun _ => "0123456789abcdef0123456789abcdef";
     connect_error := fun _ => None;
     find_error := fun _ => None;
     save_error := save_fault;
     update_error := update_fault;
     timer_first := fun _ => false;
     env_var := fun _ => Some "app-credential";
     base64 := fun _ => "R0lGODlh";
     hmac_sha1_base64 := fun _ _ => "c2lnbmF0dXJl";
     encodeURIComponent := fun s => s;
     json_stringify := to_js_string;
     form_urlencoded :=
       fun ps => String.concat "&" (map (fun kv => fst kv +:+ "=" +:+ snd kv) ps);
     string_to_number := fun _ => None;
     toISOString := pretty;
     toUpperCase := upper_case |}.

Definition no_fault : nat -> option Exn := fun _ => None.

(** A network on which every call is answered 200 with one document. *)
Definition answering (v : Value) : nat -> Request -> FetchOutcome :=
  fun _ _ => NetReply (reply 200 (Some v)).

Definition tweet_created : Value :=
  VObj [ ("data", VObj [ ("id", VStr "1790"); ("text", VStr "hello") ]) ].

Definition account_of (isConnected : bool) (token : option string) : Account :=
  {| connected := isConnected; accessToken := token; refreshToken := None;
     oauth1aAccessToken := None; oauth1aAccessTokenSecret := None |}.

Definition alice : User :=
  {| user_id := 1;
     connectedAccounts := {[ "twitter" := account_of true (Some "bearer-token") ]};
     postsCount := 3 |}.

(** Alice after disconnecting twitter. *)
Definition alice_disconnected : User :=
  {| user_id := 1;
     connectedAccounts := {[ "twitter" := account_of false None ]};
     postsCount := 3 |}.

Definition no_media : Media :=
  MediaObject false {| cloudinaryUrl := None; itemUrl := None |}.

Definition draft (media : Media) : Post :=
  {| post_id := 7; userId := 1; content := "hello"; platforms := ["twitter"];
     scheduledTime := 0; status := scheduled; publishedAt := None;
     errorMessage := None; media := media; platformResults := ∅ |}.

Definition world_of (posts : list Post) (users : list User) : World :=
  {| w_time := 0; w_sent := []; w_posts := posts; w_users := users |}.

(** Everything answers and the store works. *)
Definition calm : Env := outside (answering tweet_created) no_fault no_fault.

(** The tweet is created, then the users collection refuses the update. *)
Definition failing_update : Env :=
  outside (answering tweet_created) no_fault
    (fun _ => Some (Error "users collection unavailable")).

(** The tweet is created, then the posts collection refuses every write. *)
Definition failing_save : Env :=
  outside (answering tweet_created)
    (fun _ => Some (Error "posts collection unavailable")) no_fault.

Definition home : World := world_of [draft no_media] [alice].

(** Some entry of [platformResults] reports a success. *)
Definition has_successful_entry (p : Post) : bool :=
  bool_decide (exists platform entry,
                  platformResults p !! platform = Some entry
                  /\ Stored.success entry = true).

(** What a task refused before any call resolves to. *)
Definition refused (platform msg : string) (E : Env) (w : World)
    : Res TaskResult * World :=
  (Ok {| platform := platform;
         result := {| success := false; postId := VUndef; postUrl := VUndef;
                      error := Some msg; sentAt := clock E (w_time w) |} |},
   advance w).

Definition home_disconnected : World := world_of [draft no_media] [alice_disconnected].

(** The same post asking for twitter twice. *)
Definition twice : Post :=
  {| post_id := 7; userId := 1; content := "hello"; platforms := ["twitter"; "twitter"];
     scheduledTime := 0; status := scheduled; publishedAt := None;
     errorMessage := None; media := no_media; platformResults := ∅ |}.

(* ------------------------------------------------------------------ *)
(** *** The chunked upload, phase by phase *)

Section GifProtocol.

Variables (E : Env) (t : nat).
Variables (mediaBuffer : list byte) (mediaType mediaCategory : string).
Variables (consumerKey consumerSecret appAccessToken appAccessTokenSecret : string).

(** The signed request for [params], its header built at interaction [n]. *)
Definition signed_at (n : nat) (params : list (string * string)) : Request :=
  Twitter.uploadRequest
    (Twitter.oauthHeader E (clock E n) (random_hex E (S n)) "POST" Twitter.uploadUrl
       params consumerKey consumerSecret appAccessToken appAccessTokenSecret)
    params.

(** INIT declares the total size and the media category. *)
Definition gif_init : Request :=
  signed_at t (Twitter.initParams mediaType mediaCategory (length mediaBuffer)).

(** The media identifier is what INIT's reply carries. *)
Definition gif_media_id : Value :=
  match net E (S (S t)) gif_init with
  | NetReply r => match json r with
                  | Some initResult => member initResult "media_id_string"
                  | None => VUndef
                  end
  | NetFail _ => VUndef
  end.

(** APPEND carries the whole payload, base64-encoded, as segment 0. *)
Definition gif_append : Request :=
  signed_at (3 + t) (Twitter.appendParams gif_media_id (base64 E mediaBuffer)).

Definition gif_finalize : Request :=
  signed_at (6 + t) (Twitter.finalizeParams gif_media_id).

Definition gif_protocol : list Request := [ gif_init; gif_append; gif_finalize ].

(** What the remote answers to FINALIZE. *)
Definition gif_finalize_reply : FetchOutcome := net E (8 + t) gif_finalize.

(** INIT went through: it was answered 2xx with a JSON document. *)
Definition gif_init_accepted : bool :=
  match net E (2 + t) gif_init with
  | NetReply r =>
      ok r && match json r with
              | Some initResult => negb (nullish initResult)
              | None => false
              end
  | NetFail _ => false
  end.

(** APPEND went through: it was answered 2xx. *)
Definition gif_append_accepted : bool :=
  match net E (5 + t) gif_append with
  | NetReply r => ok r
  | NetFail _ => false
  end.

End GifProtocol.

(** The form field [command] of an upload request. *)
Definition command (q : Request) : option string :=
  match body q with
  | Form params => snd <$> List.find (fun kv => String.eqb (fst kv) "command") params
  | _ => None
  end.

(** The account has no usable OAuth 1.0a pair. *)
Definition lacks_legacy_pair (userAccount : option Account) : Prop :=
  match userAccount with
  | None => True
  | Some a => present (oauth1aAccessToken a) = false
              \/ present (oauth1aAccessTokenSecret a) = false
  end.

Definition one_image : Media :=
  MediaArray [ {| cloudinaryUrl := Some "https://res.cloudinary.com/demo/cat.gif";
                  itemUrl := None |} ].

(* ------------------------------------------------------------------ *)
(** *** Reddit's upload of one image, step by step *)

Section RedditUpload.

Variables (E : Env) (t : nat) (imageUrl : option string) (accessToken : string).

(** What the lease request is answered with. *)
Definition lease_at : Value :=
  match net E t (Reddit.leaseRequest accessToken) with
  | NetReply r => match json r with Some leaseData => leaseData | None => VUndef end
  | NetFail _ => VUndef
  end.

Definition lease_fields : Value := member (member lease_at "args") "fields".

Definition lease_action : Value := member (member lease_at "args") "action".

(** The image as downloaded from its source. *)
Definition image_at : list byte :=
  match net E (S t) (GET (string_or_undefined imageUrl)) with
  | NetReply r => arrayBuffer r
  | NetFail _ => []
  end.

(** The form the lease prescribes. *)
Definition form_of (fields : list Value) : list (string * string) :=
  map (fun f => (to_js_string (member f "name"), to_js_string (member f "value"))) fields.

Definition lease_form_at : list (string * string) :=
  match lease_fields with VArr l => form_of l | _ => [] end.

(** Lease, download, then multipart POST to the leased storage. *)
Definition upload_steps : list Request :=
  [ Reddit.leaseRequest accessToken;
    GET (string_or_undefined imageUrl);
    Reddit.storageRequest lease_action lease_form_at image_at ].

(** The lease was granted: the request was answered 2xx with a JSON
    document naming an asset. *)
Definition lease_granted : bool :=
  match net E t (Reddit.leaseRequest accessToken) with
  | NetReply r =>
      ok r && negb (nullish lease_at) && negb (nullish (member lease_at "asset"))
  | NetFail _ => false
  end.

(** The image was downloaded: the request was answered 2xx. *)
Definition image_fetched : bool :=
  match net E (S t) (GET (string_or_undefined imageUrl)) with
  | NetReply r => ok r
  | NetFail _ => false
  end.

(** The lease says how to upload: its [args.fields] is an array of
    name/value objects. *)
Definition lease_usable : bool :=
  negb (nullish (member lease_at "args"))
  && match lease_fields with
     | VArr l => forallb (fun f => negb (nullish f)) l
     | _ => false
     end.

(** The storage accepted the image: the upload was answered 2xx. *)
Definition image_stored : bool :=
  match net E (2 + t) (Reddit.storageRequest lease_action lease_form_at image_at) with
  | NetReply r => ok r
  | NetFail _ => false
  end.

(** The requests one upload makes: the lease always; the download once
    the lease is granted; the upload once the image is there and the
    lease usable. *)
Definition upload_made : nat :=
  if lease_granted then if image_fetched && lease_usable then 3 else 2 else 1.

(** The upload went through, step after step. *)
Definition upload_done : bool :=
  lease_granted && image_fetched && lease_usable && image_stored.

End RedditUpload.

(** The requests of a gallery: the upload steps of each item in turn,
    starting at interaction [t]. *)
Fixpoint gallery_uploads (E : Env) (t : nat) (items : list MediaItem)
    (accessToken : string) : list Request :=
  match items with
  | [] => []
  | item :: rest =>
      upload_steps E t (cloudinaryUrl item) accessToken
      ++ gallery_uploads E (3 + t) rest accessToken
  end.

(** The requests the uploads of a gallery make: those of each item in
    turn, up to and including the first upload that fails. *)
Fixpoint gallery_made (E : Env) (t : nat) (items : list MediaItem)
    (accessToken : string) : nat :=
  match items with
  | [] => 0
  | item :: rest =>
      if upload_done E t (cloudinaryUrl item) accessToken
      then 3 + gallery_made E (3 + t) rest accessToken
      else upload_made E t (cloudinaryUrl item) accessToken
  end.

(** Every upload of the gallery went through. *)
Fixpoint gallery_done (E : Env) (t : nat) (items : list MediaItem)
    (accessToken : string) : bool :=
  match items with
  | [] => true
  | item :: rest =>
      upload_done E t (cloudinaryUrl item) accessToken
      && gallery_done E (3 + t) rest accessToken
  end.

(** The gallery items obtained from the leases. *)
Fixpoint gallery_items (E : Env) (t : nat) (items : list MediaItem)
    (accessToken : string) : list Value :=
  match items with
  | [] => []
  | item :: rest =>
      Reddit.galleryItem (Reddit.asset_id (lease_at E t accessToken))
      :: gallery_items E (3 + t) rest accessToken
  end.

(** The requests of the single-image branch, starting at interaction [t]. *)
Definition single_image_requests (E : Env) (t : nat) (item : MediaItem)
    (accessToken subreddit content : string) : list Request :=
  upload_steps E t (cloudinaryUrl item) accessToken
  ++ [ Reddit.submitRequest accessToken
         (Reddit.imagePost subreddit content
            (Reddit.storedUrl (lease_fields E t accessToken))) ].

(** The requests of the gallery branch, starting at interaction [t]. *)
Definition gallery_requests (E : Env) (t : nat) (items : list MediaItem)
    (accessToken subreddit content : string) : list Request :=
  gallery_uploads E t items accessToken
  ++ [ Reddit.galleryRequest accessToken
         (Reddit.galleryPost subreddit content (gallery_items E t items accessToken)) ].

(* ------------------------------------------------------------------ *)
(** *** What a publisher's outcome says *)

(** [result.json?.errors] *)
Definition api_errors (result : Value) : Value :=
  oprop (member result "json") "errors".

(** The publisher returned [{success: false, error: msg}]. *)
Definition fails_with (msg : string) (out : Res PublishResult * World) : Prop :=
  exists r w', out = (Ok r, w') /\ success r = false /\ error r = Some msg.

(** The publisher returned [{success: false, ...}]. *)
Definition fails (out : Res PublishResult * World) : Prop :=
  exists r w', out = (Ok r, w') /\ success r = false.

(* ------------------------------------------------------------------ *)
(** *** A Reddit to try the publisher on *)

Definition sample_lease : Value :=
  VObj [ ("args",
          VObj [ ("action", VStr "//reddit-uploaded-media.s3-accelerate.amazonaws.com");
                 ("fields",
                  VArr [ VObj [ ("name", VStr "acl"); ("value", VStr "private") ];
                         VObj [ ("name", VStr "key"); ("value", VStr "rte_images/cat") ] ]) ]);
         ("asset", VObj [ ("asset_id", VStr "asset-1") ]) ].

(** Leases are granted, downloads and uploads go through, and every
    submission is answered 200 with [submitted]. *)
Definition reddit_net (submitted : Value) : nat -> Request -> FetchOutcome :=
  fun _ q =>
    if String.eqb (url q) "https://oauth.reddit.com/api/media/asset.json"
    then NetReply (reply 200 (Some sample_lease))
    else if String.prefix "https://oauth.reddit.com/api/submit" (url q)
         then NetReply (reply 200 (Some submitted))
         else NetReply (reply 200 None).

Definition reddit (submitted : Value) : Env :=
  outside (reddit_net submitted) no_fault no_fault.

(** The answers of Reddit used below. *)
Definition accepted : Value :=
  VObj [ ("json", VObj [ ("errors", VArr []);
                         ("data", VObj [ ("id", VStr "t3_abc");
                                         ("url", VStr "https://redd.it/abc") ]) ]) ].

Definition page_only : Value :=
  VObj [ ("json", VObj [ ("errors", VArr []);
                         ("data", VObj [ ("user_submitted_page",
                                          VStr "https://www.reddit.com/user/alice/submitted/") ]) ]) ].

Definition rate_limited : Value :=
  VObj [ ("json", VObj [ ("errors", VArr [ VArr [ VStr "RATELIMIT";
                                                  VStr "you are doing that too much";
                                                  VStr "ratelimit" ] ]) ]) ].

Definition cat : MediaItem :=
  {| cloudinaryUrl := Some "https://res.cloudinary.com/demo/cat.jpg"; itemUrl := None |}.

Definition dog : MediaItem :=
  {| cloudinaryUrl := Some "https://res.cloudinary.com/demo/dog.jpg"; itemUrl := None |}.

(** The same image in the one-object format of the schedule endpoint. *)
Definition cat_object : Media := MediaObject true cat.

Definition nowhere : World := world_of [] [].

(* ------------------------------------------------------------------ *)
(** *** A Twitter upload endpoint to try the uploader on *)

(** INIT is answered with a media identifier, FINALIZE with a pending
    [processing_info], everything else with an empty 2xx. *)
Definition upload_net : nat -> Request -> FetchOutcome :=
  fun _ q =>
    match command q with
    | Some "INIT" =>
        NetReply (reply 202 (Some (VObj [ ("media_id_string", VStr "710511363345354753") ])))
    | Some "FINALIZE" =>
        NetReply (reply 200 (Some (VObj [ ("media_id_string", VStr "710511363345354753");
                                          ("processing_info",
                                           VObj [ ("state", VStr "pending");
                                                  ("check_after_secs", VNum 5) ]) ])))
    | _ => NetReply (reply 204 None)
    end.

Definition upload_endpoint : Env := outside upload_net no_fault no_fault.

Definition gif_bytes : list byte := [x47; x49; x46; x38; x39; x61].

(** An account connected for posting only. *)
Definition bearer_only : Account := account_of true (Some "bearer-token").

(* ------------------------------------------------------------------ *)
(** *** The batch run: what it takes up *)

(** The query of [Post.find]: scheduled, and due within the last five
    minutes. *)
Definition due_at (now_ : Z) (p : Post) : bool :=
  (match status p with scheduled => true | _ => false end
   && (scheduledTime p <=? now_) && (now_ - 5 * 60 * 1000 <=? scheduledTime p))%bool.

(** The posts one run takes up: the first five that are due. *)
Definition selected (now_ : Z) (posts : list Post) : list Post :=
  firstn 5 (List.filter (due_at now_) posts).

(** Every post of [w] whose identifier is not in [ids] is still in [w'],
    as it was. *)
Definition untouched_outside (ids : list nat) (w w' : World) : Prop :=
  forall p, In p (w_posts w) -> ~ In (post_id p) ids -> In p (w_posts w').

(** The outside [E] with another clock, or with other timers. *)
Definition with_clock (c : nat -> Z) (E : Env) : Env :=
  {| net := net E; clock := c; random_hex := random_hex E;
     connect_error := connect_error E; find_error := find_error E;
     save_error := save_error E; update_error := update_error E;
     timer_first := timer_first E; env_var := env_var E; base64 := base64 E;
     hmac_sha1_base64 := hmac_sha1_base64 E;
     encodeURIComponent := encodeURIComponent E;
     json_stringify := json_stringify E; form_urlencoded := form_urlencoded E;
     string_to_number := string_to_number E; toISOString := toISOString E;
     toUpperCase := toUpperCase E |}.

Definition with_timers (f : nat -> bool) (E : Env) : Env :=
  {| net := net E; clock := clock E; random_hex := random_hex E;
     connect_error := connect_error E; find_error := find_error E;
     save_error := save_error E; update_error := update_error E;
     timer_first := f; env_var := env_var E; base64 := base64 E;
     hmac_sha1_base64 := hmac_sha1_base64 E;
     encodeURIComponent := encodeURIComponent E;
     json_stringify := json_stringify E; form_urlencoded := form_urlencoded E;
     string_to_number := string_to_number E; toISOString := toISOString E;
     toUpperCase := toUpperCase E |}.

(** Every timer fires before the computation it is raced with. *)
Definition impatient : Env := with_timers (fun _ => true) calm.

(** A clock that moves two seconds at each reading. *)
Definition sluggish : Env := with_clock (fun t => 2000 * Z.of_nat t) calm.

(** What the task of a platform records when the timer of its race fires
    first. *)
Definition timed_out_result (platform msg : string) (E : Env) (w : World)
    : Res TaskResult * World :=
  (Ok {| platform := platform;
         result := {| success := false; postId := VUndef; postUrl := VUndef;
                      error := Some msg; sentAt := clock E (S (w_time w)) |} |},
   advance (advance w)).

(** A post published long ago. *)
Definition archived : Post :=
  {| post_id := 8; userId := 1; content := "launch day"; platforms := ["twitter"];
     scheduledTime := 0; status := published; publishedAt := Some 60;
     errorMessage := None; media := no_media;
     platformResults := {[ "twitter" := {| Stored.success := true;
                                           Stored.postId := VStr "1789";
                                           Stored.error := None |} ]} |}.

Definition home_with_archive : World := world_of [archived; draft no_media] [alice].

(* ------------------------------------------------------------------ *)
(** *** Twitter: what the publisher sends *)

(** A download, or a call to Twitter's upload endpoint. *)
Definition media_traffic (q : Request) : Prop :=
  method q = "GET" \/ url q = Twitter.uploadUrl.

(** [process.env.TWITTER_API_KEY] and [process.env.TWITTER_API_SECRET],
    when both are set and not empty. *)
Definition app_credentials (E : Env) : option (string * string) :=
  match env_var E "TWITTER_API_KEY", env_var E "TWITTER_API_SECRET" with
  | Some key, Some secret =>
      if (nonempty key && nonempty secret)%bool then Some (key, secret) else None
  | _, _ => None
  end.

(** The one request of the simple upload: the whole image, base64-encoded,
    in the [tweet_image] category, its header built at interaction [t]. *)
Definition simple_upload (E : Env) (t : nat) (image : list byte)
    (ck cs tok sec : string) : Request :=
  signed_at E ck cs tok sec t
    [ ("media_data", base64 E image); ("media_category", "tweet_image") ].

(** The payload of a tweet without media. *)
Definition text_only (content : string) : Value := VObj [ ("text", VStr content) ].

(** An account connected for posting and for media upload. *)
Definition dual_account : Account :=
  {| connected := true; accessToken := Some "bearer-token"; refreshToken := None;
     oauth1aAccessToken := Some "legacy-token";
     oauth1aAccessTokenSecret := Some "legacy-secret" |}.

(** Tweets are created, but the media cannot be downloaded. *)
Definition media_gone : Env :=
  outside (fun _ q => if String.eqb (method q) "GET"
                      then NetReply (reply 404 None)
                      else NetReply (reply 200 (Some tweet_created)))
    no_fault no_fault.

(** The upload endpoint accepts what it is sent. *)
Definition media_accepted : Env :=
  outside (answering (VObj [ ("media_id_string", VStr "710511363345354753") ]))
    no_fault no_fault.

(* ------------------------------------------------------------------ *)
(** *** Publishers: the submission comes last *)

(** A computation that issues no request. *)
Definition silent {A} (m : M A) : Prop := sends_only (fun _ => False) m.

(** [m] first issues requests satisfying [N], then at most one more, which
    satisfies [T] and is the last; it returns only after that one. *)
Definition submits_last (N T : Request -> Prop) {A} (m : M A) : Prop :=
  forall E w, exists before,
    Forall N before /\
    ( (w_sent (snd (m E w)) = w_sent w ++ before /\ exists e, fst (m E w) = Thrown e) \/
      (exists q, T q /\ w_sent (snd (m E w)) = w_sent w ++ before ++ [q]) ).

(** A submission to Reddit: a form or a JSON document sent to one of its
    two submit endpoints. *)
Definition is_submission (q : Request) : bool :=
  match body q with
  | Form _ | Json _ =>
      String.eqb (url q) Reddit.submitUrl || String.eqb (url q) Reddit.galleryUrl
  | _ => false
  end.

Definition form_field (k : string) (params : list (string * string)) : option string :=
  snd <$> List.find (fun kv => String.eqb (fst kv) k) params.

(** The field [k] of what a request submits. *)
Definition submitted (k : string) (q : Request) : Value :=
  match body q with
  | Form params => match form_field k params with Some s => VStr s | None => VUndef end
  | Json v => member v k
  | _ => VUndef
  end.

(** What every submission of a call of [postToReddit] carries. *)
Definition reddit_submission (subreddit content : string) (q : Request) : Prop :=
  is_submission q = true /\
  method q = "POST" /\
  submitted "api_type" q = VStr "json" /\
  submitted "sr" q = VStr subreddit /\
  submitted "title" q = VStr (String.substring 0 300 content).

(** The share itself: a POST to [ugcPosts]. *)
Definition is_share (q : Request) : Prop :=
  method q = "POST" /\ url q = "https://api.linkedin.com/v2/ugcPosts".

(** The number of images a share of [media] carries: LinkedIn is sent
    the first four at most. *)
Definition attached (media : Media) : nat :=
  match media with
  | MediaNull => 0
  | MediaObject hasMedia _ => if hasMedia then 1 else 0
  | MediaArray items => Nat.min 4 (length items)
  end.

(** The share of a call of [postToLinkedin]: a text share without media,
    an image share listing every attached image otherwise. *)
Definition linkedin_share (tok content : string) (media : Media) (q : Request) : Prop :=
  exists personUrn,
    if media_present media
    then exists assetUrns,
           length assetUrns = attached media /\
           q = Linkedin.shareRequest tok (Linkedin.imageShare personUrn content assetUrns)
    else q = Linkedin.shareRequest tok (Linkedin.textShare personUrn content).

(* ------------------------------------------------------------------ *)
(** *** Publishers: how many requests *)

(** [m] issues at most [n] requests, whatever the outside answers. *)
Definition sends_at_most (n : nat) {A} (m : M A) : Prop :=
  forall E w, exists reqs,
    w_sent (snd (m E w)) = w_sent w ++ reqs /\ (length reqs <= n)%nat.

(** The number of media items of a post. *)
Definition media_items (media : Media) : nat :=
  match media with
  | MediaNull => 0
  | MediaObject hasMedia _ => if hasMedia then 1 else 0
  | MediaArray items => length items
  end.

(* ------------------------------------------------------------------ *)
(** *** Parameters and headers *)

(** The value bound to [k], at its first binding. *)
Definition binding {V} (k : string) (l : list (string * V)) : option V :=
  snd <$> List.find (fun kv => String.eqb (fst kv) k) l.

(** The headers [uploadImageToLinkedin] starts from. *)
Definition default_upload_headers (tok : string) : list (string * string) :=
  [ bearer tok; ("Content-Type", "image/jpeg") ].

(* ------------------------------------------------------------------ *)
(** *** Reddit: the legacy upload helper *)

(** upload image to reddit's servers (legacy method for single image
    posts): the lease, the download and the upload of the other helpers,
    without the asset identifier. *)
Definition uploadImageToReddit (imageUrl : option string) (accessToken : string)
    : M string :=
  try_catch
    ((* step 1: get upload lease from reddit *)
     leaseResponse <- fetch (Reddit.leaseRequest accessToken) ;;
     throw_if (negb (ok leaseResponse))
       (Error ("Failed to get upload lease: "
               +:+ pretty (status_code leaseResponse))) ;;;
     leaseData <- json_of leaseResponse ;;
     uploadLease <- prop leaseData "args" ;;
     (* step 2: download image from cloudinary *)
     imageResponse <- fetch (GET (string_or_undefined imageUrl)) ;;
     throw_if (negb (ok imageResponse))
       (Error ("Failed to fetch image: " +:+ pretty (status_code imageResponse))) ;;;
     let imageBuffer := arrayBuffer imageResponse in
     (* step 3: upload image to reddit's aws *)
     fields <- prop uploadLease "fields" ;;
     form <- Reddit.lease_form fields ;;
     action <- prop uploadLease "action" ;;
     uploadResponse <- fetch (Reddit.storageRequest action form imageBuffer) ;;
     throw_if (negb (ok uploadResponse))
       (Error ("Failed to upload image: " +:+ pretty (status_code uploadResponse))) ;;;
     (* return the reddit image url *)
     ret (Reddit.storedUrl fields))
    (fun error => throw error).

(* ------------------------------------------------------------------ *)
(** *** The results a post carries *)

(** The slot [post.platformResults] receives for one result. *)
Definition stored_entry (r : TaskResult) : Stored.entry :=
  {| Stored.success := success (result r);
     Stored.postId := postId (result r);
     Stored.error := error (result r) |}.

(** Some platform of the post is recorded as a success. *)
Definition shows_a_success (p : Post) : Prop :=
  exists platform entry,
    platformResults p !! platform = Some entry /\ Stored.success entry = true.

(* ------------------------------------------------------------------ *)
(** *** The writes of one post *)

(** The message a platform is refused with when the owner's account for
    it cannot be used: no record, not connected, or no access token. *)
Definition refusal_message (u : User) (p : string) : option string :=
  match connectedAccounts u !! p with
  | None => Some (p +:+ " account not found")
  | Some a =>
      if negb (connected a) then Some (p +:+ " account not connected")
      else if present (accessToken a) then None
           else Some (p +:+ " account missing access token")
  end.

(** The first exception the writes of one post raise, if any:
    [post.save()] is made at interaction [t] and, after a successful
    attempt, the update of the owner's counter at the next one. *)
Definition write_fault (E : Env) (t : nat) (hasSuccess : bool) : option Exn :=
  match save_error E t with
  | Some e => Some e
  | None => if hasSuccess then update_error E (S t) else None
  end.

(** The interaction at which the [catch] saves the post, once a write
    made from interaction [t] on has thrown. *)
Definition recovery_at (E : Env) (t : nat) : nat :=
  match save_error E t with
  | Some _ => S t
  | None => S (S t)
  end.

(** The tweet is created and the post saved; then the counter update is
    refused, and so is every later write of the posts collection. *)
Definition failing_update_then_save (from : nat) : Env :=
  outside (answering tweet_created)
    (fun t => if Nat.leb from t
              then Some (Error "posts collection unavailable") else None)
    (fun _ => Some (Error "users collection unavailable")).

(* ------------------------------------------------------------------ *)
(** *** The [try] block of each publisher *)

Definition postToTwitter_try (content accessToken : string) (media : Media)
    (userAccount : option Account) : M PublishResult :=
  tweetData <- Twitter.prepare_tweet content media userAccount ;;
  throw_if (negb (nonempty accessToken)) (Error "No access token provided") ;;;
  response <- fetch (Twitter.tweetRequest accessToken tweetData) ;;
  (if negb (ok response)
   then throw (Error ("Twitter API error: " +:+ pretty (status_code response)
                      +:+ " - " +:+ text response))
   else ret tt) ;;;
  data <- json_of response ;;
  inner <- prop data "data" ;;
  succeeded (js_or (oprop inner "id") (VStr "unknown")) VUndef.

Definition postToReddit_try (content accessToken : string) (media : Media)
    (customSubreddit : option string) : M PublishResult :=
  let subreddit := Reddit.target customSubreddit in
  if media_present media then
    match media with
    | MediaArray (item1 :: item2 :: rest) =>
        Reddit.post_gallery content accessToken subreddit (item1 :: item2 :: rest)
    | MediaArray [item] =>
        Reddit.post_single_image content accessToken subreddit item
    | _ => Reddit.post_text_unchecked content accessToken subreddit
    end
  else Reddit.post_text content accessToken subreddit.

Definition postToLinkedin_try (content accessToken : string) (media : Media)
    : M PublishResult :=
  profileResponse <- fetch (Linkedin.profileRequest accessToken) ;;
  throw_if (negb (ok profileResponse)) (Error "Failed to get LinkedIn profile") ;;;
  profileData <- json_of profileResponse ;;
  sub <- prop profileData "sub" ;;
  let personUrn := "urn:li:person:" +:+ to_js_string sub in
  shareData <-
    (if media_present media then
       assetUrns <-
         match media with
         | MediaArray items =>
             Linkedin.upload_images (firstn 4 items) accessToken personUrn []
         | MediaObject _ item =>
             assetUrn <- Linkedin.uploadImageToLinkedin (item_source item)
                           accessToken personUrn ;;
             ret [assetUrn]
         | MediaNull => ret []
         end ;;
       ret (Linkedin.imageShare personUrn content assetUrns)
     else ret (Linkedin.textShare personUrn content)) ;;
  postResponse <- fetch (Linkedin.shareRequest accessToken shareData) ;;
  throw_if (negb (ok postResponse))
    (Error ("LinkedIn API error: " +:+ pretty (status_code postResponse))) ;;;
  postResult <- json_of postResponse ;;
  id <- prop postResult "id" ;;
  postId <- (if truthy id then ret id
             else t <- now ;; ret (VStr ("linkedin_" +:+ pretty t))) ;;
  succeeded postId VUndef.

(** [{success: false, error: <message of e>}], made at time [t]. *)
Definition captured (e : Exn) (t : Z) : PublishResult :=
  {| success := false; postId := VUndef; postUrl := VUndef;
     error := Some (message e); sentAt := t |}.

(** A publisher keeps its contract on [E] and [w]: what its [try] block
    returns it returns, a success without an error; what its [try] block
    throws it catches, and returns as a failure carrying the message. *)
Definition keeps_contract (attempt publisher : M PublishResult)
    (E : Env) (w : World) : Prop :=
  match attempt E w with
  | (Ok r, w1) =>
      publisher E w = (Ok r, w1) /\ success r = true /\ error r = None
  | (Thrown e, w1) =>
      publisher E w = (Ok (captured e (clock E (w_time w1))), advance w1)
  end.

(* ================================================================== *)
(** ** Laws of the monad *)
(* ================================================================== *)

Section MonadLaws.

Context {A B : Type}.
Implicit Types (m : M A) (f : A -> M B) (E : Env) (w : World).

Lemma bind_ret_l (a : A) f E w : bind (ret a) f E w = f a E w.
Proof. reflexivity. Qed.

Lemma bind_throw (e : Exn) f E w : bind (throw e) f E w = (Thrown e, w).
Proof. reflexivity. Qed.

Lemma bind_Ok m f E w a w1 :
  m E w = (Ok a, w1) -> bind m f E w = f a E w1.
Proof. intros H. unfold bind. now rewrite H. Qed.

Lemma bind_inv_Ok m f E w b w' :
  bind m f E w = (Ok b, w') ->
  exists a w1, m E w = (Ok a, w1) /\ f a E w1 = (Ok b, w').
Proof.
  unfold bind. destruct (m E w) as [[a|e] w1]; intros H.
  - exists a, w1. split; [reflexivity | exact H].
  - discriminate H.
Qed.

Lemma bind_oracle (g : Env -> nat -> A) f E w :
  bind (oracle g) f E w = f (g E (w_time w)) E (advance w).
Proof. reflexivity. Qed.

Lemma bind_ask (g : Env -> A) f E w : bind (ask g) f E w = f (g E) E w.
Proof. reflexivity. Qed.

End MonadLaws.

Lemma bind_throw_if {B} (c : bool) (e : Exn) (k : M B) E w :
  bind (throw_if c e) (fun _ => k) E w = if c then (Thrown e, w) else k E w.
Proof. destruct c; reflexivity. Qed.

Lemma bind_fetch {B} (q : Request) (f : Response -> M B) E w :
  bind (fetch q) f E w =
  match net E (w_time w) q with
  | NetFail e => (Thrown e, record_request q w)
  | NetReply r => f r E (record_request q w)
  end.
Proof. unfold bind, fetch. destruct (net E (w_time w) q); reflexivity. Qed.

Lemma try_catch_rethrow {A} (m : M A) E w :
  try_catch m (fun error => throw error) E w = m E w.
Proof. unfold try_catch, throw. destruct (m E w) as [[a|e] w']; reflexivity. Qed.

(* ================================================================== *)
(** ** Frame: what a computation may touch *)
(* ================================================================== *)

Section Frame.

Variable P : Request -> Prop.

Lemma extends_refl w : extends P w w.
Proof.
  split; [| split; [| split]]; try reflexivity.
  exists []. split; [now rewrite app_nil_r | constructor].
Qed.

Lemma extends_trans w1 w2 w3 :
  extends P w1 w2 -> extends P w2 w3 -> extends P w1 w3.
Proof.
  intros (Hp & Hu & Ht & r1 & Hs & F1) (Hp' & Hu' & Ht' & r2 & Hs' & F2).
  split; [congruence |]. split; [congruence |]. split; [lia |].
  exists (r1 ++ r2). split.
  - rewrite Hs', Hs. now rewrite app_assoc.
  - apply Forall_app; now split.
Qed.

Lemma extends_advance w : extends P w (advance w).
Proof.
  split; [| split; [| split]]; try reflexivity; [simpl; lia |].
  exists []. split; [simpl; now rewrite app_nil_r | constructor].
Qed.

Lemma extends_record q w : P q -> extends P w (record_request q w).
Proof.
  intros Hq. split; [| split; [| split]]; try reflexivity; [simpl; lia |].
  exists [q]. split; [reflexivity | now repeat constructor].
Qed.

Lemma sends_ret {A} (a : A) : sends_only P (ret a).
Proof. intros E w. apply extends_refl. Qed.

Lemma sends_throw {A} (e : Exn) : sends_only P (@throw A e).
Proof. intros E w. apply extends_refl. Qed.

Lemma sends_ask {A} (g : Env -> A) : sends_only P (ask g).
Proof. intros E w. apply extends_refl. Qed.

Lemma sends_oracle {A} (g : Env -> nat -> A) : sends_only P (oracle g).
Proof. intros E w. apply extends_advance. Qed.

Lemma sends_fetch (q : Request) : P q -> sends_only P (fetch q).
Proof.
  intros Hq E w. unfold fetch.
  destruct (net E (w_time w) q); now apply extends_record.
Qed.

Lemma sends_bind {A B} (m : M A) (f : A -> M B) :
  sends_only P m -> (forall a, sends_only P (f a)) -> sends_only P (bind m f).
Proof.
  intros Hm Hf E w. unfold bind. specialize (Hm E w).
  destruct (m E w) as [[a|e] w1]; simpl in Hm.
  - eapply extends_trans; [exact Hm | apply Hf].
  - exact Hm.
Qed.

Lemma sends_try_catch {A} (m : M A) (h : Exn -> M A) :
  sends_only P m -> (forall e, sends_only P (h e)) -> sends_only P (try_catch m h).
Proof.
  intros Hm Hh E w. unfold try_catch. specialize (Hm E w).
  destruct (m E w) as [[a|e] w1]; simpl in Hm.
  - exact Hm.
  - eapply extends_trans; [exact Hm | apply Hh].
Qed.

Lemma sends_settle {A} (m : M A) : sends_only P m -> sends_only P (settle m).
Proof.
  intros Hm E w. unfold settle. specialize (Hm E w).
  destruct (m E w) as [[a|e] w1]; exact Hm.
Qed.

Lemma sends_throw_if c e : sends_only P (throw_if c e).
Proof. destruct c; [apply sends_throw | apply sends_ret]. Qed.

Lemma sends_json_of r : sends_only P (json_of r).
Proof. unfold json_of. destruct (json r); [apply sends_ret | apply sends_throw]. Qed.

Lemma sends_prop v k : sends_only P (prop v k).
Proof. unfold prop. destruct (nullish v); [apply sends_throw | apply sends_ret]. Qed.

End Frame.

(** Syntax-directed proof of a frame property. *)
Ltac frame_step :=
  lazymatch goal with
  | |- sends_only _ (bind _ _) => apply sends_bind; [| intros ?]
  | |- sends_only _ (try_catch _ _) => apply sends_try_catch; [| intros ?]
  | |- sends_only _ (ret _) => apply sends_ret
  | |- sends_only _ (throw _) => apply sends_throw
  | |- sends_only _ (ask _) => apply sends_ask
  | |- sends_only _ (oracle _) => apply sends_oracle
  | |- sends_only _ now => apply sends_oracle
  | |- sends_only _ randomHex => apply sends_oracle
  | |- sends_only _ sleep => apply sends_oracle
  | |- sends_only _ (getenv _) => apply sends_ask
  | |- sends_only _ (throw_if _ _) => apply sends_throw_if
  | |- sends_only _ (json_of _) => apply sends_json_of
  | |- sends_only _ (prop _ _) => apply sends_prop
  | |- sends_only _ (settle _) => apply sends_settle
  | |- sends_only _ (fetch _) => apply sends_fetch
  | |- sends_only _ (match ?x with _ => _ end) => destruct x
  | |- sends_only _ (let _ := _ in _) => cbv zeta
  end.

Ltac frame := repeat frame_step; try exact I; eauto.

(* ================================================================== *)
(** ** The publishers leave the store alone *)
(* ================================================================== *)

Lemma sends_generateOAuthHeader P m u ps ck cs t s :
  sends_only P (Twitter.generateOAuthHeader m u ps ck cs t s).
Proof. unfold Twitter.generateOAuthHeader. frame. Qed.

Lemma sends_uploadMediaToTwitterV1 imageUrl t s :
  sends_only any_request (Twitter.uploadMediaToTwitterV1 imageUrl t s).
Proof.
  unfold Twitter.uploadMediaToTwitterV1, Twitter.uploadGifChunked,
    Twitter.uploadImageSimple.
  frame; try apply sends_generateOAuthHeader; exact I.
Qed.

Lemma sends_upload_all items t s ids :
  sends_only any_request (Twitter.upload_all items t s ids).
Proof.
  revert ids. induction items as [|item rest IH]; intros ids; simpl.
  - apply sends_ret.
  - destruct (item_source item) as [imageUrl|]; [| apply IH].
    destruct (nonempty imageUrl); [| apply IH].
    apply sends_bind; [apply sends_uploadMediaToTwitterV1 | intros mediaId; apply IH].
Qed.

Lemma sends_postToTwitter content tok media acct :
  sends_only any_request (Twitter.postToTwitter content tok media acct).
Proof.
  unfold Twitter.postToTwitter, Twitter.prepare_tweet, succeeded, failure.
  frame; try apply sends_upload_all; exact I.
Qed.

Lemma sends_lease_and_upload what item imageUrl tok :
  sends_only any_request (Reddit.lease_and_upload what item imageUrl tok).
Proof.
  assert (Hf : forall l, sends_only any_request (Reddit.append_fields l)).
  { induction l as [|f rest IH]; simpl; frame. }
  unfold Reddit.lease_and_upload, Reddit.lease_form. frame.
Qed.

Lemma sends_upload_gallery items tok acc :
  sends_only any_request (Reddit.upload_gallery items tok acc).
Proof.
  revert acc. induction items as [|item rest IH]; intros acc; simpl.
  - apply sends_ret.
  - unfold Reddit.uploadMediaForGallery. frame. apply sends_lease_and_upload.
Qed.

Lemma sends_check_api_errors result :
  sends_only any_request (Reddit.check_api_errors result).
Proof.
  unfold Reddit.check_api_errors.
  apply sends_bind; [apply sends_prop | intros j].
  apply sends_bind; [apply sends_ask | intros [|]]; frame.
Qed.

Lemma sends_postToReddit content tok media acct sub :
  sends_only any_request (Reddit.postToReddit content tok media acct sub).
Proof.
  unfold Reddit.postToReddit, Reddit.post_gallery, Reddit.post_single_image,
    Reddit.post_text, Reddit.post_text_unchecked, Reddit.uploadImageToRedditAsset,
    succeeded, failure.
  frame;
    try apply sends_upload_gallery; try apply sends_lease_and_upload;
    try apply sends_check_api_errors; exact I.
Qed.

Lemma sends_uploadImageToLinkedin imageUrl tok urn :
  sends_only any_request (Linkedin.uploadImageToLinkedin imageUrl tok urn).
Proof. unfold Linkedin.uploadImageToLinkedin. frame. Qed.

Lemma sends_upload_images items tok urn acc :
  sends_only any_request (Linkedin.upload_images items tok urn acc).
Proof.
  revert acc. induction items as [|item rest IH]; intros acc; simpl.
  - apply sends_ret.
  - apply sends_bind; [apply sends_uploadImageToLinkedin | intros a; apply IH].
Qed.

Lemma sends_postToLinkedin content tok media :
  sends_only any_request (Linkedin.postToLinkedin content tok media).
Proof.
  unfold Linkedin.postToLinkedin, succeeded, failure.
  frame;
    try apply sends_upload_images; try apply sends_uploadImageToLinkedin; exact I.
Qed.

(* ================================================================== *)
(** ** What a computation can return *)
(* ================================================================== *)

Section Returns.

Context {A : Type} (Q : A -> Prop).

Lemma returns_throw (e : Exn) : returns Q (throw e).
Proof. intros E w a w' H. discriminate H. Qed.

Lemma returns_bind {B} (m : M B) (f : B -> M A) :
  (forall b, returns Q (f b)) -> returns Q (bind m f).
Proof.
  intros Hf E w a w' H. apply bind_inv_Ok in H as (b & w1 & _ & H).
  eapply Hf, H.
Qed.

End Returns.

Lemma total_try_catch {A} (m : M A) (h : Exn -> M A) :
  (forall e, total (h e)) -> total (try_catch m h).
Proof.
  intros Hh E w. unfold try_catch.
  destruct (m E w) as [[a|e] w1]; [eauto | apply Hh].
Qed.

Lemma total_bind {A B} (m : M A) (f : A -> M B) :
  total m -> (forall a, total (f a)) -> total (bind m f).
Proof.
  intros Hm Hf E w. destruct (Hm E w) as (a & w1 & Ha).
  rewrite (bind_Ok _ _ _ _ _ _ Ha). apply Hf.
Qed.

Lemma total_ret {A} (a : A) : total (ret a).
Proof. intros E w. eauto. Qed.

Lemma total_settle {A} (m : M A) : total (settle m).
Proof. intros E w. unfold settle. destruct (m E w) as [[a|e] w1]; eauto. Qed.

Lemma total_failure e : total (failure e).
Proof. intros E w. unfold failure, now. rewrite bind_oracle. apply total_ret. Qed.

Lemma total_refusal msg : total (refusal msg).
Proof. intros E w. unfold refusal, now. rewrite bind_oracle. apply total_ret. Qed.

Lemma returns_succeeded a b : returns success_shape (succeeded a b).
Proof.
  intros E w r w' H. unfold succeeded, now in H. rewrite bind_oracle in H.
  injection H as <- _. split; reflexivity.
Qed.

Lemma returns_failure e : returns failure_shape (failure e).
Proof.
  intros E w r w' H. unfold failure, now in H. rewrite bind_oracle in H.
  injection H as <- _. repeat split. eauto.
Qed.

(** What the [catch] of a publisher makes of an exception. *)
Lemma failure_captured (m : M PublishResult) E w e w1 :
  m E w = (Thrown e, w1) ->
  try_catch m failure E w =
  (Ok {| success := false; postId := VUndef; postUrl := VUndef;
         error := Some (message e); sentAt := clock E (w_time w1) |}, advance w1).
Proof. intros H. unfold try_catch. rewrite H. reflexivity. Qed.

(** A publisher is a [try] whose [catch] is [failure]: it returns, and what
    it returns has one of the two shapes. *)
Lemma publisher_contract (body : M PublishResult) :
  returns success_shape body ->
  forall E w, exists r w', try_catch body failure E w = (Ok r, w') /\ well_shaped r.
Proof.
  intros Hbody E w.
  destruct (total_try_catch body failure total_failure E w) as (r & w' & Hr).
  exists r, w'. split; [exact Hr |].
  unfold try_catch in Hr. destruct (body E w) as [[r0|e] w1] eqn:Hb.
  - injection Hr as <- _. left. eapply Hbody, Hb.
  - right. eapply returns_failure, Hr.
Qed.

Ltac returns_step :=
  lazymatch goal with
  | |- returns _ (bind _ _) => apply returns_bind; intros ?
  | |- returns _ (throw _) => apply returns_throw
  | |- returns _ (succeeded _ _) => apply returns_succeeded
  | |- returns _ (match ?x with _ => _ end) => destruct x
  | |- returns _ (let _ := _ in _) => cbv zeta
  end.

Lemma returns_postToTwitter_body content tok media acct :
  returns success_shape
    (tweetData <- Twitter.prepare_tweet content media acct ;;
     throw_if (negb (nonempty tok)) (Error "No access token provided") ;;;
     response <- fetch (Twitter.tweetRequest tok tweetData) ;;
     (if negb (ok response)
      then throw (Error ("Twitter API error: " +:+ pretty (status_code response)
                         +:+ " - " +:+ text response))
      else ret tt) ;;;
     data <- json_of response ;;
     inner <- prop data "data" ;;
     succeeded (js_or (oprop inner "id") (VStr "unknown")) VUndef).
Proof. repeat returns_step. Qed.

Lemma returns_postToReddit_branches content tok sub :
  (forall items, returns success_shape (Reddit.post_gallery content tok sub items)) /\
  (forall item, returns success_shape (Reddit.post_single_image content tok sub item)) /\
  returns success_shape (Reddit.post_text_unchecked content tok sub) /\
  returns success_shape (Reddit.post_text content tok sub).
Proof.
  unfold Reddit.post_gallery, Reddit.post_single_image,
    Reddit.post_text_unchecked, Reddit.post_text.
  split; [| split; [| split]]; intros; repeat returns_step.
Qed.

Lemma returns_postToLinkedin_body content tok media :
  returns success_shape
    (profileResponse <- fetch (Linkedin.profileRequest tok) ;;
     throw_if (negb (ok profileResponse)) (Error "Failed to get LinkedIn profile") ;;;
     profileData <- json_of profileResponse ;;
     sub <- prop profileData "sub" ;;
     let personUrn := "urn:li:person:" +:+ to_js_string sub in
     shareData <-
       (if media_present media then
          assetUrns <-
            match media with
            | MediaArray items =>
                Linkedin.upload_images (firstn 4 items) tok personUrn []
            | MediaObject _ item =>
                assetUrn <- Linkedin.uploadImageToLinkedin (item_source item) tok personUrn ;;
                ret [assetUrn]
            | MediaNull => ret []
            end ;;
          ret (Linkedin.imageShare personUrn content assetUrns)
        else ret (Linkedin.textShare personUrn content)) ;;
     postResponse <- fetch (Linkedin.shareRequest tok shareData) ;;
     throw_if (negb (ok postResponse))
       (Error ("LinkedIn API error: " +:+ pretty (status_code postResponse))) ;;;
     postResult <- json_of postResponse ;;
     id <- prop postResult "id" ;;
     postId <- (if truthy id then ret id
                else t <- now ;; ret (VStr ("linkedin_" +:+ pretty t))) ;;
     succeeded postId VUndef).
Proof. repeat returns_step. Qed.

(* ================================================================== *)
(** ** The platform tasks of one post *)
(* ================================================================== *)

Lemma sends_refusal P msg : sends_only P (refusal msg).
Proof. unfold refusal. frame. Qed.

Lemma sends_platformTask post user p :
  sends_only any_request (platformTask post user p).
Proof.
  unfold platformTask, race_with_timer.
  apply sends_bind; [destruct user; frame | intros u].
  destruct (connectedAccounts u !! p) as [account|];
    [| apply sends_bind; [apply sends_refusal | intros; apply sends_ret]].
  destruct (negb (connected account));
    [apply sends_bind; [apply sends_refusal | intros; apply sends_ret] |].
  destruct (accessToken account) as [token|];
    [| apply sends_bind; [apply sends_refusal | intros; apply sends_ret]].
  destruct (nonempty token);
    [| apply sends_bind; [apply sends_refusal | intros; apply sends_ret]].
  apply sends_bind; [| intros; apply sends_ret].
  apply sends_try_catch; [| intros; apply sends_refusal].
  repeat lazymatch goal with
         | |- sends_only _ (match ?x with _ => _ end) => destruct x
         end;
    first [ apply sends_refusal
          | apply sends_postToLinkedin
          | apply sends_postToReddit
          | apply sends_bind;
            [apply sends_postToTwitter | intros; frame] ].
Qed.

(** With its owner loaded a task always fulfils, under its own platform. *)
Lemma platformTask_fulfils post u p E w :
  exists r w', platformTask post (Some u) p E w
               = (Ok {| platform := p; result := r |}, w').
Proof.
  unfold platformTask. rewrite bind_ret_l.
  assert (Hre : forall msg E w, exists r w',
             bind (refusal msg) (fun r => ret {| platform := p; result := r |}) E w
             = (Ok {| platform := p; result := r |}, w')).
  { intros msg E' w0. destruct (total_refusal msg E' w0) as (r & w' & Hr).
    exists r, w'. now rewrite (bind_Ok _ _ _ _ _ _ Hr). }
  destruct (connectedAccounts u !! p) as [account|]; [| apply Hre].
  destruct (negb (connected account)); [apply Hre |].
  destruct (accessToken account) as [token|]; [| apply Hre].
  destruct (nonempty token); [| apply Hre].
  match goal with
  | |- context [bind (try_catch ?m ?h)] =>
      destruct (total_try_catch m h (fun e => total_refusal (message e)) E w)
        as (r & w' & Hr)
  end.
  exists r, w'. now rewrite (bind_Ok _ _ _ _ _ _ Hr).
Qed.

(** Without its owner a task rejects before doing anything. *)
Lemma platformTask_rejects post p E w :
  platformTask post None p E w
  = (Thrown (TypeError "Cannot read properties of null (reading '_id')"), w).
Proof. reflexivity. Qed.

Lemma allSettled_total {A} (ps : list (M A)) : total (allSettled ps).
Proof.
  induction ps as [|p rest IH]; simpl.
  - apply total_ret.
  - apply total_bind; [apply total_settle | intros r].
    apply total_bind; [exact IH | intros rs; apply total_ret].
Qed.

Lemma sends_allSettled P {A} (ps : list (M A)) :
  Forall (sends_only P) ps -> sends_only P (allSettled ps).
Proof.
  induction 1 as [|p rest Hp _ IH]; simpl.
  - apply sends_ret.
  - apply sends_bind; [now apply sends_settle | intros r].
    apply sends_bind; [exact IH | intros rs; apply sends_ret].
Qed.

Lemma sends_attempts post user : sends_only any_request (attempts post user).
Proof.
  unfold attempts. apply sends_allSettled.
  induction (platforms post) as [|p rest IH]; simpl; constructor;
    [apply sends_platformTask | exact IH].
Qed.

(** With the owner loaded every attempt fulfils, in the order of
    [post.platforms] and each under its own platform. *)
Lemma attempts_fulfil post u E w :
  exists values w1,
    attempts post (Some u) E w = (Ok (map Fulfilled values), w1) /\
    map platform values = platforms post.
Proof.
  unfold attempts. generalize (platforms post) as ps. intros ps. revert w.
  induction ps as [|p rest IH]; intros w; simpl.
  - exists [], w. split; reflexivity.
  - destruct (platformTask_fulfils post u p E w) as (r & w' & Hr).
    destruct (IH w') as (values & w1 & Hv & Hp).
    exists ({| platform := p; result := r |} :: values), w1. split.
    + unfold bind at 1. unfold settle. rewrite Hr.
      unfold bind at 1. rewrite Hv. reflexivity.
    + simpl. now rewrite Hp.
Qed.

(** Without the owner every attempt rejects. *)
Lemma attempts_reject post E w :
  attempts post None E w
  = (Ok (map (fun _ => Rejected
                         (TypeError "Cannot read properties of null (reading '_id')"))
             (platforms post)), w).
Proof.
  unfold attempts. induction (platforms post) as [|p rest IH]; simpl.
  - reflexivity.
  - unfold bind at 1. unfold settle. rewrite platformTask_rejects.
    unfold bind at 1. rewrite IH. reflexivity.
Qed.

Lemma collect_all_total settled : total (collect_all settled).
Proof.
  induction settled as [|s rest IH]; simpl.
  - apply total_ret.
  - apply total_bind.
    + destruct s; simpl; [apply total_ret |].
      apply total_bind; [apply total_refusal | intros; apply total_ret].
    + intros r. apply total_bind; [exact IH | intros; apply total_ret].
Qed.

Lemma sends_collect_all P settled : sends_only P (collect_all settled).
Proof.
  induction settled as [|s rest IH]; simpl.
  - apply sends_ret.
  - apply sends_bind; [| intros r; apply sends_bind; [exact IH | intros; apply sends_ret]].
    destruct s; simpl; [apply sends_ret |].
    apply sends_bind; [apply sends_refusal | intros; apply sends_ret].
Qed.

(** What [results] holds for each settled attempt. *)
Lemma collect_all_platforms settled E w results w' :
  collect_all settled E w = (Ok results, w') ->
  map platform results
  = map (fun s => match s with
                  | Fulfilled v => platform v
                  | Rejected _ => "unknown"
                  end) settled.
Proof.
  revert w results w'.
  induction settled as [|s rest IH]; intros w results w' H; simpl in H.
  - injection H as <- _. reflexivity.
  - apply bind_inv_Ok in H as (r & w1 & Hr & H).
    apply bind_inv_Ok in H as (rs & w2 & Hrs & H).
    injection H as <- _. simpl. f_equal; [| eapply IH, Hrs].
    destruct s as [v|e]; simpl in Hr.
    + now injection Hr as <- _.
    + cbv [refusal now bind oracle ret] in Hr. now injection Hr as <- _.
Qed.

Lemma dom_results_object (results : list TaskResult) :
  dom (results_object results) = list_to_set (map platform results).
Proof.
  unfold results_object.
  enough (H : forall (obj : gmap string Stored.entry),
             dom (fold_left
                    (fun obj r =>
                       <[ platform r := {| Stored.success := success (result r);
                                           Stored.postId := postId (result r);
                                           Stored.error := error (result r) |} ]> obj)
                    results obj)
             = list_to_set (map platform results) ∪ dom obj).
  { rewrite H, dom_empty_L. apply (right_id_L ∅ (∪)). }
  induction results as [|r rest IH]; intros obj; simpl.
  - now rewrite (left_id_L ∅ (∪)).
  - rewrite IH, dom_insert_L, (assoc_L (∪)). f_equal. apply (comm_L (∪)).
Qed.

Lemma results_object_fold (results : list TaskResult) :
  results_object results
  = fold_left (fun obj r => <[ platform r := stored_entry r ]> obj) results ∅.
Proof. reflexivity. Qed.

Lemma fold_results_other (results : list TaskResult) :
  forall (obj : gmap string Stored.entry) p,
    ~ In p (map platform results) ->
    fold_left (fun obj r => <[ platform r := stored_entry r ]> obj) results obj !! p
    = obj !! p.
Proof.
  induction results as [|r rest IH]; intros obj p Hnot; simpl; [reflexivity |].
  rewrite IH by (intros Hin; apply Hnot; now right).
  apply lookup_insert_ne. intros Heq. apply Hnot. now left.
Qed.

Lemma fold_results_from (results : list TaskResult) :
  forall (obj : gmap string Stored.entry) p entry,
    fold_left (fun obj r => <[ platform r := stored_entry r ]> obj) results obj !! p
    = Some entry ->
    obj !! p = Some entry \/
    exists r, In r results /\ platform r = p /\ entry = stored_entry r.
Proof.
  induction results as [|r rest IH]; intros obj p entry H; simpl in H; [now left |].
  apply IH in H as [H | (r' & Hin & Hp & He)].
  - destruct (decide (platform r = p)) as [Heq | Hne].
    + subst p. rewrite lookup_insert_eq in H. injection H as <-.
      right. exists r. split; [now left | auto].
    + rewrite lookup_insert_ne in H by exact Hne. now left.
  - right. exists r'. split; [now right | auto].
Qed.

Lemma fold_results_holds (results : list TaskResult) :
  List.NoDup (map platform results) ->
  forall (obj : gmap string Stored.entry) r,
    In r results ->
    fold_left (fun obj r => <[ platform r := stored_entry r ]> obj) results obj
      !! platform r
    = Some (stored_entry r).
Proof.
  induction results as [|r0 rest IH]; intros Hnd obj r Hin; [destruct Hin |].
  inversion Hnd as [|? ? Hnotin Hnd']; subst. simpl.
  destruct Hin as [-> | Hin].
  - rewrite fold_results_other by exact Hnotin. apply lookup_insert_eq.
  - now apply IH.
Qed.

(* ================================================================== *)
(** ** One post, from its attempts to its final state *)
(* ================================================================== *)

Lemma in_store_post q p posts :
  In q (store_post p posts) -> q = p \/ In q posts.
Proof.
  unfold store_post.
  destruct (existsb (fun p0 => Nat.eqb (post_id p0) (post_id p)) posts).
  - intros H. apply in_map_iff in H as (x & Hx & Hin).
    destruct (Nat.eqb (post_id x) (post_id p)); [now left | right; now subst].
  - intros H. apply in_app_or in H as [H | [H | []]]; [now right | now left].
Qed.

(** The two ways an iteration ends once the post carries its results:
    everything was written, or the [catch] marked the post failed. *)
Lemma persist_cases post1 user hs count E w :
  (hs = true -> exists u, user = Some u) ->
  exists post' count' w',
    persist post1 user hs count E w = (Ok (post', count'), w') /\
    w_sent w' = w_sent w /\ (w_time w < w_time w')%nat /\
    (forall q, In q (w_posts w') ->
       In q (w_posts w) \/ q = document post1 \/ q = document post') /\
    ( (post' = post1 /\
       count' = (if hs then count + 1 else count) /\
       w_posts w' = store_post (document post1) (w_posts w) /\
       w_users w' = match user with
                    | Some u => if hs then map (inc_postsCount (user_id u)) (w_users w)
                                else w_users w
                    | None => w_users w
                    end)
      \/
      (exists e, post' = mark_failed post1 (message e) /\
                 count' = count /\
                 w_users w' = w_users w /\
                 ~ reliable_store E) ).
Proof.
  intros Huser.
  assert (Hrec : forall e w0,
             w_users w0 = w_users w -> w_sent w0 = w_sent w ->
             (w_time w < w_time w0)%nat ->
             (forall q, In q (w_posts w0) -> In q (w_posts w) \/ q = document post1) ->
             ~ reliable_store E ->
             exists post' count' w',
               recover post1 count e E w0 = (Ok (post', count'), w') /\
               w_sent w' = w_sent w /\ (w_time w < w_time w')%nat /\
               (forall q, In q (w_posts w') ->
                  In q (w_posts w) \/ q = document post1 \/ q = document post') /\
               exists e, post' = mark_failed post1 (message e) /\ count' = count /\
                         w_users w' = w_users w /\ ~ reliable_store E).
  { intros e w0 Hu Hs Ht Hp Hrel. unfold recover, bind, try_catch, save.
    destruct (save_error E (w_time w0)); simpl;
      do 3 eexists; (split; [reflexivity |]); (split; [exact Hs |]);
      (split; [simpl; lia |]); (split; [| exists e; auto]).
    - intros q Hq. destruct (Hp q Hq); auto.
    - intros q Hq. apply in_store_post in Hq as [-> | Hq]; [auto |].
      destruct (Hp q Hq); auto. }
  unfold persist, try_catch at 1. unfold bind at 1. unfold save.
  destruct (save_error E (w_time w)) as [e|] eqn:Hsave.
  - (* the first save throws *)
    destruct (Hrec e (advance w)) as (p' & c' & w' & H & Hs & Ht & Hp & Hr);
      [reflexivity | reflexivity | simpl; lia | auto |
       intros Hrel; destruct (Hrel (w_time w)); congruence |].
    exists p', c', w'. repeat (split; [assumption |]). right; exact Hr.
  - destruct hs.
    + destruct (Huser eq_refl) as (u & ->).
      unfold bind at 1. unfold incrementPostsCount. simpl w_time.
      destruct (update_error E (S (w_time w))) as [e|] eqn:Hupd.
      * (* the counter update throws *)
        match goal with
        | |- context [recover _ _ _ _ ?w0] =>
            destruct (Hrec e w0) as (p' & c' & w' & H & Hs & Ht & Hp & Hr)
        end;
          [reflexivity | reflexivity | simpl; lia
           | simpl; intros q Hq; apply in_store_post in Hq as [-> | Hq]; auto
           | intros Hrel; destruct (Hrel (S (w_time w))); congruence |].
        exists p', c', w'. repeat (split; [assumption |]). right; exact Hr.
      * do 3 eexists. split; [reflexivity |]. split; [reflexivity |]. simpl.
        split; [lia |]. split.
        -- intros q Hq. apply in_store_post in Hq as [-> | Hq]; auto.
        -- left. repeat split.
    + do 3 eexists. split; [reflexivity |]. split; [reflexivity |]. simpl.
      split; [lia |]. split.
      * intros q Hq. apply in_store_post in Hq as [-> | Hq]; auto.
      * left. repeat split. now destruct user.
Qed.

Lemma any_success_rejected {A} (f : A -> Exn) (l : list A) :
  any_success (map (fun x => Rejected (f x)) l) = false.
Proof. induction l as [|x rest IH]; simpl; [reflexivity | exact IH]. Qed.

Lemma success_needs_owner post user E w settled w1 :
  attempts post user E w = (Ok settled, w1) ->
  any_success settled = true -> exists u, user = Some u.
Proof.
  destruct user as [u|]; [eauto |].
  rewrite attempts_reject. intros H. injection H as <- _.
  rewrite (any_success_rejected (fun _ => TypeError _)). discriminate.
Qed.

(** The post as the aggregation step leaves it, before it is saved. *)
Lemma processPost_outcome post user count E w :
  exists settled w1 results w2 post' count' w',
    attempts post user E w = (Ok settled, w1) /\
    collect_all settled E w1 = (Ok results, w2) /\
    processPost post user count E w = (Ok (post', count'), w') /\
    w_posts w2 = w_posts w /\ w_users w2 = w_users w /\
    (w_time w <= w_time w2 < w_time w')%nat /\
    let hs := any_success settled in
    let post1 :=
      set_outcome post (results_object results)
        (if hs then published else failed)
        (if hs then Some (clock E (w_time w2)) else None) in
    (forall q, In q (w_posts w') ->
       In q (w_posts w) \/ q = document post1 \/ q = document post') /\
    ( (post' = post1 /\
       count' = (if hs then count + 1 else count) /\
       w_posts w' = store_post (document post1) (w_posts w) /\
       w_users w' = match user with
                    | Some u => if hs then map (inc_postsCount (user_id u)) (w_users w)
                                else w_users w
                    | None => w_users w
                    end)
      \/
      (exists e, post' = mark_failed post1 (message e) /\
                 count' = count /\
                 w_users w' = w_users w /\
                 ~ reliable_store E) ).
Proof.
  destruct (allSettled_total (map (platformTask post user) (platforms post)) E w)
    as (settled & w1 & Ha).
  fold (attempts post user) in Ha.
  destruct (collect_all_total settled E w1) as (results & w2 & Hc).
  destruct (sends_attempts post user E w) as (Hp1 & Hu1 & Ht1 & _).
  rewrite Ha in Hp1, Hu1, Ht1.
  destruct (sends_collect_all any_request settled E w1) as (Hp2 & Hu2 & Ht2 & _).
  rewrite Hc in Hp2, Hu2, Ht2. simpl in Hp1, Hu1, Ht1, Hp2, Hu2, Ht2.
  assert (Hp : w_posts w2 = w_posts w) by congruence.
  assert (Hu : w_users w2 = w_users w) by congruence.
  pose proof (success_needs_owner _ _ _ _ _ _ Ha) as Howner.
  set (hs := any_success settled) in *.
  set (w3 := if hs then advance w2 else w2).
  set (post1 := set_outcome post (results_object results)
                  (if hs then published else failed)
                  (if hs then Some (clock E (w_time w2)) else None)).
  destruct (persist_cases post1 user hs count E w3 Howner)
    as (post' & count' & w' & Hrun & _ & Ht3 & Hnew & Hcases).
  assert (Hp3 : w_posts w3 = w_posts w) by (subst w3; destruct hs; exact Hp).
  assert (Hu3 : w_users w3 = w_users w) by (subst w3; destruct hs; exact Hu).
  rewrite Hp3, Hu3 in Hcases.
  exists settled, w1, results, w2, post', count', w'.
  split; [exact Ha |]. split; [exact Hc |]. split.
  - unfold processPost, try_catch at 1.
    rewrite (bind_Ok _ _ _ _ _ _ Ha), (bind_Ok _ _ _ _ _ _ Hc). cbv zeta.
    fold hs. subst post1 w3. destruct hs.
    + cbv [bind now oracle ret]. now rewrite Hrun.
    + cbv [bind ret]. now rewrite Hrun.
  - split; [exact Hp |]. split; [exact Hu |].
    split; [subst w3; destruct hs; simpl in Ht3; lia |].
    cbv zeta. split; [| exact Hcases].
    intros q Hq. rewrite <- Hp3. auto.
Qed.

Lemma in_store_post_self p posts : In p (store_post p posts).
Proof.
  unfold store_post.
  destruct (existsb (fun p0 => Nat.eqb (post_id p0) (post_id p)) posts) eqn:Hex.
  - apply existsb_exists in Hex as (x & Hin & Hx).
    apply in_map_iff. exists x. now rewrite Hx.
  - apply in_or_app. right. now left.
Qed.

(* ================================================================== *)
(** ** Properties of the orchestrator *)
(* ================================================================== *)

Lemma store_post_twice p q posts :
  post_id p = post_id q -> store_post p (store_post q posts) = store_post p posts.
Proof.
  intros Hid. unfold store_post. rewrite Hid.
  destruct (existsb (fun p0 => Nat.eqb (post_id p0) (post_id q)) posts) eqn:Hex.
  - replace (existsb (fun p0 => Nat.eqb (post_id p0) (post_id q))
               (map (fun p0 => if Nat.eqb (post_id p0) (post_id q) then q else p0) posts))
      with true.
    + rewrite map_map. apply List.map_ext. intros x.
      destruct (Nat.eqb (post_id x) (post_id q)) eqn:Hx; [| now rewrite Hx].
      now rewrite Nat.eqb_refl.
    + symmetry. apply existsb_exists in Hex as (x & Hin & Hx).
      apply existsb_exists. exists q. split; [| apply Nat.eqb_refl].
      apply in_map_iff. exists x. now rewrite Hx.
  - rewrite existsb_app. simpl. rewrite Nat.eqb_refl, orb_true_r.
    rewrite map_app. simpl. rewrite Nat.eqb_refl. f_equal.
    rewrite <- (List.map_id posts) at 2. apply List.map_ext_in. intros x Hx.
    destruct (Nat.eqb (post_id x) (post_id q)) eqn:Heq; [| reflexivity].
    exfalso. assert (Htrue : existsb (fun p0 => Nat.eqb (post_id p0) (post_id q)) posts = true)
      by (apply existsb_exists; eauto).
    congruence.
Qed.

Lemma lookup_declared results slot :
  declared results !! slot
  = if existsb (String.eqb slot) declared_platforms then results !! slot else None.
Proof.
  unfold declared, declared_platforms. cbn [fold_right existsb].
  destruct (String.eqb_spec slot "twitter") as [-> | Ht];
    [| destruct (String.eqb_spec slot "reddit") as [-> | Hr];
       [| destruct (String.eqb_spec slot "linkedin") as [-> | Hl]]];
    cbn [orb];
    destruct (results !! "twitter"), (results !! "reddit"), (results !! "linkedin");
    repeat first [ rewrite lookup_insert_eq | rewrite lookup_insert_ne by congruence
                 | rewrite lookup_empty ];
    reflexivity.
Qed.

(** A record whose keys are all declared is written as it is. *)
Lemma declared_id results :
  (forall slot, is_Some (results !! slot) -> In slot declared_platforms) ->
  declared results = results.
Proof.
  intros Hkeys. apply map_eq. intros slot. rewrite lookup_declared.
  destruct (existsb (String.eqb slot) declared_platforms) eqn:Hex; [reflexivity |].
  destruct (results !! slot) as [entry|] eqn:Hslot; [| reflexivity].
  exfalso. assert (Hin : In slot declared_platforms) by (apply Hkeys; eauto).
  assert (Htrue : existsb (String.eqb slot) declared_platforms = true).
  { apply existsb_exists. exists slot. split; [exact Hin | apply String.eqb_refl]. }
  congruence.
Qed.

Lemma counter_inc id uid users :
  counter id (map (inc_postsCount uid) users)
  = if Nat.eqb id uid then Z.succ <$> counter id users else counter id users.
Proof.
  unfold counter. induction users as [|u rest IH]; simpl.
  - now destruct (Nat.eqb id uid).
  - replace (user_id (inc_postsCount uid u)) with (user_id u)
      by (unfold inc_postsCount; now destruct (Nat.eqb (user_id u) uid)).
    destruct (Nat.eqb (user_id u) id) eqn:Hi; [| exact IH].
    apply Nat.eqb_eq in Hi. subst id. simpl. unfold inc_postsCount.
    now destruct (Nat.eqb (user_id u) uid).
Qed.

(** The writes of one iteration, one by one: [post.save()] at interaction
    [t], the update of the counter at the next, and the save of the
    [catch] after the one that threw. *)
Lemma persist_run post1 user hs count E w :
  (hs = true -> exists u, user = Some u) ->
  let t := w_time w in
  exists post' count' w',
    persist post1 user hs count E w = (Ok (post', count'), w') /\
    w_sent w' = w_sent w /\ (w_time w < w_time w')%nat /\
    match save_error E t with
    | Some e =>
        post' = mark_failed post1 (message e) /\ count' = count /\
        w_users w' = w_users w /\
        w_posts w' = match save_error E (S t) with
                     | Some _ => w_posts w
                     | None => store_post (document post') (w_posts w)
                     end
    | None =>
        match (if hs then update_error E (S t) else None) with
        | Some e =>
            post' = mark_failed post1 (message e) /\ count' = count /\
            w_users w' = w_users w /\
            w_posts w' = match save_error E (S (S t)) with
                         | Some _ => store_post (document post1) (w_posts w)
                         | None => store_post (document post') (w_posts w)
                         end
        | None =>
            post' = post1 /\ count' = (if hs then count + 1 else count) /\
            w_posts w' = store_post (document post1) (w_posts w) /\
            w_users w' = match user with
                         | Some u =>
                             if hs then map (inc_postsCount (user_id u)) (w_users w)
                             else w_users w
                         | None => w_users w
                         end
        end
    end.
Proof.
  intros Huser. cbv zeta.
  unfold persist, try_catch at 1. unfold bind at 1. unfold save.
  destruct (save_error E (w_time w)) as [e|] eqn:Hsave.
  - unfold recover, bind, try_catch, save. cbn [w_time advance].
    destruct (save_error E (S (w_time w)));
      eexists _, _, _; (split; [reflexivity |]);
      cbn [w_time w_sent w_posts w_users advance];
      (split; [reflexivity |]); (split; [lia |]); repeat split.
  - destruct hs.
    + destruct (Huser eq_refl) as (u & ->).
      unfold bind at 1. unfold incrementPostsCount. cbn [w_time].
      destruct (update_error E (S (w_time w))) as [e|] eqn:Hupd.
      * unfold recover, bind, try_catch, save. cbn [w_time advance].
        destruct (save_error E (S (S (w_time w))));
          eexists _, _, _; (split; [reflexivity |]);
          cbn [w_time w_sent w_posts w_users advance];
          (split; [reflexivity |]); (split; [lia |]); repeat split.
        now rewrite store_post_twice.
      * eexists _, _, _. split; [reflexivity |].
        cbn [w_time w_sent w_posts w_users]. split; [reflexivity |].
        split; [lia |]. repeat split.
    + eexists _, _, _. split; [reflexivity |].
      cbn [w_time w_sent w_posts w_users]. split; [reflexivity |].
      split; [lia |]. repeat split. now destruct user.
Qed.

(** One iteration, from the attempts to the store. *)
Lemma processPost_run post user count E w :
  exists settled w1 results w2 post' count' w',
    attempts post user E w = (Ok settled, w1) /\
    collect_all settled E w1 = (Ok results, w2) /\
    processPost post user count E w = (Ok (post', count'), w') /\
    w_sent w' = w_sent w2 /\
    (w_time w <= w_time w1 <= w_time w2)%nat /\ (w_time w2 < w_time w')%nat /\
    let hs := any_success settled in
    let t := if hs then S (w_time w2) else w_time w2 in
    let post1 :=
      set_outcome post (results_object results)
        (if hs then published else failed)
        (if hs then Some (clock E (w_time w2)) else None) in
    match save_error E t with
    | Some e =>
        post' = mark_failed post1 (message e) /\ count' = count /\
        w_users w' = w_users w /\
        w_posts w' = match save_error E (S t) with
                     | Some _ => w_posts w
                     | None => store_post (document post') (w_posts w)
                     end
    | None =>
        match (if hs then update_error E (S t) else None) with
        | Some e =>
            post' = mark_failed post1 (message e) /\ count' = count /\
            w_users w' = w_users w /\
            w_posts w' = match save_error E (S (S t)) with
                         | Some _ => store_post (document post1) (w_posts w)
                         | None => store_post (document post') (w_posts w)
                         end
        | None =>
            post' = post1 /\ count' = (if hs then count + 1 else count) /\
            w_posts w' = store_post (document post1) (w_posts w) /\
            w_users w' = match user with
                         | Some u =>
                             if hs then map (inc_postsCount (user_id u)) (w_users w)
                             else w_users w
                         | None => w_users w
                         end
        end
    end.
Proof.
  destruct (allSettled_total (map (platformTask post user) (platforms post)) E w)
    as (settled & w1 & Ha).
  fold (attempts post user) in Ha.
  destruct (collect_all_total settled E w1) as (results & w2 & Hc).
  destruct (sends_attempts post user E w) as (Hp1 & Hu1 & Ht1 & _).
  rewrite Ha in Hp1, Hu1, Ht1.
  destruct (sends_collect_all any_request settled E w1) as (Hp2 & Hu2 & Ht2 & _).
  rewrite Hc in Hp2, Hu2, Ht2. simpl in Hp1, Hu1, Ht1, Hp2, Hu2, Ht2.
  assert (Hp : w_posts w2 = w_posts w) by congruence.
  assert (Hu : w_users w2 = w_users w) by congruence.
  pose proof (success_needs_owner _ _ _ _ _ _ Ha) as Howner.
  set (hs := any_success settled) in *.
  set (w3 := if hs then advance w2 else w2).
  set (post1 := set_outcome post (results_object results)
                  (if hs then published else failed)
                  (if hs then Some (clock E (w_time w2)) else None)).
  destruct (persist_run post1 user hs count E w3 Howner)
    as (post' & count' & w' & Hrun & Hs3 & Ht3 & Hcases).
  assert (Hp3 : w_posts w3 = w_posts w) by (subst w3; destruct hs; exact Hp).
  assert (Hu3 : w_users w3 = w_users w) by (subst w3; destruct hs; exact Hu).
  assert (Hs3' : w_sent w3 = w_sent w2) by (subst w3; now destruct hs).
  assert (Htime : w_time w3 = if hs then S (w_time w2) else w_time w2)
    by (subst w3; now destruct hs).
  rewrite Hp3, Hu3, Htime in Hcases.
  exists settled, w1, results, w2, post', count', w'.
  split; [exact Ha |]. split; [exact Hc |]. split.
  - unfold processPost, try_catch at 1.
    rewrite (bind_Ok _ _ _ _ _ _ Ha), (bind_Ok _ _ _ _ _ _ Hc). cbv zeta.
    fold hs. subst post1 w3. destruct hs.
    + cbv [bind now oracle ret]. now rewrite Hrun.
    + cbv [bind ret]. now rewrite Hrun.
  - split; [congruence |]. split; [lia |].
    split; [subst w3; destruct hs; simpl in Ht3; lia |].
    exact Hcases.
Qed.

Lemma store_post_replaces q p posts :
  In q (store_post p posts) -> post_id q = post_id p -> q = p.
Proof.
  unfold store_post.
  destruct (existsb (fun p0 => Nat.eqb (post_id p0) (post_id p)) posts) eqn:Hex.
  - intros Hq Hid. apply in_map_iff in Hq as (x & Hx & _).
    destruct (Nat.eqb (post_id x) (post_id p)) eqn:Heq; [now symmetry |].
    subst x. apply Nat.eqb_neq in Heq. contradiction.
  - intros Hq Hid. apply in_app_or in Hq as [Hq | [Hq | []]]; [| now symmetry].
    exfalso.
    assert (Htrue : existsb (fun p0 => Nat.eqb (post_id p0) (post_id p)) posts = true).
    { apply existsb_exists. exists q. split; [exact Hq | now apply Nat.eqb_eq]. }
    congruence.
Qed.

(** C1 (amended). For every post processed in a batch run, [publishedAt]
    is set - to the time read once the attempts are settled - if and only
    if one of the post's platform attempts succeeded.  When the writes of
    the post ([post.save()] and, after a successful attempt, the update of
    the owner's counter) raise no exception, the orchestrator leaves and
    stores the post [published] if and only if one of its attempts
    succeeded, and [failed] otherwise.  When one of those writes throws,
    the [catch] of the iteration marks the post [failed] whatever its
    attempts did, with the message of the exception as [errorMessage], and
    stores it so when its own save goes through. *)
Theorem status_follows_attempts :
  forall (E : Env) (w : World) (post : Post) (user : option User) (count : Z),
  exists settled w1 results w2 post' count' w',
    attempts post user E w = (Ok settled, w1) /\
    collect_all settled E w1 = (Ok results, w2) /\
    processPost post user count E w = (Ok (post', count'), w') /\
    (w_time w <= w_time w2 < w_time w')%nat /\
    let hasSuccess := any_success settled in
    (* the interaction at which the post is saved *)
    let t := if hasSuccess then S (w_time w2) else w_time w2 in
    publishedAt post' = (if hasSuccess then Some (clock E (w_time w2)) else None) /\
    match write_fault E t hasSuccess with
    | None =>
        status post' = (if hasSuccess then published else failed) /\
        errorMessage post' = errorMessage post /\
        w_posts w' = store_post (document post') (w_posts w)
    | Some e =>
        status post' = failed /\
        errorMessage post' = Some (message e) /\
        (save_error E (recovery_at E t) = None ->
         w_posts w' = store_post (document post') (w_posts w))
    end.
Proof.
  intros E w post user count.
  destruct (processPost_run post user count E w)
    as (settled & w1 & results & w2 & post' & count' & w'
        & Ha & Hc & Hrun & _ & Ht12 & Ht & Hcases).
  exists settled, w1, results, w2, post', count', w'.
  split; [exact Ha |]. split; [exact Hc |]. split; [exact Hrun |]. split; [lia |].
  revert Hcases. cbv zeta. unfold write_fault, recovery_at.
  destruct (any_success settled).
  - destruct (save_error E (S (w_time w2))) as [e|].
    + intros (-> & _ & _ & Hposts). cbn. repeat split.
      intros Hrec. now rewrite Hrec in Hposts.
    + destruct (update_error E (S (S (w_time w2)))) as [e|].
      * intros (-> & _ & _ & Hposts). cbn. repeat split.
        intros Hrec. now rewrite Hrec in Hposts.
      * intros (-> & _ & Hposts & _). cbn. repeat split. exact Hposts.
  - destruct (save_error E (w_time w2)) as [e|].
    + intros (-> & _ & _ & Hposts). cbn. repeat split.
      intros Hrec. now rewrite Hrec in Hposts.
    + intros (-> & _ & Hposts & _). cbn. repeat split. exact Hposts.
Qed.

Lemma status_follows_attempts_witness :
  exists post' count' w',
    processPost (draft no_media) (Some alice) 0 calm home = (Ok (post', count'), w') /\
    status post' = published /\
    publishedAt post' = Some 3000 /\
    In (document post') (w_posts w').
Proof.
  destruct (status_follows_attempts calm home (draft no_media) (Some alice) 0)
    as (settled & w1 & results & w2 & post' & count' & w'
        & Ha & Hc & Hrun & _ & H).
  vm_compute in Ha. injection Ha as <- <-.
  vm_compute in Hc. injection Hc as <- <-.
  cbv zeta in H. cbn in H. destruct H as (Hat & Hst & _ & Hposts).
  exists post', count', w'. split; [exact Hrun |]. split; [exact Hst |].
  split; [exact Hat |]. rewrite Hposts. apply in_store_post_self.
Defined.

(** C1 as stated fails when a write throws after a successful attempt:
    the tweet is created, the counter update is refused, and the [catch]
    of the iteration marks the post [failed]. *)
Lemma failed_despite_successful_attempt :
  exists settled w1 post' count' w',
    attempts (draft no_media) (Some alice) failing_update home = (Ok settled, w1) /\
    processPost (draft no_media) (Some alice) 0 failing_update home
    = (Ok (post', count'), w') /\
    any_success settled = true /\
    status post' = failed /\
    publishedAt post' <> None /\
    map status (w_posts w') = [failed].
Proof.
  do 5 eexists. split; [vm_compute; reflexivity |].
  split; [vm_compute; reflexivity |].
  split; [reflexivity |]. split; [reflexivity |]. split; [discriminate | reflexivity].
Qed.

Lemma dom_results_of_attempts post u E w settled w1 results w2 :
  attempts post (Some u) E w = (Ok settled, w1) ->
  collect_all settled E w1 = (Ok results, w2) ->
  dom (results_object results) = (list_to_set (platforms post) : gset string).
Proof.
  intros Ha Hc. rewrite dom_results_object, (collect_all_platforms _ _ _ _ _ Hc).
  destruct (attempts_fulfil post u E w) as (values & w1' & Hv & Hp).
  rewrite Hv in Ha. injection Ha as <- _.
  rewrite map_map, <- Hp. reflexivity.
Qed.

(** C2. For every post processed in a batch run - its owner loaded, its
    platforms among those the schema admits - the [platformResults]
    mapping has exactly the post's requested platforms as its key set: on
    the post the orchestrator leaves, on the document it writes for it,
    and so on every document of the collection that carries the post's
    identifier once a save of the post has gone through. *)
Theorem result_keys :
  forall (E : Env) (w : World) (post : Post) (u : User) (count : Z),
    (forall p, In p (platforms post) -> In p declared_platforms) ->
    exists settled w1 results w2 post' count' w',
      attempts post (Some u) E w = (Ok settled, w1) /\
      collect_all settled E w1 = (Ok results, w2) /\
      processPost post (Some u) count E w = (Ok (post', count'), w') /\
      let keys : gset string := list_to_set (platforms post) in
      (* the interaction at which the post is saved *)
      let t := if any_success settled then S (w_time w2) else w_time w2 in
      dom (platformResults post') = keys /\
      dom (platformResults (document post')) = keys /\
      (forall q, In q (w_posts w') ->
         In q (w_posts w) \/ dom (platformResults q) = keys) /\
      (save_error E t = None \/ save_error E (S t) = None ->
         (exists q, In q (w_posts w') /\ post_id q = post_id post) /\
         (forall q, In q (w_posts w') -> post_id q = post_id post ->
            dom (platformResults q) = keys)).
Proof.
  intros E w post u count Hschema.
  destruct (processPost_run post (Some u) count E w)
    as (settled & w1 & results & w2 & post' & count' & w'
        & Ha & Hc & Hrun & _ & _ & _ & Hcases).
  exists settled, w1, results, w2, post', count', w'.
  split; [exact Ha |]. split; [exact Hc |]. split; [exact Hrun |].
  pose proof (dom_results_of_attempts _ _ _ _ _ _ _ _ Ha Hc) as Hdom.
  assert (Hid : declared (results_object results) = results_object results).
  { apply declared_id. intros slot Hslot. apply Hschema.
    apply elem_of_dom in Hslot. rewrite Hdom in Hslot.
    apply elem_of_list_to_set in Hslot. now apply list_elem_of_In. }
  revert Hcases. cbv zeta.
  set (hs := any_success settled).
  set (t := if hs then S (w_time w2) else w_time w2).
  set (post1 := set_outcome post (results_object results)
                  (if hs then published else failed)
                  (if hs then Some (clock E (w_time w2)) else None)).
  intros Hcases.
  assert (Hdoc : forall msg q,
             q = document post1 \/ q = document (mark_failed post1 msg) ->
             post_id q = post_id post /\
             dom (platformResults q) = list_to_set (platforms post)).
  { intros msg q [-> | ->]; (split; [reflexivity |]); unfold post1;
      cbn [platformResults document mark_failed set_outcome]; now rewrite Hid. }
  assert (Hstore : forall msg q0 q,
             q0 = document post1 \/ q0 = document (mark_failed post1 msg) ->
             In q (store_post q0 (w_posts w)) ->
             In q (w_posts w) \/ dom (platformResults q) = list_to_set (platforms post)).
  { intros msg q0 q Hq0 Hq. apply in_store_post in Hq as [-> | Hq]; [right | now left].
    apply (Hdoc msg _ Hq0). }
  assert (Hall : forall msg q0,
             q0 = document post1 \/ q0 = document (mark_failed post1 msg) ->
             (exists q, In q (store_post q0 (w_posts w)) /\ post_id q = post_id post) /\
             (forall q, In q (store_post q0 (w_posts w)) -> post_id q = post_id post ->
                dom (platformResults q) = list_to_set (platforms post))).
  { intros msg q0 Hq0. destruct (Hdoc msg q0 Hq0) as (Hq0id & Hq0dom). split.
    - exists q0. split; [apply in_store_post_self | exact Hq0id].
    - intros q Hq Hqid. rewrite (store_post_replaces q q0 (w_posts w) Hq); [assumption |].
      congruence. }
  assert (Hres1 : platformResults post1 = results_object results) by reflexivity.
  destruct (save_error E t) as [e|] eqn:Hsave.
  - destruct Hcases as (-> & _ & _ & Hposts). cbn [platformResults mark_failed document].
    rewrite Hres1, Hid. split; [exact Hdom |]. split; [exact Hdom |].
    destruct (save_error E (S t)) as [e'|] eqn:Hrec; rewrite Hposts.
    + split; [now left |]. intros [H | H]; discriminate H.
    + split; [intros q; apply (Hstore (message e)); now right |].
      intros _. apply (Hall (message e)). now right.
  - destruct (if hs then update_error E (S t) else None) as [e|].
    + destruct Hcases as (-> & _ & _ & Hposts). cbn [platformResults mark_failed document].
      rewrite Hres1, Hid. split; [exact Hdom |]. split; [exact Hdom |].
      destruct (save_error E (S (S t))) as [e'|]; rewrite Hposts.
      * split; [intros q; apply (Hstore (message e)); now left |].
        intros _. apply (Hall (message e)). now left.
      * split; [intros q; apply (Hstore (message e)); now right |].
        intros _. apply (Hall (message e)). now right.
    + destruct Hcases as (-> & _ & Hposts & _). cbn [platformResults document].
      rewrite Hres1, Hid.
      split; [exact Hdom |]. split; [exact Hdom |]. rewrite Hposts.
      split; [intros q; apply (Hstore EmptyString); now left |].
      intros _. apply (Hall EmptyString). now left.
Qed.

Lemma result_keys_witness :
  exists post' count' w',
    processPost (draft no_media) (Some alice) 0 calm home = (Ok (post', count'), w') /\
    dom (platformResults post') = ({[ "twitter" ]} : gset string) /\
    forall q, In q (w_posts w') -> dom (platformResults q) = ({[ "twitter" ]} : gset string).
Proof.
  assert (Hschema : forall p, In p (platforms (draft no_media)) -> In p declared_platforms)
    by (intros p [<- | []]; now left).
  destruct (result_keys calm home (draft no_media) alice 0 Hschema)
    as (settled & w1 & results & w2 & post' & count' & w'
        & Ha & _ & Hrun & H).
  vm_compute in Ha. injection Ha as <- <-.
  cbv zeta in H. destruct H as (Hkeys & _ & _ & Hstored).
  destruct (Hstored (or_introl eq_refl)) as (_ & Hall).
  assert (Hset : (list_to_set (platforms (draft no_media)) : gset string) = {[ "twitter" ]})
    by (simpl; apply (right_id_L ∅ (∪))).
  rewrite Hset in Hkeys, Hall.
  exists post', count', w'. split; [exact Hrun |]. split; [exact Hkeys |].
  intros q Hq. apply Hall; [exact Hq |].
  clear -Hrun Hq. vm_compute in Hrun. injection Hrun as _ _ <-.
  destruct Hq as [<- | []]. reflexivity.
Defined.

Lemma platformTask_refuses post u p msg E w :
  refusal_message u p = Some msg ->
  platformTask post (Some u) p E w = refused p msg E w.
Proof.
  unfold refusal_message, platformTask. rewrite bind_ret_l.
  destruct (connectedAccounts u !! p) as [a|]; [| now intros [= <-]].
  destruct (negb (connected a)); [now intros [= <-] |].
  unfold present. destruct (accessToken a) as [token|]; [| now intros [= <-]].
  destruct (nonempty token); [discriminate | now intros [= <-]].
Qed.

(** Each attempt of a refused platform resolves to the refusal. *)
Lemma attempts_refused post u ps :
  forall E w settled w1,
    allSettled (map (platformTask post (Some u)) ps) E w = (Ok settled, w1) ->
    exists values,
      settled = map Fulfilled values /\
      Forall (fun v => forall msg,
                refusal_message u (platform v) = Some msg ->
                stored_entry v = {| Stored.success := false; Stored.postId := VUndef;
                                    Stored.error := Some msg |}) values.
Proof.
  induction ps as [|p rest IH]; intros E w settled w1 H; simpl in H.
  - injection H as <- _. exists []. split; [reflexivity | constructor].
  - apply bind_inv_Ok in H as (s & w2 & Hs & H).
    apply bind_inv_Ok in H as (ss & w3 & Hss & H). injection H as <- _.
    destruct (IH _ _ _ _ Hss) as (values & -> & Hall).
    destruct (platformTask_fulfils post u p E w) as (r & w' & Hr).
    unfold settle in Hs. rewrite Hr in Hs. injection Hs as <- _.
    exists ({| platform := p; result := r |} :: values). split; [reflexivity |].
    constructor; [| exact Hall].
    cbn [platform]. intros msg Hmsg.
    rewrite (platformTask_refuses post u p msg E w Hmsg) in Hr.
    unfold refused in Hr. now injection Hr as <- _.
Qed.

Lemma collect_all_fulfilled values E w :
  collect_all (map Fulfilled values) E w = (Ok values, w).
Proof.
  revert w. induction values as [|v rest IH]; intros w; simpl; [reflexivity |].
  rewrite bind_ret_l. unfold bind. now rewrite IH.
Qed.

(** C3. For every requested platform of a processed post, when the
    owner's account record for the platform is missing, has
    [connected = false], or has no access token, the task resolves to
    [{success: false, error: <message>}] having made no call at all, and
    that is the result the post carries for the platform; and a
    post whose only platform is twitter and whose owner's twitter account
    has [connected = false] ends [failed], with
    [platformResults.twitter = {success: false, error: 'twitter account
    not connected'}], no request sent and the users collection - hence
    the owner's counter - unchanged; this is the document stored for the
    post as soon as one of its two saves goes through. *)
Theorem unusable_account_refused :
  forall (E : Env) (w : World) (post : Post) (u : User) (p : string) (count : Z),
    (connectedAccounts u !! p = None ->
       platformTask post (Some u) p E w = refused p (p +:+ " account not found") E w) /\
    (forall a, connectedAccounts u !! p = Some a -> connected a = false ->
       platformTask post (Some u) p E w
       = refused p (p +:+ " account not connected") E w) /\
    (forall a, connectedAccounts u !! p = Some a -> connected a = true ->
       present (accessToken a) = false ->
       platformTask post (Some u) p E w
       = refused p (p +:+ " account missing access token") E w) /\
    (forall a, platforms post = ["twitter"] ->
       connectedAccounts u !! "twitter" = Some a -> connected a = false ->
       let recorded : gmap string Stored.entry :=
         {[ "twitter" := {| Stored.success := false; Stored.postId := VUndef;
                            Stored.error := Some "twitter account not connected" |} ]} in
       exists post' w',
         processPost post (Some u) count E w = (Ok (post', count), w') /\
         status post' = failed /\
         platformResults post' = recorded /\
         w_sent w' = w_sent w /\
         w_users w' = w_users w /\
         (* what is stored: the first save is made at the second interaction *)
         status (document post') = failed /\
         platformResults (document post') = recorded /\
         (save_error E (S (w_time w)) = None \/ save_error E (S (S (w_time w))) = None ->
            w_posts w' = store_post (document post') (w_posts w)) /\
         (save_error E (S (w_time w)) = None -> errorMessage post' = errorMessage post)) /\
    (forall msg, In p (platforms post) -> refusal_message u p = Some msg ->
       exists post' count' w',
         processPost post (Some u) count E w = (Ok (post', count'), w') /\
         platformResults post' !! p
         = Some {| Stored.success := false; Stored.postId := VUndef;
                   Stored.error := Some msg |}).
Proof.
  intros E w post u p count.
  assert (Hb : forall q a E w, connectedAccounts u !! q = Some a -> connected a = false ->
                 platformTask post (Some u) q E w
                 = refused q (q +:+ " account not connected") E w).
  { intros q a E' w' Ha Hc. unfold platformTask. rewrite bind_ret_l, Ha, Hc. reflexivity. }
  split; [| split; [| split; [| split]]].
  - intros Ha. unfold platformTask. rewrite bind_ret_l, Ha. reflexivity.
  - intros a. apply Hb.
  - intros a Ha Hc Ht. unfold platformTask. rewrite bind_ret_l, Ha, Hc. simpl.
    unfold present in Ht. destruct (accessToken a) as [token|]; [| reflexivity].
    now rewrite Ht.
  - intros a Hpl Ha Hc. cbv zeta.
    set (r := {| success := false; postId := VUndef; postUrl := VUndef;
                 error := Some "twitter account not connected";
                 sentAt := clock E (w_time w) |}).
    set (post1 := set_outcome post
                    (results_object [ {| platform := "twitter"; result := r |} ])
                    failed None).
    destruct (persist_run post1 (Some u) false count E (advance w))
      as (post' & count' & w' & Hrun & Hs & _ & Hcases); [discriminate |].
    cbn [w_time w_posts w_users advance] in Hcases.
    assert (Hbody : processPost post (Some u) count E w = (Ok (post', count'), w')).
    { unfold processPost, try_catch at 1, attempts. rewrite Hpl. simpl map.
      unfold allSettled, bind at 1, bind at 1, settle.
      rewrite (Hb "twitter" a E w Ha Hc). unfold refused.
      cbv [bind ret collect_all collect any_success existsb result success orb].
      lazymatch goal with
      | |- context [persist ?q ?o ?h ?c ?e ?w0] =>
          change (persist q o h c e w0)
            with (persist post1 (Some u) false count E (advance w))
      end.
      now rewrite Hrun. }
    exists post', w'.
    destruct (save_error E (S (w_time w))) as [e|] eqn:Hsave.
    + destruct Hcases as (-> & -> & Hu & Hposts).
      split; [exact Hbody |]. split; [reflexivity |]. split; [reflexivity |].
      split; [exact Hs |]. split; [exact Hu |]. split; [reflexivity |].
      split; [vm_compute; reflexivity |]. split; [| discriminate].
      intros [H | H]; [discriminate H |]. now rewrite H in Hposts.
    + destruct Hcases as (-> & -> & Hposts & Hu).
      split; [exact Hbody |]. split; [reflexivity |]. split; [reflexivity |].
      split; [exact Hs |]. split; [exact Hu |]. split; [reflexivity |].
      split; [vm_compute; reflexivity |]. split; [intros _; exact Hposts | reflexivity].
  - intros msg Hin Hmsg.
    destruct (processPost_run post (Some u) count E w)
      as (settled & w1 & results & w2 & post' & count' & w'
          & Ha & Hc & Hrun & _ & _ & _ & Hcases).
    exists post', count', w'. split; [exact Hrun |].
    assert (Hres : platformResults post' = results_object results).
    { revert Hcases. cbv zeta.
      destruct (save_error E _) as [e|];
        [| destruct (if any_success settled then _ else _) as [e|]];
        intros (-> & _); reflexivity. }
    pose proof (dom_results_of_attempts _ _ _ _ _ _ _ _ Ha Hc) as Hdom.
    destruct (attempts_refused _ _ _ _ _ _ _ Ha) as (values & -> & Hall).
    rewrite collect_all_fulfilled in Hc. injection Hc as <- _.
    assert (Hsome : is_Some (results_object values !! p)).
    { apply elem_of_dom. rewrite Hdom. apply elem_of_list_to_set.
      now apply list_elem_of_In. }
    destruct Hsome as (entry & Hentry). rewrite Hres, Hentry. f_equal.
    rewrite results_object_fold in Hentry.
    apply fold_results_from in Hentry as [Hentry | (r & Hr & Hp & ->)];
      [rewrite lookup_empty in Hentry; discriminate |].
    rewrite List.Forall_forall in Hall. apply (Hall r Hr). now rewrite Hp.
Qed.

Lemma unusable_account_refused_witness :
  platformTask (draft no_media) (Some alice_disconnected) "twitter" calm home_disconnected
  = refused "twitter" "twitter account not connected" calm home_disconnected /\
  exists post' w',
    processPost (draft no_media) (Some alice_disconnected) 0 calm home_disconnected
    = (Ok (post', 0), w') /\
    status post' = failed /\
    platformResults post'
    = {[ "twitter" := {| Stored.success := false; Stored.postId := VUndef;
                         Stored.error := Some "twitter account not connected" |} ]} /\
    w_sent w' = w_sent home_disconnected /\
    w_users w' = w_users home_disconnected /\
    w_posts w' = [post'].
Proof.
  destruct (unusable_account_refused calm home_disconnected (draft no_media)
              alice_disconnected "twitter" 0) as (_ & H2 & _ & H4 & _).
  split.
  - apply (H2 (account_of false None)); reflexivity.
  - destruct (H4 (account_of false None) eq_refl eq_refl eq_refl)
      as (post' & w' & Hrun & Hst & Hres & Hsent & Husers & _ & _ & Hposts & _).
    exists post', w'. repeat (split; [assumption |]).
    rewrite (Hposts (or_introl eq_refl)).
    clear -Hrun. vm_compute in Hrun. injection Hrun as <- _. reflexivity.
Defined.

(** C4 (amended). For every post processed in a run: a post the
    orchestrator leaves [published] has had its owner's [postsCount]
    incremented by exactly 1 - once, whatever the number of platforms that
    succeeded, and no other counter touched - and a post it leaves
    [failed] leaves the users collection unchanged.  When the writes of
    the post raise no exception this is also what the store holds.  When
    the update of the counter throws, the post has already been saved
    [published] and the counter stays as it was: the [catch] marks the
    post [failed] and saves it again, and when that save throws too the
    stored post stays [published] without any increment. *)
Theorem counter_follows_status :
  forall (E : Env) (w : World) (post : Post) (user : option User) (count : Z),
  exists settled w1 results w2 post' count' w',
    attempts post user E w = (Ok settled, w1) /\
    collect_all settled E w1 = (Ok results, w2) /\
    processPost post user count E w = (Ok (post', count'), w') /\
    let hasSuccess := any_success settled in
    (* the interaction at which the post is saved *)
    let t := if hasSuccess then S (w_time w2) else w_time w2 in
    let incremented :=
      exists u, user = Some u /\
        forall id, counter id (w_users w')
                   = if Nat.eqb id (user_id u)
                     then Z.succ <$> counter id (w_users w)
                     else counter id (w_users w) in
    (* the post as the orchestrator leaves it *)
    status post' <> scheduled /\
    (status post' = published -> incremented) /\
    (status post' = failed -> w_users w' = w_users w) /\
    (* the post as the store holds it *)
    match save_error E t with
    | Some _ =>
        (* nothing was saved before the [catch] *)
        status post' = failed /\
        w_posts w' = match save_error E (S t) with
                     | Some _ => w_posts w
                     | None => store_post (document post') (w_posts w)
                     end
    | None =>
        match (if hasSuccess then update_error E (S t) else None) with
        | None =>
            status post' = (if hasSuccess then published else failed) /\
            w_posts w' = store_post (document post') (w_posts w)
        | Some _ =>
            (* saved [published], then the counter refused *)
            status post' = failed /\
            exists saved,
              status saved = published /\ post_id saved = post_id post /\
              w_posts w' = match save_error E (S (S t)) with
                           | Some _ => store_post saved (w_posts w)
                           | None => store_post (document post') (w_posts w)
                           end
        end
    end.
Proof.
  intros E w post user count.
  destruct (processPost_run post user count E w)
    as (settled & w1 & results & w2 & post' & count' & w'
        & Ha & Hc & Hrun & _ & _ & _ & Hcases).
  exists settled, w1, results, w2, post', count', w'.
  split; [exact Ha |]. split; [exact Hc |]. split; [exact Hrun |].
  pose proof (success_needs_owner _ _ _ _ _ _ Ha) as Howner.
  revert Hcases. cbv zeta.
  destruct (any_success settled).
  - destruct (Howner eq_refl) as (u & ->).
    destruct (save_error E (S (w_time w2))) as [e|].
    + intros (-> & _ & Hu & Hposts). cbn.
      split; [discriminate |]. split; [discriminate |]. split; [auto |]. now split.
    + destruct (update_error E (S (S (w_time w2)))) as [e|].
      * intros (-> & _ & Hu & Hposts). cbn.
        split; [discriminate |]. split; [discriminate |]. split; [auto |].
        split; [reflexivity |].
        eexists. split; [| split; [| exact Hposts]]; reflexivity.
      * intros (-> & _ & Hposts & Hu). cbn.
        split; [discriminate |]. split; [| split; [discriminate | now split]].
        intros _. exists u. split; [reflexivity |].
        intros id. rewrite Hu. apply counter_inc.
  - destruct (save_error E (w_time w2)) as [e|].
    + intros (-> & _ & Hu & Hposts). cbn.
      split; [discriminate |]. split; [discriminate |]. split; [auto |]. now split.
    + intros (-> & _ & Hposts & Hu). cbn.
      split; [discriminate |]. split; [discriminate |].
      split; [intros _; now destruct user | now split].
Qed.

Lemma counter_follows_status_witness :
  exists post' count' w',
    processPost (draft no_media) (Some alice) 0 calm home = (Ok (post', count'), w') /\
    status post' = published /\
    map status (w_posts w') = [published] /\
    counter 1 (w_users home) = Some 3 /\
    counter 1 (w_users w') = Some 4.
Proof.
  destruct (counter_follows_status calm home (draft no_media) (Some alice) 0)
    as (settled & w1 & results & w2 & post' & count' & w'
        & Ha & Hc & Hrun & H).
  vm_compute in Ha. injection Ha as <- <-.
  vm_compute in Hc. injection Hc as <- <-.
  cbv zeta in H. destruct H as (_ & Hpub & _ & Hst & _).
  cbn in Hst.
  destruct (Hpub Hst) as (u & Hu & Hcount). injection Hu as <-.
  exists post', count', w'. split; [exact Hrun |]. split; [exact Hst |].
  split; [| split; [reflexivity | rewrite (Hcount 1%nat); reflexivity]].
  clear -Hrun. vm_compute in Hrun. injection Hrun as _ _ <-. reflexivity.
Defined.

(** C4 as stated fails when the counter update throws and the save of
    the [catch] throws too: the tweet is created and the post saved
    [published]; the counter is then refused, and so is the save that
    would mark the post [failed].  The store keeps a [published] post
    whose owner's counter never moved. *)
Lemma published_without_increment :
  exists report w',
    processScheduledPosts (failing_update_then_save 10) home = (Ok report, w') /\
    map status (w_posts home) = [scheduled] /\
    map status (duePosts_after report) = [failed] /\
    map status (w_posts w') = [published] /\
    counter 1 (w_users home) = Some 3 /\
    counter 1 (w_users w') = Some 3.
Proof.
  do 2 eexists. split; [vm_compute; reflexivity |].
  repeat split; reflexivity.
Qed.

(** Two successful attempts of one post still count once. *)
Example counter_once_for_two_successes :
  exists settled w1 post' count' w',
    attempts twice (Some alice) calm home = (Ok settled, w1) /\
    length (List.filter (fun s => match s with
                                  | Fulfilled v => success (result v)
                                  | Rejected _ => false
                                  end) settled) = 2%nat /\
    processPost twice (Some alice) 0 calm home = (Ok (post', count'), w') /\
    status post' = published /\
    counter 1 (w_users home) = Some 3 /\
    counter 1 (w_users w') = Some 4.
Proof.
  do 5 eexists. split; [vm_compute; reflexivity |].
  split; [reflexivity |]. split; [vm_compute; reflexivity |].
  repeat split; reflexivity.
Qed.

(* ================================================================== *)
(** ** The batch *)
(* ================================================================== *)

(** An iteration counts its post exactly when it leaves it [published]. *)
Lemma processPost_counts post user count E w :
  exists post' count' w',
    processPost post user count E w = (Ok (post', count'), w') /\
    count' = count + (if is_published post' then 1 else 0).
Proof.
  destruct (processPost_outcome post user count E w)
    as (settled & w1 & results & w2 & post' & count' & w'
        & _ & _ & Hrun & _ & _ & _ & _ & Hcases).
  cbv zeta in Hcases. exists post', count', w'. split; [exact Hrun |].
  destruct Hcases as [(-> & -> & _) | (e & -> & -> & _)].
  - unfold is_published. simpl. destruct (any_success settled); lia.
  - unfold is_published. simpl. lia.
Qed.

Lemma none_published (posts : list Post) :
  Forall (fun p => status p <> published) posts ->
  List.filter is_published posts = [].
Proof.
  induction 1 as [|p rest Hp _ IH]; simpl; [reflexivity |].
  unfold is_published at 1. now destruct (status p).
Qed.

(** The loop returns, and its count is the number of posts it leaves
    [published]. *)
Lemma process_posts_counts duePosts startTime :
  Forall (fun d => status (fst d) = scheduled) duePosts ->
  forall count E w,
  exists finals count' w',
    process_posts duePosts startTime count E w = (Ok (finals, count'), w') /\
    count' = count + Z.of_nat (length (List.filter is_published finals)).
Proof.
  induction 1 as [|[post user] rest Hpost Hrest IH]; intros count E w.
  - exists [], count, w. split; [reflexivity | simpl; lia].
  - cbn [process_posts]. unfold now. rewrite bind_oracle.
    destruct (clock E (w_time w) - startTime >? MAX_EXECUTION_TIME - 2000).
    + (* the budget is spent: the loop stops *)
      eexists _, count, _. split; [reflexivity |].
      rewrite none_published; [simpl; lia |].
      constructor; [simpl in *; rewrite Hpost; discriminate |].
      clear -Hrest. induction Hrest as [|d ds Hd _ IH]; simpl; constructor;
        [rewrite Hd; discriminate | exact IH].
    + destruct (processPost_counts post user count E (advance w))
        as (post' & c1 & w1 & Hrun & Hc1).
      destruct (IH c1 E w1) as (finals & c2 & w2 & Hloop & Hc2).
      exists (post' :: finals), c2, w2. split.
      * rewrite (bind_Ok _ _ _ _ _ _ Hrun). simpl snd.
        rewrite (bind_Ok _ _ _ _ _ _ Hloop). reflexivity.
      * simpl. destruct (is_published post'); simpl length; lia.
Qed.

Lemma in_firstn {A} (x : A) n l : In x (firstn n l) -> In x l.
Proof.
  revert l. induction n as [|n IH]; intros [|y l]; simpl; try tauto.
  intros [-> | H]; [now left | right; now apply IH].
Qed.

Lemma find_due_scheduled now_ E w duePosts w' :
  find_due now_ E w = (Ok duePosts, w') ->
  Forall (fun d => status (fst d) = scheduled) duePosts.
Proof.
  unfold find_due. destruct (find_error E (w_time w)); [discriminate |].
  intros H. injection H as <- _.
  apply List.Forall_forall. intros d Hd.
  apply in_map_iff in Hd as (p & <- & Hp). simpl.
  apply in_firstn, filter_In in Hp as (_ & Hp).
  destruct (status p); [reflexivity | discriminate | discriminate].
Qed.

(** C10 (amended). The processed count returned by a batch run equals the
    number of due posts the run leaves [published]; a post left [failed]
    is not counted, so that a run all of whose posts end [failed] reports
    [processed = 0] although it changed them. *)
Theorem processed_counts_published :
  forall (E : Env) (w : World) (report : Report) (w' : World),
    processScheduledPosts E w = (Ok report, w') ->
    processed report
    = Z.of_nat (length (List.filter is_published (duePosts_after report))) /\
    (Forall (fun p => status p = failed) (duePosts_after report) ->
     processed report = 0).
Proof.
  intros E w report w' H.
  assert (Hcount : processed report
                   = Z.of_nat (length (List.filter is_published (duePosts_after report)))).
  { unfold processScheduledPosts, now in H. rewrite bind_oracle in H.
    rewrite try_catch_rethrow in H.
    apply bind_inv_Ok in H as ([] & w1 & _ & H).
    rewrite bind_oracle in H.
    apply bind_inv_Ok in H as (duePosts & w2 & Hfind & H).
    destruct (Nat.eqb (length duePosts) 0).
    - injection H as <- _. reflexivity.
    - apply find_due_scheduled in Hfind.
      destruct (process_posts_counts duePosts (clock E (w_time w)) Hfind 0 E w2)
        as (finals & count' & w3 & Hloop & Hc).
      rewrite (bind_Ok _ _ _ _ _ _ Hloop) in H. injection H as <- _.
      simpl. lia. }
  split; [exact Hcount |].
  intros Hall. rewrite Hcount, none_published; [reflexivity |].
  eapply Forall_impl; [exact Hall |]. intros p Hp. simpl in *. rewrite Hp. discriminate.
Qed.

Lemma processed_counts_published_witness :
  exists report w',
    processScheduledPosts calm home_disconnected = (Ok report, w') /\
    map status (duePosts_after report) = [failed] /\
    w_posts w' = duePosts_after report /\
    processed report = 0.
Proof.
  assert (H : exists report w',
             processScheduledPosts calm home_disconnected = (Ok report, w') /\
             map status (duePosts_after report) = [failed] /\
             w_posts w' = duePosts_after report).
  { do 2 eexists. split; [vm_compute; reflexivity |]. split; reflexivity. }
  destruct H as (report & w' & Hrun & Hst & Hposts).
  exists report, w'. split; [exact Hrun |]. split; [exact Hst |]. split; [exact Hposts |].
  apply (processed_counts_published calm home_disconnected report w' Hrun).
  destruct (duePosts_after report) as [|p [|q rest]]; try discriminate Hst.
  injection Hst as Hp. now repeat constructor.
Defined.

(** C10 as stated fails when the writes of a post throw: its tweet was
    created, and the post carries the successful attempt, but it is not
    counted. *)
Lemma successful_attempt_not_counted :
  exists report w' post',
    processScheduledPosts failing_save home = (Ok report, w') /\
    duePosts_after report = [post'] /\
    has_successful_entry post' = true /\
    processed report = 0.
Proof.
  do 3 eexists. split; [vm_compute; reflexivity |].
  split; [reflexivity |]. split; [| reflexivity].
  apply bool_decide_eq_true. exists "twitter". eexists. split; reflexivity.
Qed.

(* ================================================================== *)
(** ** Running a publisher step by step *)
(* ================================================================== *)

Lemma bind_generateOAuthHeader {B} m u ps ck cs tok sec (f : string -> M B) E w :
  bind (Twitter.generateOAuthHeader m u ps ck cs tok sec) f E w
  = f (Twitter.oauthHeader E (clock E (w_time w)) (random_hex E (S (w_time w)))
         m u ps ck cs tok sec) E (advance (advance w)).
Proof. reflexivity. Qed.

Lemma bind_json_of {B} (r : Response) (f : Value -> M B) E w :
  bind (json_of r) f E w
  = match json r with
    | Some v => f v E w
    | None => (Thrown (SyntaxError "Unexpected token in JSON"), w)
    end.
Proof. unfold json_of. destruct (json r); reflexivity. Qed.

Lemma bind_prop {B} (v : Value) (k : string) (f : Value -> M B) E w :
  bind (prop v k) f E w
  = if nullish v
    then (Thrown (TypeError ("Cannot read properties of " +:+ to_js_string v
                             +:+ " (reading '" +:+ k +:+ "')")), w)
    else f (member v k) E w.
Proof. unfold prop. destruct (nullish v); reflexivity. Qed.

Lemma bind_bind {A B C} (m : M A) (f : A -> M B) (g : B -> M C) E w :
  bind (bind m f) g E w = bind m (fun a => bind (f a) g) E w.
Proof. unfold bind. destruct (m E w) as [[a|e] w1]; reflexivity. Qed.

(** One step of a run: the next primitive is executed. *)
Ltac run_step :=
  first [ rewrite bind_generateOAuthHeader
        | rewrite bind_fetch
        | rewrite bind_throw_if
        | rewrite bind_json_of
        | rewrite bind_prop
        | rewrite bind_ask
        | rewrite bind_oracle
        | rewrite bind_ret_l
        | rewrite bind_throw ].

(** Case analysis on what the outside answered. *)
Ltac run_case :=
  match goal with
  | |- context [match net ?E ?t ?q with _ => _ end] =>
      let H := fresh "Hnet" in destruct (net E t q) eqn:H
  | |- context [match json ?r with _ => _ end] =>
      let H := fresh "Hjson" in destruct (json r) eqn:H
  | |- context [if negb (ok ?r) then _ else _] =>
      let H := fresh "Hok" in destruct (ok r) eqn:H; cbn [negb]
  | |- context [if nullish ?v then _ else _] =>
      let H := fresh "Hnull" in destruct (nullish v) eqn:H
  end.

Ltac run_norm := cbn [w_time w_sent w_posts w_users advance record_request] in *.

Ltac run_case_truthy :=
  match goal with
  | |- context [if truthy ?v then _ else _] =>
      let H := fresh "Htruthy" in destruct (truthy v) eqn:H
  end.

Ltac run_all := repeat first [run_step; run_norm | run_case | run_case_truthy].

(** Replace the calls to the oracles by the answers already named. *)
Ltac use_replies :=
  repeat match goal with H : net _ _ _ = _ |- _ => rewrite H end;
  repeat match goal with H : json _ = _ |- _ => rewrite H end.

Ltac use_replies_in H0 :=
  repeat match goal with
         | H : net _ _ _ = _ |- _ =>
             tryif constr_eq H H0 then fail else rewrite H in H0
         | H : json _ = _ |- _ =>
             tryif constr_eq H H0 then fail else rewrite H in H0
         end.

(* ================================================================== *)
(** ** Twitter: the chunked upload of a GIF *)
(* ================================================================== *)

Ltac gif_unfold :=
  unfold gif_finalize_reply, gif_protocol, gif_finalize, gif_append, gif_media_id,
    gif_init, signed_at in *;
  cbn [Nat.add] in *.

Ltac gif_prefix k :=
  eexists _, _, k; split; [reflexivity |];
  split; [lia |];
  split; [run_norm; rewrite <- ?app_assoc; gif_unfold; use_replies; reflexivity |].

(** The polling helper cannot run unnoticed: it sleeps, then issues a GET
    on the upload endpoint with [command=STATUS]. *)
Lemma waitForProcessing_polls mediaId ck cs tok sec E w :
  exists later,
    w_sent (snd (Twitter.waitForProcessing mediaId ck cs tok sec E w))
    = w_sent w
      ++ Twitter.statusRequest E
           (Twitter.oauthHeader E (clock E (S (w_time w))) (random_hex E (S (S (w_time w))))
              "GET" Twitter.uploadUrl (Twitter.statusParams mediaId) ck cs tok sec)
           mediaId
         :: later.
Proof.
  assert (Hloop : forall n, sends_only any_request
               (Twitter.waitForProcessing_loop n mediaId ck cs tok sec)).
  { induction n as [|n IH]; cbn [Twitter.waitForProcessing_loop].
    - apply sends_throw.
    - unfold sleep. frame; try apply sends_generateOAuthHeader;
        try apply IH; exact I. }
  unfold Twitter.waitForProcessing. generalize 9%nat. intros n.
  cbn [Twitter.waitForProcessing_loop].
  unfold sleep. rewrite bind_oracle, bind_generateOAuthHeader, bind_ask, bind_fetch.
  cbn [w_time w_sent advance record_request].
  match goal with
  | |- context [match net ?E ?t ?q with _ => _ end] => destruct (net E t q) as [e|r]
  end.
  - exists []. reflexivity.
  - match goal with
    | |- context [snd (?m E ?w1)] =>
        assert (Hrest : sends_only any_request m)
          by (frame; try apply Hloop; exact I);
        destruct (Hrest E w1) as (_ & _ & _ & later & Hs & _)
    end.
    exists later. rewrite Hs. simpl. now rewrite <- app_assoc.
Qed.

(** Replace the tests on the answers by their outcomes, already named. *)
Ltac use_answers :=
  repeat first [ progress use_replies
               | progress cbv beta iota
               | match goal with
                 | H : ok _ = _ |- _ => rewrite H
                 | H : nullish _ = _ |- _ => rewrite H
                 end ].

(** C9. For every upload of an animated image the uploader performs the
    three-phase chunked protocol in order - INIT declaring the total size
    and the media category, one APPEND carrying the whole payload as a
    single base64-encoded chunk at segment index 0, then FINALIZE - and
    stops at the first phase that fails: INIT is always sent, APPEND
    exactly when INIT was answered 2xx with a JSON document, FINALIZE
    exactly when APPEND was then answered 2xx.  When it returns, it has
    made exactly these three POSTs and nine interactions in all (three
    signed requests: a clock reading, a nonce and a call each), and
    returns the media identifier INIT was answered with; it does so as
    soon as FINALIZE is answered 2xx with a JSON document, and in
    particular when that answer carries a [processing_info]: no wait, and
    no STATUS request. *)
Theorem gif_three_phase_upload :
  forall (E : Env) (w : World) (mediaBuffer : list byte)
         (mediaType mediaCategory ck cs tok sec : string),
  let protocol := gif_protocol E (w_time w) mediaBuffer mediaType mediaCategory
                    ck cs tok sec in
  let mediaId := gif_media_id E (w_time w) mediaBuffer mediaType mediaCategory
                   ck cs tok sec in
  let init_accepted :=
    gif_init_accepted E (w_time w) mediaBuffer mediaType mediaCategory ck cs tok sec in
  let append_accepted :=
    gif_append_accepted E (w_time w) mediaBuffer mediaType mediaCategory ck cs tok sec in
  map method protocol = ["POST"; "POST"; "POST"] /\
  map command protocol = [Some "INIT"; Some "APPEND"; Some "FINALIZE"] /\
  body (gif_init E (w_time w) mediaBuffer mediaType mediaCategory ck cs tok sec)
  = Form [ ("command", "INIT"); ("media_type", mediaType);
           ("total_bytes", pretty (Z.of_nat (length mediaBuffer)));
           ("media_category", mediaCategory) ] /\
  body (gif_append E (w_time w) mediaBuffer mediaType mediaCategory ck cs tok sec)
  = Form [ ("command", "APPEND"); ("media_id", to_js_string mediaId);
           ("segment_index", "0"); ("media_data", base64 E mediaBuffer) ] /\
  exists res w' k,
    Twitter.uploadGifChunked mediaBuffer mediaType mediaCategory ck cs tok sec E w
    = (res, w') /\
    (1 <= k <= 3)%nat /\
    w_sent w' = w_sent w ++ firstn k protocol /\
    (* each phase is sent exactly when the one before it went through *)
    k = (if init_accepted then if append_accepted then 3 else 2 else 1)%nat /\
    (forall v, res = Ok v ->
       k = 3%nat /\ v = mediaId /\ w_time w' = (9 + w_time w)%nat) /\
    (init_accepted = true -> append_accepted = true ->
     forall r finalizeResult,
       gif_finalize_reply E (w_time w) mediaBuffer mediaType mediaCategory ck cs tok sec
       = NetReply r ->
       ok r = true ->
       json r = Some finalizeResult ->
       (nullish finalizeResult = false ->
        res = Ok mediaId /\ w_time w' = (9 + w_time w)%nat) /\
       (truthy (member finalizeResult "processing_info") = true ->
        res = Ok mediaId /\ w_time w' = (9 + w_time w)%nat)).
Proof.
  intros E w mediaBuffer mediaType mediaCategory ck cs tok sec. cbv zeta.
  split; [reflexivity |]. split; [reflexivity |].
  split; [reflexivity |]. split; [reflexivity |].
  unfold Twitter.uploadGifChunked. run_all.
  all: first [gif_prefix 1%nat | gif_prefix 2%nat | gif_prefix 3%nat].
  all: split;
         [ unfold gif_init_accepted, gif_append_accepted; gif_unfold; use_answers;
           reflexivity |].
  all: split.
  all: try (intros ? Hres;
            first [ discriminate Hres
                  | injection Hres as <-;
                    split; [reflexivity |];
                    split; [gif_unfold; use_replies; reflexivity | reflexivity] ]).
  all: unfold gif_init_accepted, gif_append_accepted; gif_unfold; run_norm; use_answers.
  all: intros Hinit Happend.
  all: try discriminate Hinit.
  all: try discriminate Happend.
  all: intros fin fr Hreply Hfok Hfjson.
  all: use_replies_in Hreply.
  all: try discriminate Hreply.
  all: injection Hreply as <-.
  all: try congruence.
  all: match goal with
       | H1 : json ?r = Some ?a, H2 : json ?r = Some ?b |- _ =>
           assert (a = b) by congruence; subst
       end.
  all: split; [intros Hn | intros Htr].
  all: try congruence.
  all: use_replies.
  all: try (split; reflexivity).
  all: match goal with
       | Hn : nullish ?v = true, Ht : truthy (member ?v _) = true |- _ =>
           destruct v; discriminate
       end.
Qed.

(* ================================================================== *)
(** ** Twitter: media without the OAuth 1.0a pair *)
(* ================================================================== *)

Lemma lacks_legacy_pair_spec userAccount :
  lacks_legacy_pair userAccount -> Twitter.legacy_pair userAccount = None.
Proof.
  unfold lacks_legacy_pair, Twitter.legacy_pair, present.
  destruct userAccount as [a|]; [| reflexivity].
  destruct (oauth1aAccessToken a) as [t|], (oauth1aAccessTokenSecret a) as [s|];
    try reflexivity.
  intros [H | H]; rewrite H; [reflexivity | now rewrite andb_false_r].
Qed.

(** C8. For every Twitter publish call where media is requested but the
    account lacks the OAuth 1.0a pair ([oauth1aAccessToken] and
    [oauth1aAccessTokenSecret]), the publisher skips the media silently:
    it behaves exactly as on the same post without media, makes one call
    only - the tweet, whose payload is [{text}] with no media reference -
    and reports success whenever that call is answered 2xx with a JSON
    document. *)
Theorem media_skipped_without_legacy_pair :
  forall (E : Env) (w : World) (content accessToken : string) (media : Media)
         (userAccount : option Account),
    media_present media = true ->
    lacks_legacy_pair userAccount ->
    nonempty accessToken = true ->
    exists r w' tweet,
      Twitter.postToTwitter content accessToken media userAccount E w = (Ok r, w') /\
      Twitter.postToTwitter content accessToken MediaNull userAccount E w = (Ok r, w') /\
      w_sent w' = w_sent w ++ [tweet] /\
      url tweet = "https://api.twitter.com/2/tweets" /\
      body tweet = Json (VObj [ ("text", VStr content) ]) /\
      (forall reply data,
         net E (w_time w) tweet = NetReply reply ->
         ok reply = true -> json reply = Some data -> nullish data = false ->
         success r = true /\ error r = None /\
         postId r = js_or (oprop (member data "data") "id") (VStr "unknown")).
Proof.
  intros E w content tok media acct Hmedia Hpair Htok.
  apply lacks_legacy_pair_spec in Hpair.
  exists (fst (let '(r, _) := Twitter.postToTwitter content tok MediaNull acct E w in
               match r with Ok r => r | Thrown _ => {| success := false; postId := VUndef;
                 postUrl := VUndef; error := None; sentAt := 0 |} end, tt)).
  exists (snd (Twitter.postToTwitter content tok MediaNull acct E w)).
  exists (Twitter.tweetRequest tok (VObj [ ("text", VStr content) ])).
  assert (Hsame : Twitter.postToTwitter content tok media acct E w
                  = Twitter.postToTwitter content tok MediaNull acct E w).
  { unfold Twitter.postToTwitter, Twitter.prepare_tweet. now rewrite Hmedia, Hpair. }
  rewrite Hsame.
  unfold Twitter.postToTwitter, Twitter.prepare_tweet, try_catch, succeeded, failure, now.
  cbn [media_present]. rewrite bind_ret_l, Htok. cbn [negb].
  run_all; cbn [fst snd].
  all: split; [reflexivity |]; split; [reflexivity |].
  all: split; [run_norm; reflexivity |]; split; [reflexivity |]; split; [reflexivity |].
  all: intros reply data' Hreply Hrok Hrjson Hrnull; use_replies_in Hreply.
  all: try discriminate Hreply; injection Hreply as <-.
  all: try congruence.
  all: match goal with
       | H1 : json ?r = Some ?a, H2 : json ?r = Some ?b |- _ =>
           assert (a = b) by congruence; subst
       end.
  all: try congruence.
  all: now repeat split.
Qed.

(* ================================================================== *)
(** ** Reddit: the calls of each branch *)
(* ================================================================== *)

Lemma append_fields_pure fields E w :
  exists res,
    Reddit.append_fields fields E w = (res, w) /\
    forall form, res = Ok form -> form = form_of fields.
Proof.
  induction fields as [|f rest IH]; cbn [Reddit.append_fields].
  - exists (Ok []). split; [reflexivity |]. intros form H. now injection H as <-.
  - destruct IH as (res & Hres & Hform).
    rewrite !bind_prop. destruct (nullish f).
    + eexists. split; [reflexivity | discriminate].
    + unfold bind at 1. rewrite Hres. destruct res as [more|e].
      * eexists. split; [reflexivity |]. intros form H. injection H as <-.
        simpl. f_equal. now apply Hform.
      * eexists. split; [reflexivity | discriminate].
Qed.

Lemma lease_form_pure fields E w :
  exists res,
    Reddit.lease_form fields E w = (res, w) /\
    forall form, res = Ok form ->
                 form = match fields with VArr l => form_of l | _ => [] end.
Proof.
  destruct fields; try (eexists; split; [reflexivity | discriminate]).
  apply append_fields_pure.
Qed.

Ltac upload_unfold :=
  unfold upload_steps, lease_form_at, lease_action, lease_fields, image_at, lease_at in *;
  cbn [Nat.add] in *.

Ltac upload_prefix k :=
  eexists _, _, k; split; [reflexivity |];
  split; [lia |];
  split; [run_norm; rewrite <- ?app_assoc; upload_unfold; use_replies; reflexivity |].

Lemma lease_and_upload_steps what item imageUrl tok E w :
  exists res w' k,
    Reddit.lease_and_upload what item imageUrl tok E w = (res, w') /\
    (1 <= k <= 3)%nat /\
    w_sent w' = w_sent w ++ firstn k (upload_steps E (w_time w) imageUrl tok) /\
    (forall lease, res = Ok lease ->
       k = 3%nat /\ lease = lease_at E (w_time w) tok /\ nullish lease = false /\
       w_time w' = (3 + w_time w)%nat).
Proof.
  unfold Reddit.lease_and_upload. run_all.
  all: try match goal with
       | |- context [bind (Reddit.lease_form ?f) ?k ?E ?w1] =>
           destruct (lease_form_pure f E w1) as (lf & Hlf & Hform);
           unfold bind at 1; rewrite Hlf; clear Hlf; destruct lf as [form|e];
           [specialize (Hform form eq_refl); subst form | clear Hform]
       end.
  all: run_all.
  all: first [upload_prefix 1%nat | upload_prefix 2%nat | upload_prefix 3%nat].
  all: intros ? Hres;
       first [ discriminate Hres
             | injection Hres as <-;
               split; [reflexivity |];
               split; [upload_unfold; use_replies; reflexivity |];
               split; [assumption | reflexivity] ].
Qed.


Lemma firstn_app_le {A} k (l1 l2 : list A) :
  (k <= length l1)%nat -> firstn k (l1 ++ l2) = firstn k l1.
Proof.
  intros H. rewrite firstn_app.
  replace (k - length l1)%nat with 0%nat by lia. simpl. apply app_nil_r.
Qed.

Lemma firstn_app_ge {A} k (l1 l2 : list A) :
  firstn (length l1 + k) (l1 ++ l2) = l1 ++ firstn k l2.
Proof.
  rewrite firstn_app. rewrite firstn_all2 by lia. f_equal. f_equal. lia.
Qed.

Lemma uploadMediaForGallery_steps imageUrl tok E w :
  exists res w' k,
    Reddit.uploadMediaForGallery imageUrl tok E w = (res, w') /\
    (1 <= k <= 3)%nat /\
    w_sent w' = w_sent w ++ firstn k (upload_steps E (w_time w) imageUrl tok) /\
    (forall mediaId, res = Ok mediaId ->
       k = 3%nat /\ mediaId = Reddit.asset_id (lease_at E (w_time w) tok) /\
       w_time w' = (3 + w_time w)%nat).
Proof.
  unfold Reddit.uploadMediaForGallery. rewrite try_catch_rethrow.
  destruct (lease_and_upload_steps "gallery " "gallery image" imageUrl tok E w)
    as (res & w' & k & Hrun & Hk & Hs & Hok).
  unfold bind. rewrite Hrun. destruct res as [lease|e].
  - destruct (Hok lease eq_refl) as (-> & -> & _ & Ht).
    eexists _, _, 3%nat. split; [reflexivity |]. split; [lia |]. split; [exact Hs |].
    intros mediaId H. injection H as <-. auto.
  - exists (Thrown e), w', k. split; [reflexivity |]. split; [exact Hk |].
    split; [exact Hs | discriminate].
Qed.

Lemma upload_gallery_steps items tok :
  forall acc E w,
  exists res w' k,
    Reddit.upload_gallery items tok acc E w = (res, w') /\
    (k <= 3 * length items)%nat /\
    w_sent w' = w_sent w ++ firstn k (gallery_uploads E (w_time w) items tok) /\
    (forall galleryItems, res = Ok galleryItems ->
       k = (3 * length items)%nat /\
       galleryItems = acc ++ gallery_items E (w_time w) items tok /\
       w_time w' = (3 * length items + w_time w)%nat).
Proof.
  induction items as [|item rest IH]; intros acc E w.
  - exists (Ok acc), w, 0%nat. split; [reflexivity |]. split; [simpl; lia |].
    split; [simpl; now rewrite app_nil_r |].
    intros gi H. injection H as <-. simpl. now rewrite app_nil_r.
  - cbn [Reddit.upload_gallery gallery_uploads gallery_items].
    destruct (uploadMediaForGallery_steps (cloudinaryUrl item) tok E w)
      as (res & w1 & k1 & Hrun & Hk1 & Hs1 & Hok1).
    unfold bind at 1. rewrite Hrun. destruct res as [mediaId|e].
    + destruct (Hok1 mediaId eq_refl) as (-> & -> & Ht1).
      destruct (IH (acc ++ [Reddit.galleryItem
                              (Reddit.asset_id (lease_at E (w_time w) tok))]) E w1)
        as (res & w2 & k2 & Hrun2 & Hk2 & Hs2 & Hok2).
      rewrite Ht1 in Hs2, Hok2.
      exists res, w2, (3 + k2)%nat. split; [exact Hrun2 |].
      split; [simpl length; lia |]. split.
      * rewrite Hs2, Hs1. rewrite <- app_assoc. reflexivity.
      * intros gi Hgi. destruct (Hok2 gi Hgi) as (-> & -> & Ht2).
        split; [simpl length; lia |]. split; [now rewrite <- app_assoc |].
        rewrite Ht2. simpl length. lia.
    + exists (Thrown e), w1, k1. split; [reflexivity |]. split; [simpl length; lia |].
      split; [| discriminate].
      rewrite Hs1. f_equal. symmetry. apply firstn_app_le. simpl. lia.
Qed.

Ltac run_case_bool :=
  match goal with
  | |- context [if ?b then _ else _] =>
      let H := fresh "Hb" in destruct b eqn:H
  end.

Ltac run_pub :=
  repeat first [rewrite bind_bind | run_step; run_norm
               | run_case | run_case_truthy | run_case_bool].

(** What the [try]/[catch] of a publisher adds to its body. *)
Lemma publisher_wrap (body : M PublishResult) E w res w1 :
  body E w = (res, w1) ->
  exists r w',
    try_catch body failure E w = (Ok r, w') /\
    w_sent w' = w_sent w1 /\
    (forall r0, res = Ok r0 -> r = r0) /\
    (forall e, res = Thrown e -> success r = false /\ error r = Some (message e)).
Proof.
  intros H. unfold try_catch. rewrite H. destruct res as [r0|e].
  - exists r0, w1. repeat split; try discriminate. intros r1 H1. now injection H1.
  - eexists _, _. split; [reflexivity |]. split; [reflexivity |].
    split; [discriminate |]. intros e' H'. injection H' as <-. now split.
Qed.

Lemma post_text_requests content tok sub E w :
  exists res w',
    Reddit.post_text content tok sub E w = (res, w') /\
    w_sent w' = w_sent w ++ [Reddit.submitRequest tok (Reddit.selfPost sub content)].
Proof.
  unfold Reddit.post_text, Reddit.check_api_errors, succeeded, now.
  run_pub; eexists _, _; split; reflexivity.
Qed.

Lemma bind_try_catch_rethrow {A B} (m : M A) (f : A -> M B) E w :
  bind (try_catch m (fun error => throw error)) f E w = bind m f E w.
Proof. unfold bind. now rewrite try_catch_rethrow. Qed.

Lemma post_single_image_requests content tok sub item E w :
  let expected := single_image_requests E (w_time w) item tok sub content in
  exists res w' k,
    Reddit.post_single_image content tok sub item E w = (res, w') /\
    (1 <= k)%nat /\
    w_sent w' = w_sent w ++ firstn k expected /\
    (forall r, res = Ok r -> w_sent w' = w_sent w ++ expected).
Proof.
  cbv zeta. unfold Reddit.post_single_image, Reddit.uploadImageToRedditAsset,
    single_image_requests.
  rewrite bind_try_catch_rethrow.
  destruct (lease_and_upload_steps "asset " "image" (cloudinaryUrl item) tok E w)
    as (res & w1 & k1 & Hrun & Hk1 & Hs1 & Hok1).
  rewrite bind_bind. unfold bind at 1. rewrite Hrun. destruct res as [lease|e].
  - destruct (Hok1 lease eq_refl) as (-> & -> & _ & Ht1).
    assert (Hall : forall res w',
               w_sent w' = w_sent w1
                           ++ [Reddit.submitRequest tok
                                 (Reddit.imagePost sub content
                                    (Reddit.storedUrl (lease_fields E (w_time w) tok)))] ->
               exists k, (1 <= k)%nat /\
                 w_sent w' = w_sent w ++ firstn k
                   (upload_steps E (w_time w) (cloudinaryUrl item) tok
                    ++ [Reddit.submitRequest tok
                          (Reddit.imagePost sub content
                             (Reddit.storedUrl (lease_fields E (w_time w) tok)))]) /\
                 (forall r : PublishResult, res = Ok r ->
                    w_sent w' = w_sent w
                      ++ upload_steps E (w_time w) (cloudinaryUrl item) tok
                      ++ [Reddit.submitRequest tok
                            (Reddit.imagePost sub content
                               (Reddit.storedUrl (lease_fields E (w_time w) tok)))])).
    { intros res w' ->. exists 4%nat. split; [lia |]. rewrite Hs1, <- app_assoc.
      split; [reflexivity | intros; reflexivity]. }
    rewrite bind_ret_l. cbn [snd].
    unfold Reddit.check_api_errors, succeeded, now.
    run_pub.
    all: cbv [ret].
    all: match goal with
         | |- context [@pair (Res PublishResult) World ?a ?b] =>
             destruct (Hall a b) as (k & Hk & Hs & Hfull);
             [run_norm; reflexivity | exists a, b, k; split; [reflexivity |]; auto]
         end.
  - exists (Thrown e), w1, k1. split; [reflexivity |]. split; [lia |].
    split; [| discriminate].
    rewrite Hs1. f_equal. symmetry. apply firstn_app_le. simpl. lia.
Qed.

Lemma length_gallery_uploads E items tok :
  forall t, length (gallery_uploads E t items tok) = (3 * length items)%nat.
Proof.
  induction items as [|i rest IH]; intros t.
  - reflexivity.
  - cbn [gallery_uploads]. rewrite length_app, IH. simpl. lia.
Qed.

Lemma post_gallery_requests content tok sub items E w :
  let expected := gallery_requests E (w_time w) items tok sub content in
  exists res w' k,
    Reddit.post_gallery content tok sub items E w = (res, w') /\
    w_sent w' = w_sent w ++ firstn k expected /\
    (forall r, res = Ok r -> w_sent w' = w_sent w ++ expected).
Proof.
  cbv zeta. unfold Reddit.post_gallery, gallery_requests.
  destruct (upload_gallery_steps items tok [] E w)
    as (res & w1 & k1 & Hrun & Hk1 & Hs1 & Hok1).
  unfold bind at 1. rewrite Hrun. destruct res as [galleryItems|e].
  - destruct (Hok1 galleryItems eq_refl) as (-> & -> & Ht1). cbn [app] in *.
    set (submit := Reddit.galleryRequest tok
                     (Reddit.galleryPost sub content
                        (gallery_items E (w_time w) items tok))) in *.
    pose proof (length_gallery_uploads E items tok (w_time w)) as Hlen.
    assert (Hall : forall (res : Res PublishResult) w',
               w_sent w' = w_sent w1 ++ [submit] ->
               exists k,
                 w_sent w' = w_sent w
                   ++ firstn k (gallery_uploads E (w_time w) items tok ++ [submit]) /\
                 (forall r : PublishResult, res = Ok r ->
                    w_sent w' = w_sent w
                      ++ gallery_uploads E (w_time w) items tok ++ [submit])).
    { intros res w' ->. exists (3 * length items + 1)%nat.
      rewrite Hs1, <- app_assoc, <- Hlen.
      rewrite firstn_all. rewrite firstn_app_ge. simpl firstn.
      split; [reflexivity | intros; reflexivity]. }
    unfold Reddit.check_api_errors, succeeded, now.
    run_pub.
    all: cbv [ret].
    all: match goal with
         | |- context [@pair (Res PublishResult) World ?a ?b] =>
             destruct (Hall a b) as (k & Hs & Hfull);
             [run_norm; reflexivity | exists a, b, k; split; [reflexivity |]; auto]
         end.
  - exists (Thrown e), w1, k1. split; [reflexivity |].
    split; [| discriminate].
    rewrite Hs1. f_equal. symmetry. apply firstn_app_le.
    rewrite length_gallery_uploads. exact Hk1.
Qed.

Lemma append_fields_run fields E w :
  exists res,
    Reddit.append_fields fields E w = (res, w) /\
    match res with
    | Ok form => forallb (fun f => negb (nullish f)) fields = true /\ form = form_of fields
    | Thrown _ => forallb (fun f => negb (nullish f)) fields = false
    end.
Proof.
  induction fields as [|f rest IH]; cbn [Reddit.append_fields forallb].
  - exists (Ok []). split; [reflexivity | now split].
  - destruct IH as (res & Hres & Hform).
    rewrite !bind_prop. destruct (nullish f).
    + eexists. split; [reflexivity | reflexivity].
    + unfold bind at 1. rewrite Hres. destruct res as [more|e].
      * eexists. split; [reflexivity |]. destruct Hform as (-> & ->). now split.
      * eexists. split; [reflexivity | exact Hform].
Qed.

Lemma lease_form_run fields E w :
  let usable := match fields with
                | VArr l => forallb (fun f => negb (nullish f)) l
                | _ => false
                end in
  exists res,
    Reddit.lease_form fields E w = (res, w) /\
    match res with
    | Ok form =>
        usable = true /\ form = match fields with VArr l => form_of l | _ => [] end
    | Thrown _ => usable = false
    end.
Proof.
  cbv zeta. destruct fields; try (eexists; split; [reflexivity | reflexivity]).
  apply append_fields_run.
Qed.

Ltac upload_count :=
  unfold upload_made, upload_done, lease_granted, image_fetched, lease_usable,
    image_stored;
  upload_unfold; use_answers.

(** One upload, request by request. *)
Lemma lease_and_upload_made what item imageUrl tok E w :
  exists res w',
    Reddit.lease_and_upload what item imageUrl tok E w = (res, w') /\
    w_sent w' = w_sent w
                ++ firstn (upload_made E (w_time w) imageUrl tok)
                     (upload_steps E (w_time w) imageUrl tok) /\
    match res with
    | Ok lease =>
        upload_done E (w_time w) imageUrl tok = true /\
        lease = lease_at E (w_time w) tok /\
        w_time w' = (3 + w_time w)%nat
    | Thrown _ => upload_done E (w_time w) imageUrl tok = false
    end.
Proof.
  unfold Reddit.lease_and_upload. run_all.
  all: try match goal with
       | |- context [bind (Reddit.lease_form ?f) ?k ?E ?w1] =>
           destruct (lease_form_run f E w1) as (lf & Hlf & Hform);
           unfold bind at 1; rewrite Hlf; clear Hlf; destruct lf as [form|e];
           [destruct Hform as (Husable & ->) | rename Hform into Husable]
       end.
  all: run_all.
  all: eexists _, _; split; [reflexivity |].
  all: split;
         [ run_norm; rewrite <- ?app_assoc; upload_count; rewrite ?Husable;
           cbn [andb negb firstn]; upload_unfold; use_replies; reflexivity |].
  all: try (split; [| split; [upload_unfold; use_replies; reflexivity | reflexivity]]).
  all: upload_count; rewrite ?Husable; cbn [andb negb]; try reflexivity.
  all: rewrite ?andb_false_r; reflexivity.
Qed.

Lemma upload_done_made E t imageUrl tok :
  upload_done E t imageUrl tok = true -> upload_made E t imageUrl tok = 3%nat.
Proof.
  unfold upload_done, upload_made. intros H.
  apply andb_true_iff in H as (H & _). apply andb_true_iff in H as (H & Hu).
  apply andb_true_iff in H as (-> & ->). now rewrite Hu.
Qed.

Lemma upload_made_bounds E t imageUrl tok :
  (1 <= upload_made E t imageUrl tok <= 3)%nat.
Proof.
  unfold upload_made.
  destruct (lease_granted E t tok); [| lia].
  destruct (image_fetched E t imageUrl && lease_usable E t tok)%bool; lia.
Qed.

Lemma uploadMediaForGallery_made imageUrl tok E w :
  exists res w',
    Reddit.uploadMediaForGallery imageUrl tok E w = (res, w') /\
    w_sent w' = w_sent w
                ++ firstn (upload_made E (w_time w) imageUrl tok)
                     (upload_steps E (w_time w) imageUrl tok) /\
    match res with
    | Ok mediaId =>
        upload_done E (w_time w) imageUrl tok = true /\
        mediaId = Reddit.asset_id (lease_at E (w_time w) tok) /\
        w_time w' = (3 + w_time w)%nat
    | Thrown _ => upload_done E (w_time w) imageUrl tok = false
    end.
Proof.
  unfold Reddit.uploadMediaForGallery. rewrite try_catch_rethrow.
  destruct (lease_and_upload_made "gallery " "gallery image" imageUrl tok E w)
    as (res & w' & Hrun & Hs & Hres).
  unfold bind. rewrite Hrun. destruct res as [lease|e].
  - destruct Hres as (Hdone & -> & Ht).
    eexists _, _. split; [reflexivity |]. split; [exact Hs |]. now repeat split.
  - exists (Thrown e), w'. split; [reflexivity |]. now split.
Qed.

Lemma gallery_made_bounds E items tok :
  forall t, (gallery_made E t items tok <= 3 * length items)%nat /\
            (items <> [] -> 1 <= gallery_made E t items tok)%nat.
Proof.
  induction items as [|item rest IH]; intros t; cbn [gallery_made length].
  - split; [lia | congruence].
  - pose proof (upload_made_bounds E t (cloudinaryUrl item) tok).
    destruct (IH (3 + t)%nat) as (Hle & _).
    destruct (upload_done E t (cloudinaryUrl item) tok); split; intros; lia.
Qed.

(** The uploads of a gallery, request by request. *)
Lemma upload_gallery_made items tok :
  forall acc E w,
  exists res w',
    Reddit.upload_gallery items tok acc E w = (res, w') /\
    w_sent w' = w_sent w
                ++ firstn (gallery_made E (w_time w) items tok)
                     (gallery_uploads E (w_time w) items tok) /\
    match res with
    | Ok galleryItems =>
        gallery_done E (w_time w) items tok = true /\
        gallery_made E (w_time w) items tok = (3 * length items)%nat /\
        galleryItems = acc ++ gallery_items E (w_time w) items tok /\
        w_time w' = (3 * length items + w_time w)%nat
    | Thrown _ => gallery_done E (w_time w) items tok = false
    end.
Proof.
  induction items as [|item rest IH]; intros acc E w.
  - exists (Ok acc), w. split; [reflexivity |].
    split; [simpl; now rewrite app_nil_r |].
    repeat split. simpl. now rewrite app_nil_r.
  - cbn [Reddit.upload_gallery gallery_uploads gallery_items gallery_made gallery_done].
    destruct (uploadMediaForGallery_made (cloudinaryUrl item) tok E w)
      as (res & w1 & Hrun & Hs1 & Hres).
    unfold bind at 1. rewrite Hrun. destruct res as [mediaId|e].
    + destruct Hres as (Hdone & -> & Ht1).
      rewrite Hdone, (upload_done_made _ _ _ _ Hdone) in *.
      destruct (IH (acc ++ [Reddit.galleryItem
                              (Reddit.asset_id (lease_at E (w_time w) tok))]) E w1)
        as (res & w2 & Hrun2 & Hs2 & Hres2).
      rewrite Ht1 in Hs2, Hres2.
      exists res, w2. split; [exact Hrun2 |]. split.
      * rewrite Hs2, Hs1. rewrite <- app_assoc. reflexivity.
      * destruct res as [galleryItems|e].
        -- destruct Hres2 as (Hd2 & Hm2 & -> & Ht2).
           split; [now rewrite Hd2 |]. split; [rewrite Hm2; simpl length; lia |].
           split; [now rewrite <- app_assoc |]. rewrite Ht2. simpl length. lia.
        -- now rewrite Hres2.
    + rewrite Hres. exists (Thrown e), w1. split; [reflexivity |].
      split; [| reflexivity].
      rewrite Hs1. f_equal. symmetry. apply firstn_app_le.
      pose proof (upload_made_bounds E (w_time w) (cloudinaryUrl item) tok).
      simpl. lia.
Qed.

(** The single-image branch, request by request. *)
Lemma post_single_image_made content tok sub item E w :
  let expected := single_image_requests E (w_time w) item tok sub content in
  let made := if upload_done E (w_time w) (cloudinaryUrl item) tok
              then 4%nat
              else upload_made E (w_time w) (cloudinaryUrl item) tok in
  exists res w',
    Reddit.post_single_image content tok sub item E w = (res, w') /\
    w_sent w' = w_sent w ++ firstn made expected.
Proof.
  cbv zeta. unfold Reddit.post_single_image, Reddit.uploadImageToRedditAsset,
    single_image_requests.
  rewrite bind_try_catch_rethrow.
  destruct (lease_and_upload_made "asset " "image" (cloudinaryUrl item) tok E w)
    as (res & w1 & Hrun & Hs1 & Hres).
  rewrite bind_bind. unfold bind at 1. rewrite Hrun. destruct res as [lease|e].
  - destruct Hres as (Hdone & -> & Ht1).
    rewrite Hdone, (upload_done_made _ _ _ _ Hdone) in *.
    assert (Hall : forall (res : Res PublishResult) w',
               w_sent w' = w_sent w1
                           ++ [Reddit.submitRequest tok
                                 (Reddit.imagePost sub content
                                    (Reddit.storedUrl (lease_fields E (w_time w) tok)))] ->
               w_sent w' = w_sent w ++ firstn 4
                   (upload_steps E (w_time w) (cloudinaryUrl item) tok
                    ++ [Reddit.submitRequest tok
                          (Reddit.imagePost sub content
                             (Reddit.storedUrl (lease_fields E (w_time w) tok)))])).
    { intros res w' ->. rewrite Hs1, <- app_assoc. reflexivity. }
    rewrite bind_ret_l. cbn [snd].
    unfold Reddit.check_api_errors, succeeded, now.
    run_pub.
    all: cbv [ret].
    all: match goal with
         | |- context [@pair (Res PublishResult) World ?a ?b] =>
             exists a, b; split; [reflexivity |]; apply (Hall a b);
             run_norm; reflexivity
         end.
  - rewrite Hres. exists (Thrown e), w1. split; [reflexivity |].
    rewrite Hs1. f_equal. symmetry. apply firstn_app_le.
    pose proof (upload_made_bounds E (w_time w) (cloudinaryUrl item) tok).
    simpl. lia.
Qed.

(** The gallery branch, request by request. *)
Lemma post_gallery_made content tok sub items E w :
  let expected := gallery_requests E (w_time w) items tok sub content in
  let made := if gallery_done E (w_time w) items tok
              then (3 * length items + 1)%nat
              else gallery_made E (w_time w) items tok in
  exists res w',
    Reddit.post_gallery content tok sub items E w = (res, w') /\
    w_sent w' = w_sent w ++ firstn made expected.
Proof.
  cbv zeta. unfold Reddit.post_gallery, gallery_requests.
  destruct (upload_gallery_made items tok [] E w)
    as (res & w1 & Hrun & Hs1 & Hres).
  unfold bind at 1. rewrite Hrun. destruct res as [galleryItems|e].
  - destruct Hres as (Hdone & Hmade & -> & Ht1). cbn [app] in *.
    rewrite Hdone. rewrite Hmade in Hs1.
    set (submit := Reddit.galleryRequest tok
                     (Reddit.galleryPost sub content
                        (gallery_items E (w_time w) items tok))) in *.
    pose proof (length_gallery_uploads E items tok (w_time w)) as Hlen.
    assert (Hall : forall (res : Res PublishResult) w',
               w_sent w' = w_sent w1 ++ [submit] ->
               w_sent w' = w_sent w
                 ++ firstn (3 * length items + 1)
                      (gallery_uploads E (w_time w) items tok ++ [submit])).
    { intros res w' ->. rewrite Hs1, <- app_assoc, <- Hlen.
      rewrite firstn_all. rewrite firstn_app_ge. reflexivity. }
    unfold Reddit.check_api_errors, succeeded, now.
    run_pub.
    all: cbv [ret].
    all: match goal with
         | |- context [@pair (Res PublishResult) World ?a ?b] =>
             exists a, b; split; [reflexivity |]; apply (Hall a b);
             run_norm; reflexivity
         end.
  - rewrite Hres. exists (Thrown e), w1. split; [reflexivity |].
    rewrite Hs1. f_equal. symmetry. apply firstn_app_le.
    rewrite length_gallery_uploads. apply gallery_made_bounds.
Qed.

(** C6 (amended). For every call to the Reddit publisher with media that is
    absent, [{hasMedia: false}] or an array: with 0 media items it makes
    one call, the submission of a self (text) post; with an array of
    exactly 1 item it obtains an upload lease, downloads the image, sends
    it in a multipart POST to the leased storage address and submits one
    image link post whose url is that of the uploaded asset; with an array
    of 2 or more items it uploads each item through the same three steps
    and submits one gallery post listing the media identifier of every
    lease.  It makes these calls in this order and stops at the first
    that fails: the lease of an item is always requested, its image
    downloaded once the lease is granted, uploaded once it is downloaded
    and the lease usable; the next item is taken up, and at last the post
    submitted, once the upload before went through.  It has made all of
    these calls when it reports success. *)
Theorem reddit_routes_by_media :
  forall (E : Env) (w : World) (content accessToken : string) (media : Media)
         (userAccount : option Account) (customSubreddit : option string),
  let subreddit := Reddit.target customSubreddit in
  exists r w',
    Reddit.postToReddit content accessToken media userAccount customSubreddit E w
    = (Ok r, w') /\
    (media_present media = false ->
       w_sent w' = w_sent w
         ++ [Reddit.submitRequest accessToken (Reddit.selfPost subreddit content)]) /\
    (forall item, media = MediaArray [item] ->
       let expected :=
         single_image_requests E (w_time w) item accessToken subreddit content in
       let made :=
         if upload_done E (w_time w) (cloudinaryUrl item) accessToken
         then 4%nat
         else upload_made E (w_time w) (cloudinaryUrl item) accessToken in
       (1 <= made <= 4)%nat /\
       w_sent w' = w_sent w ++ firstn made expected /\
       (success r = true -> w_sent w' = w_sent w ++ expected)) /\
    (forall item1 item2 rest, media = MediaArray (item1 :: item2 :: rest) ->
       let items := item1 :: item2 :: rest in
       let expected :=
         gallery_requests E (w_time w) items accessToken subreddit content in
       let made :=
         if gallery_done E (w_time w) items accessToken
         then (3 * length items + 1)%nat
         else gallery_made E (w_time w) items accessToken in
       (1 <= made <= 3 * length items + 1)%nat /\
       w_sent w' = w_sent w ++ firstn made expected /\
       (success r = true -> w_sent w' = w_sent w ++ expected)).
Proof.
  intros E w content tok media acct customSubreddit. cbv zeta.
  set (sub := Reddit.target customSubreddit).
  unfold Reddit.postToReddit. cbv zeta. fold sub.
  destruct media as [| hasMedia item | [| item1 [| item2 rest]]]; cbn [media_present length Nat.eqb negb].
  1, 3: destruct (post_text_requests content tok sub E w) as (res & w1 & Hrun & Hs);
        destruct (publisher_wrap _ E w res w1 Hrun) as (r & w' & Hwrap & Hs' & _);
        exists r, w'; split; [exact Hwrap |];
        split; [intros _; congruence |]; split; intros; discriminate.
  - (* one object *)
    destruct hasMedia.
    + destruct (publisher_contract _
                  (proj1 (proj2 (proj2 (returns_postToReddit_branches content tok sub)))) E w)
        as (r & w' & Hrun & _).
      exists r, w'. split; [exact Hrun |].
      split; [discriminate |]. split; intros; discriminate.
    + destruct (post_text_requests content tok sub E w) as (res & w1 & Hrun & Hs).
      destruct (publisher_wrap _ E w res w1 Hrun) as (r & w' & Hwrap & Hs' & _).
      exists r, w'. split; [exact Hwrap |].
      split; [intros _; congruence |]. split; intros; discriminate.
  - (* one item *)
    destruct (post_single_image_made content tok sub item1 E w)
      as (res & w1 & Hrun & Hs).
    destruct (post_single_image_requests content tok sub item1 E w)
      as (res0 & w0 & k & Hrun0 & _ & _ & Hfull).
    rewrite Hrun in Hrun0. injection Hrun0 as <- <-.
    destruct (publisher_wrap _ E w res w1 Hrun) as (r & w' & Hwrap & Hs' & Hok & Herr).
    exists r, w'. split; [exact Hwrap |]. split; [discriminate |].
    split; [| intros; discriminate].
    intros item Hitem. injection Hitem as <-. split; [| split].
    + pose proof (upload_made_bounds E (w_time w) (cloudinaryUrl item1) tok).
      destruct (upload_done E (w_time w) (cloudinaryUrl item1) tok); lia.
    + congruence.
    + intros Hsucc. destruct res as [r0|e].
      * rewrite Hs'. now apply (Hfull r0).
      * destruct (Herr e eq_refl). congruence.
  - (* two items or more *)
    destruct (post_gallery_made content tok sub (item1 :: item2 :: rest) E w)
      as (res & w1 & Hrun & Hs).
    destruct (post_gallery_requests content tok sub (item1 :: item2 :: rest) E w)
      as (res0 & w0 & k & Hrun0 & _ & Hfull).
    rewrite Hrun in Hrun0. injection Hrun0 as <- <-.
    destruct (publisher_wrap _ E w res w1 Hrun) as (r & w' & Hwrap & Hs' & Hok & Herr).
    exists r, w'. split; [exact Hwrap |]. split; [discriminate |].
    split; [intros; discriminate |].
    intros i1 i2 rs Hitems. injection Hitems as <- <- <-. split; [| split].
    + destruct (gallery_made_bounds E (item1 :: item2 :: rest) tok (w_time w)) as (Hle & Hge).
      cbn [length] in Hle.
      destruct (gallery_done E (w_time w) (item1 :: item2 :: rest) tok);
        [lia |]. split; [apply Hge; discriminate | lia].
    + rewrite Hs'. exact Hs.
    + intros Hsucc. destruct res as [r0|e].
      * rewrite Hs'. now apply (Hfull r0).
      * destruct (Herr e eq_refl). congruence.
Qed.

Lemma check_api_errors_reports result e es E w :
  api_errors result = VArr (e :: es) ->
  Reddit.check_api_errors result E w
  = (Thrown (Error ("Reddit API error: " +:+ json_stringify E (api_errors result))), w).
Proof.
  unfold api_errors, Reddit.check_api_errors. intros H.
  rewrite bind_prop.
  destruct (nullish result) eqn:Hn; [destruct result; discriminate |].
  rewrite bind_ask, H. reflexivity.
Qed.

Lemma check_api_errors_pure result E w :
  exists res, Reddit.check_api_errors result E w = (res, w).
Proof.
  unfold Reddit.check_api_errors. rewrite bind_prop.
  destruct (nullish result); [eauto |].
  rewrite bind_ask.
  destruct (truthy _ && gt_zero E _)%bool; [rewrite bind_ask |]; eauto.
Qed.

(** A body that throws makes the publisher fail with the message thrown. *)
Lemma thrown_fails (body : M PublishResult) E w e w1 :
  body E w = (Thrown e, w1) ->
  fails_with (message e) (try_catch body failure E w).
Proof.
  intros H. rewrite (failure_captured _ _ _ _ _ H).
  eexists _, _. split; [reflexivity |]. split; reflexivity.
Qed.

Lemma fails_with_fails msg out : fails_with msg out -> fails out.
Proof. intros (r & w' & H & Hs & _). now exists r, w'. Qed.

(** The examination of the reply shared by the text and gallery branches. *)
Lemma reply_examined (request : Request) (k : Value -> M PublishResult) E w reply result :
  net E (w_time w) request = NetReply reply ->
  ok reply = true ->
  json reply = Some result ->
  forall what,
  let body :=
    response <- fetch request ;;
    throw_if (negb (ok response))
      (Error (what +:+ pretty (status_code response))) ;;;
    result <- json_of response ;;
    Reddit.check_api_errors result ;;;
    throw_if (negb (truthy (Reddit.data_field result "id")))
      (Error "Reddit post failed - no post ID returned") ;;;
    k result in
  (forall e es, api_errors result = VArr (e :: es) ->
     fails_with ("Reddit API error: " +:+ json_stringify E (api_errors result))
       (try_catch body failure E w)) /\
  (truthy (Reddit.data_field result "id") = false ->
     fails (try_catch body failure E w)).
Proof.
  intros Hnet Hok Hjson what body. subst body. split.
  - intros e es Herr. eapply (thrown_fails _ _ _ (Error _)).
    rewrite bind_fetch, Hnet, bind_throw_if, Hok. cbn [negb].
    rewrite bind_json_of, Hjson. unfold bind at 1.
    rewrite (check_api_errors_reports _ _ _ _ _ Herr). reflexivity.
  - intros Hid.
    destruct (check_api_errors_pure result E (record_request request w)) as ([[]|e] & Hc).
    + eapply fails_with_fails, (thrown_fails _ _ _ (Error _)).
      rewrite bind_fetch, Hnet, bind_throw_if, Hok. cbn [negb].
      rewrite bind_json_of, Hjson. unfold bind at 1. rewrite Hc.
      rewrite bind_throw_if, Hid. reflexivity.
    + eapply fails_with_fails, (thrown_fails _ _ _ e).
      rewrite bind_fetch, Hnet, bind_throw_if, Hok. cbn [negb].
      rewrite bind_json_of, Hjson. unfold bind at 1. rewrite Hc. reflexivity.
Qed.

Lemma try_catch_bind_Ok {A B} (m : M A) (f : A -> M B) (h : Exn -> M B) E w a w1 :
  m E w = (Ok a, w1) ->
  try_catch (bind m f) h E w = try_catch (f a) h E w1.
Proof. intros H. unfold try_catch. now rewrite (bind_Ok _ _ _ _ _ _ H). Qed.

(** C7 (amended). For every submit response the Reddit publisher receives
    on its text-only (no media), gallery and single-image branches: when
    the response carries a non-empty error array the publisher returns
    failure with the serialized error content; on the text-only and
    gallery branches it returns failure when the response has no post
    identifier, and on the single-image branch when it has neither a post
    identifier nor a submission page. *)
Theorem reddit_reply_examined :
  forall (E : Env) (w : World) (content accessToken : string)
         (userAccount : option Account) (customSubreddit : option string),
  let subreddit := Reddit.target customSubreddit in
  let publish media :=
    Reddit.postToReddit content accessToken media userAccount customSubreddit E w in
  let reported result :=
    "Reddit API error: " +:+ json_stringify E (api_errors result) in
  (* text-only, no media *)
  (forall media reply result,
     media_present media = false ->
     net E (w_time w)
       (Reddit.submitRequest accessToken (Reddit.selfPost subreddit content))
     = NetReply reply ->
     ok reply = true -> json reply = Some result ->
     (forall e es, api_errors result = VArr (e :: es) ->
        fails_with (reported result) (publish media)) /\
     (truthy (Reddit.data_field result "id") = false -> fails (publish media))) /\
  (* gallery *)
  (forall item1 item2 rest galleryItems w1 reply result,
     Reddit.upload_gallery (item1 :: item2 :: rest) accessToken [] E w
     = (Ok galleryItems, w1) ->
     net E (w_time w1)
       (Reddit.galleryRequest accessToken
          (Reddit.galleryPost subreddit content galleryItems))
     = NetReply reply ->
     ok reply = true -> json reply = Some result ->
     (forall e es, api_errors result = VArr (e :: es) ->
        fails_with (reported result) (publish (MediaArray (item1 :: item2 :: rest)))) /\
     (truthy (Reddit.data_field result "id") = false ->
        fails (publish (MediaArray (item1 :: item2 :: rest))))) /\
  (* single image *)
  (forall item uploaded w1 reply result,
     Reddit.uploadImageToRedditAsset (cloudinaryUrl item) accessToken E w
     = (Ok uploaded, w1) ->
     net E (w_time w1)
       (Reddit.submitRequest accessToken
          (Reddit.imagePost subreddit content (snd uploaded)))
     = NetReply reply ->
     ok reply = true -> json reply = Some result ->
     (forall e es, api_errors result = VArr (e :: es) ->
        fails_with (reported result) (publish (MediaArray [item]))) /\
     (truthy (Reddit.data_field result "id") = false ->
      truthy (Reddit.data_field result "user_submitted_page") = false ->
      fails (publish (MediaArray [item])))).
Proof.
  intros E w content tok acct customSubreddit. cbv zeta.
  set (sub := Reddit.target customSubreddit).
  split; [| split].
  - intros media reply result Hmedia Hnet Hok Hjson.
    unfold Reddit.postToReddit. cbv zeta. fold sub. rewrite Hmedia.
    apply (reply_examined _ _ E w reply result Hnet Hok Hjson "Reddit post failed: ").
  - intros item1 item2 rest galleryItems w1 reply result Hup Hnet Hok Hjson.
    unfold Reddit.postToReddit. cbv zeta. fold sub.
    cbn [media_present length Nat.eqb negb]. unfold Reddit.post_gallery.
    rewrite (try_catch_bind_Ok _ _ _ _ _ _ _ Hup).
    apply (reply_examined _ _ E w1 reply result Hnet Hok Hjson
             "Reddit gallery post failed: ").
  - intros item uploaded w1 reply result Hup Hnet Hok Hjson.
    unfold Reddit.postToReddit. cbv zeta. fold sub.
    cbn [media_present length Nat.eqb negb]. unfold Reddit.post_single_image.
    rewrite (try_catch_bind_Ok _ _ _ _ _ _ _ Hup). split.
    + intros e es Herr. eapply (thrown_fails _ _ _ (Error _)).
      rewrite bind_fetch, Hnet, bind_throw_if, Hok. cbn [negb].
      rewrite bind_json_of, Hjson. unfold bind at 1.
      rewrite (check_api_errors_reports _ _ _ _ _ Herr). reflexivity.
    + intros Hid Hpage.
      destruct (check_api_errors_pure result E
                  (record_request
                     (Reddit.submitRequest tok
                        (Reddit.imagePost sub content (snd uploaded))) w1))
        as ([[]|e] & Hc).
      * eapply fails_with_fails, (thrown_fails _ _ _ (Error _)).
        rewrite bind_fetch, Hnet, bind_throw_if, Hok. cbn [negb].
        rewrite bind_json_of, Hjson. unfold bind at 1. rewrite Hc.
        rewrite bind_throw_if, Hid, Hpage. reflexivity.
      * eapply fails_with_fails, (thrown_fails _ _ _ e).
        rewrite bind_fetch, Hnet, bind_throw_if, Hok. cbn [negb].
        rewrite bind_json_of, Hjson. unfold bind at 1. rewrite Hc. reflexivity.
Qed.

(* ================================================================== *)
(** ** The contract of the publishers *)
(* ================================================================== *)

Lemma try_keeps_contract (attempt : M PublishResult) :
  returns success_shape attempt ->
  forall E w, keeps_contract attempt (try_catch attempt failure) E w.
Proof.
  intros Hret E w. unfold keeps_contract, try_catch.
  destruct (attempt E w) as [[r|e] w1] eqn:Hrun.
  - split; [reflexivity |]. exact (Hret E w r w1 Hrun).
  - reflexivity.
Qed.

Lemma returns_postToReddit_try content tok media sub :
  returns success_shape (postToReddit_try content tok media sub).
Proof.
  destruct (returns_postToReddit_branches content tok (Reddit.target sub))
    as (Hg & Hs & Hu & Ht).
  unfold postToReddit_try. cbv zeta. destruct (media_present media); [| exact Ht].
  destruct media as [| hasMedia item | [| item1 [| item2 rest]]];
    first [exact Hu | apply Hs | apply Hg].
Qed.

(** C5. Each platform publisher - [postToTwitter], [postToReddit],
    [postToLinkedin] - returns on every input and against every behaviour
    of the network: it never throws.  What its [try] block returns it
    returns, [{success: true, ...}] without an error; whatever exception
    is raised inside it catches, and returns as
    [{success: false, error: <message of the exception>}].  So does a
    call without media whose first request - the tweet, the submission,
    the profile lookup - is rejected by the network, answered outside
    2xx, or answered with a body that is not JSON. *)
Theorem publishers_never_throw :
  forall (E : Env) (w : World) (content accessToken : string) (media : Media)
         (userAccount : option Account) (customSubreddit : option string),
  let twitter := Twitter.postToTwitter content accessToken media userAccount in
  let reddit :=
    Reddit.postToReddit content accessToken media userAccount customSubreddit in
  let linkedin := Linkedin.postToLinkedin content accessToken media in
  (* they return, in one of the two shapes *)
  ((exists r w', twitter E w = (Ok r, w') /\ well_shaped r) /\
   (exists r w', reddit E w = (Ok r, w') /\ well_shaped r) /\
   (exists r w', linkedin E w = (Ok r, w') /\ well_shaped r)) /\
  (* an exception raised inside is returned as a failure with its message *)
  (keeps_contract (postToTwitter_try content accessToken media userAccount) twitter E w /\
   keeps_contract (postToReddit_try content accessToken media customSubreddit) reddit E w /\
   keeps_contract (postToLinkedin_try content accessToken media) linkedin E w) /\
  (* network error, error status, malformed response *)
  (media_present media = false -> nonempty accessToken = true ->
   let tweet := Twitter.tweetRequest accessToken (text_only content) in
   (forall e, net E (w_time w) tweet = NetFail e ->
      fails_with (message e) (twitter E w)) /\
   (forall r, net E (w_time w) tweet = NetReply r -> ok r = false ->
      fails_with ("Twitter API error: " +:+ pretty (status_code r) +:+ " - " +:+ text r)
        (twitter E w)) /\
   (forall r, net E (w_time w) tweet = NetReply r -> ok r = true -> json r = None ->
      fails (twitter E w))) /\
  (media_present media = false ->
   let submission :=
     Reddit.submitRequest accessToken
       (Reddit.selfPost (Reddit.target customSubreddit) content) in
   (forall e, net E (w_time w) submission = NetFail e ->
      fails_with (message e) (reddit E w)) /\
   (forall r, net E (w_time w) submission = NetReply r -> ok r = false ->
      fails_with ("Reddit post failed: " +:+ pretty (status_code r)) (reddit E w)) /\
   (forall r, net E (w_time w) submission = NetReply r -> ok r = true -> json r = None ->
      fails (reddit E w))) /\
  (let lookup := Linkedin.profileRequest accessToken in
   (forall e, net E (w_time w) lookup = NetFail e ->
      fails_with (message e) (linkedin E w)) /\
   (forall r, net E (w_time w) lookup = NetReply r -> ok r = false ->
      fails_with "Failed to get LinkedIn profile" (linkedin E w)) /\
   (forall r, net E (w_time w) lookup = NetReply r -> ok r = true -> json r = None ->
      fails (linkedin E w))).
Proof.
  intros E w content tok media acct sub. cbv zeta.
  split; [| split; [| split; [| split]]].
  - split; [| split].
    + apply publisher_contract, returns_postToTwitter_body.
    + apply (publisher_contract (postToReddit_try content tok media sub)),
        returns_postToReddit_try.
    + apply publisher_contract, returns_postToLinkedin_body.
  - split; [| split].
    + apply (try_keeps_contract (postToTwitter_try content tok media acct)),
        returns_postToTwitter_body.
    + apply (try_keeps_contract (postToReddit_try content tok media sub)),
        returns_postToReddit_try.
    + apply (try_keeps_contract (postToLinkedin_try content tok media)),
        returns_postToLinkedin_body.
  - intros Hmedia Htok.
    assert (Hstart : forall res w1,
               bind (fetch (Twitter.tweetRequest tok (text_only content)))
                 (fun response =>
                    (if negb (ok response)
                     then throw (Error ("Twitter API error: "
                                        +:+ pretty (status_code response)
                                        +:+ " - " +:+ text response))
                     else ret tt) ;;;
                    data <- json_of response ;;
                    inner <- prop data "data" ;;
                    succeeded (js_or (oprop inner "id") (VStr "unknown")) VUndef) E w
               = (res, w1) ->
               postToTwitter_try content tok media acct E w = (res, w1)).
    { intros res w1 <-. unfold postToTwitter_try, Twitter.prepare_tweet.
      now rewrite Hmedia, bind_ret_l, bind_throw_if, Htok. }
    split; [| split].
    + intros e Hnet.
      apply (thrown_fails (postToTwitter_try content tok media acct) E w e
               (record_request (Twitter.tweetRequest tok (text_only content)) w)).
      apply Hstart. now rewrite bind_fetch, Hnet.
    + intros r Hnet Hok.
      apply (thrown_fails (postToTwitter_try content tok media acct) E w (Error _)
               (record_request (Twitter.tweetRequest tok (text_only content)) w)).
      apply Hstart. now rewrite bind_fetch, Hnet, Hok.
    + intros r Hnet Hok Hjson.
      apply fails_with_fails with (msg := message (SyntaxError "Unexpected token in JSON")).
      apply (thrown_fails (postToTwitter_try content tok media acct) E w (SyntaxError _)
               (record_request (Twitter.tweetRequest tok (text_only content)) w)).
      apply Hstart. rewrite bind_fetch, Hnet, Hok. cbn [negb].
      now rewrite bind_ret_l, bind_json_of, Hjson.
  - intros Hmedia.
    assert (Hstart : forall res w1,
               Reddit.post_text content tok (Reddit.target sub) E w = (res, w1) ->
               postToReddit_try content tok media sub E w = (res, w1)).
    { intros res w1 <-. unfold postToReddit_try. now rewrite Hmedia. }
    split; [| split].
    + intros e Hnet.
      apply (thrown_fails (postToReddit_try content tok media sub) E w e
               (record_request
                  (Reddit.submitRequest tok (Reddit.selfPost (Reddit.target sub) content)) w)).
      apply Hstart. unfold Reddit.post_text. now rewrite bind_fetch, Hnet.
    + intros r Hnet Hok.
      apply (thrown_fails (postToReddit_try content tok media sub) E w (Error _)
               (record_request
                  (Reddit.submitRequest tok (Reddit.selfPost (Reddit.target sub) content)) w)).
      apply Hstart. unfold Reddit.post_text.
      now rewrite bind_fetch, Hnet, bind_throw_if, Hok.
    + intros r Hnet Hok Hjson.
      apply fails_with_fails with (msg := message (SyntaxError "Unexpected token in JSON")).
      apply (thrown_fails (postToReddit_try content tok media sub) E w (SyntaxError _)
               (record_request
                  (Reddit.submitRequest tok (Reddit.selfPost (Reddit.target sub) content)) w)).
      apply Hstart. unfold Reddit.post_text.
      rewrite bind_fetch, Hnet, bind_throw_if, Hok. cbn [negb].
      now rewrite bind_json_of, Hjson.
  - split; [| split].
    + intros e Hnet.
      apply (thrown_fails (postToLinkedin_try content tok media) E w e
               (record_request (Linkedin.profileRequest tok) w)).
      unfold postToLinkedin_try. now rewrite bind_fetch, Hnet.
    + intros r Hnet Hok.
      apply (thrown_fails (postToLinkedin_try content tok media) E w
               (Error "Failed to get LinkedIn profile")
               (record_request (Linkedin.profileRequest tok) w)).
      unfold postToLinkedin_try. now rewrite bind_fetch, Hnet, bind_throw_if, Hok.
    + intros r Hnet Hok Hjson.
      apply fails_with_fails with (msg := message (SyntaxError "Unexpected token in JSON")).
      apply (thrown_fails (postToLinkedin_try content tok media) E w (SyntaxError _)
               (record_request (Linkedin.profileRequest tok) w)).
      unfold postToLinkedin_try.
      rewrite bind_fetch, Hnet, bind_throw_if, Hok. cbn [negb].
      now rewrite bind_json_of, Hjson.
Qed.

(* ================================================================== *)
(** ** The statements at work *)
(* ================================================================== *)

Lemma gif_three_phase_upload_witness :
  exists w',
    Twitter.uploadGifChunked gif_bytes "image/gif" "tweet_gif"
      "key" "secret" "token" "token-secret" upload_endpoint nowhere
    = (Ok (VStr "710511363345354753"), w') /\
    map command (w_sent w') = [Some "INIT"; Some "APPEND"; Some "FINALIZE"] /\
    w_time w' = 9%nat.
Proof.
  destruct (gif_three_phase_upload upload_endpoint nowhere gif_bytes
              "image/gif" "tweet_gif" "key" "secret" "token" "token-secret")
    as (_ & Hcmd & _ & _ & res & w' & k & Hrun & Hk & Hsent & H3 & Hok & Hinfo).
  change (k = 3%nat) in H3.
  destruct (Hinfo eq_refl eq_refl _ _ eq_refl eq_refl eq_refl) as (_ & Hpending).
  destruct (Hpending eq_refl) as (-> & Ht).
  exists w'. split; [exact Hrun |]. split; [| exact Ht].
  rewrite Hsent, H3. exact Hcmd.
Defined.

Lemma media_skipped_without_legacy_pair_witness :
  exists r w' tweet,
    Twitter.postToTwitter "hello" "bearer-token" one_image (Some bearer_only) calm nowhere
    = (Ok r, w') /\
    Twitter.postToTwitter "hello" "bearer-token" MediaNull (Some bearer_only) calm nowhere
    = (Ok r, w') /\
    w_sent w' = w_sent nowhere ++ [tweet] /\
    url tweet = "https://api.twitter.com/2/tweets" /\
    body tweet = Json (VObj [ ("text", VStr "hello") ]) /\
    success r = true.
Proof.
  destruct (media_skipped_without_legacy_pair calm nowhere "hello" "bearer-token"
              one_image (Some bearer_only))
    as (r & w' & tweet & H1 & H2 & H3 & H4 & H5 & H6);
    [reflexivity | left; reflexivity | reflexivity |].
  exists r, w', tweet. repeat (split; [assumption |]).
  assert (Ht : tweet = Twitter.tweetRequest "bearer-token" (VObj [ ("text", VStr "hello") ])).
  { clear -H1 H3. vm_compute in H1. injection H1 as _ <-. simpl in H3.
    now injection H3 as <-. }
  subst tweet.
  now destruct (H6 (reply 200 (Some tweet_created)) tweet_created eq_refl eq_refl eq_refl eq_refl).
Defined.

Lemma reddit_routes_by_media_witness :
  exists r w',
    Reddit.postToReddit "hello" "token" (MediaArray [cat; dog]) None (Some "test")
      (reddit accepted) nowhere
    = (Ok r, w') /\
    success r = true /\
    w_sent w' = gallery_requests (reddit accepted) 0 [cat; dog] "token" "test" "hello" /\
    map method (w_sent w') = ["POST"; "GET"; "POST"; "POST"; "GET"; "POST"; "POST"] /\
    map url (skipn 6 (w_sent w')) = ["https://oauth.reddit.com/api/submit_gallery_post"].
Proof.
  destruct (reddit_routes_by_media (reddit accepted) nowhere "hello" "token"
              (MediaArray [cat; dog]) None (Some "test"))
    as (r & w' & Hrun & _ & _ & Hgallery).
  destruct (Hgallery cat dog [] eq_refl) as (_ & _ & Hfull).
  assert (Hs : success r = true).
  { clear -Hrun. vm_compute in Hrun. now injection Hrun as <- _. }
  specialize (Hfull Hs). simpl in Hfull.
  exists r, w'. split; [exact Hrun |]. split; [exact Hs |].
  split; [exact Hfull |]. rewrite Hfull. split; reflexivity.
Defined.

(** C6 as stated fails on the upload itself, which is a multipart POST
    and not a PUT; and a post whose one image is stored in the one-object
    format of the schedule endpoint is submitted as text, its image never
    uploaded. *)
Lemma reddit_upload_is_a_post :
  (exists r w',
     Reddit.postToReddit "hello" "token" (MediaArray [cat]) None (Some "test")
       (reddit accepted) nowhere
     = (Ok r, w') /\
     success r = true /\
     map method (w_sent w') = ["POST"; "GET"; "POST"; "POST"] /\
     map body (firstn 1 (skipn 2 (w_sent w')))
     = [Multipart [ ("acl", "private"); ("key", "rte_images/cat") ] []]) /\
  (exists r w',
     Reddit.postToReddit "hello" "token" cat_object None (Some "test")
       (reddit accepted) nowhere
     = (Ok r, w') /\
     success r = true /\
     w_sent w' = [Reddit.submitRequest "token" (Reddit.selfPost "test" "hello")]).
Proof.
  split; do 2 eexists; (split; [vm_compute; reflexivity |]); repeat split; reflexivity.
Qed.

Lemma reddit_reply_examined_witness :
  fails_with "Reddit API error: RATELIMIT,you are doing that too much,ratelimit"
    (Reddit.postToReddit "hello" "token" no_media None (Some "test")
       (reddit rate_limited) nowhere) /\
  fails (Reddit.postToReddit "hello" "token" no_media None (Some "test")
           (reddit page_only) nowhere).
Proof.
  split.
  - destruct (reddit_reply_examined (reddit rate_limited) nowhere "hello" "token"
                None (Some "test")) as (Htext & _ & _).
    destruct (Htext no_media (reply 200 (Some rate_limited)) rate_limited
                eq_refl eq_refl eq_refl eq_refl) as (Herr & _).
    exact (Herr _ _ eq_refl).
  - destruct (reddit_reply_examined (reddit page_only) nowhere "hello" "token"
                None (Some "test")) as (Htext & _ & _).
    destruct (Htext no_media (reply 200 (Some page_only)) page_only
                eq_refl eq_refl eq_refl eq_refl) as (_ & Hid).
    exact (Hid eq_refl).
Defined.

(** C7 as stated fails on the single-image branch, where a reply without
    any post identifier is taken as success once it names a submission
    page; and on the text branch taken for media in the one-object format
    the reply is not examined at all. *)
Lemma reddit_success_without_identifier :
  (exists r w',
     Reddit.postToReddit "hello" "token" (MediaArray [cat]) None (Some "test")
       (reddit page_only) nowhere
     = (Ok r, w') /\
     Reddit.data_field page_only "id" = VUndef /\
     Reddit.data_field page_only "name" = VUndef /\
     success r = true /\
     postId r = VStr "unknown") /\
  (exists r w',
     Reddit.postToReddit "hello" "token" cat_object None (Some "test")
       (reddit rate_limited) nowhere
     = (Ok r, w') /\
     api_errors rate_limited
     = VArr [ VArr [ VStr "RATELIMIT"; VStr "you are doing that too much";
                     VStr "ratelimit" ] ] /\
     success r = true /\
     postId r = VStr "unknown").
Proof.
  split; do 2 eexists; (split; [vm_compute; reflexivity |]); repeat split; reflexivity.
Qed.

(* ================================================================== *)
(** ** Around the statements *)
(* ================================================================== *)

(** X28. An animated image is recognised by [.gif] occurring anywhere in
    the lower-cased address of its source: such a source goes through the
    chunked upload, as [image/gif] in the [tweet_gif] category. *)
Lemma gif_url_uses_chunked_upload imageUrl tok sec E w r ck cs :
  includes ".gif" (toLowerCase imageUrl) = true ->
  net E (w_time w) (GET imageUrl) = NetReply r ->
  ok r = true ->
  env_var E "TWITTER_API_KEY" = Some ck -> nonempty ck = true ->
  env_var E "TWITTER_API_SECRET" = Some cs -> nonempty cs = true ->
  Twitter.uploadMediaToTwitterV1 imageUrl tok sec E w
  = Twitter.uploadGifChunked (arrayBuffer r) "image/gif" "tweet_gif" ck cs tok sec
      E (record_request (GET imageUrl) w).
Proof.
  intros Hgif Hnet Hok Hck Hck' Hcs Hcs'.
  unfold Twitter.uploadMediaToTwitterV1. rewrite try_catch_rethrow.
  rewrite bind_fetch, Hnet, bind_throw_if, Hok. cbn [negb].
  unfold getenv. rewrite !bind_ask, Hck, Hck', Hcs, Hcs', Hgif. reflexivity.
Qed.

(* ================================================================== *)
(** ** The batch run: what it takes up and what it leaves alone *)
(* ================================================================== *)

Lemma find_due_selected now_ E w due w' :
  find_due now_ E w = (Ok due, w') ->
  map fst due = selected now_ (w_posts w) /\
  (forall d, In d due ->
     snd d = List.find (fun u => Nat.eqb (user_id u) (userId (fst d))) (w_users w)) /\
  w' = advance w.
Proof.
  unfold find_due. destruct (find_error E (w_time w)); [discriminate |].
  intros H. injection H as <- <-. split; [| split; [| reflexivity]].
  - rewrite map_map. simpl. rewrite map_id. reflexivity.
  - intros d Hd. apply in_map_iff in Hd as (p & <- & _). reflexivity.
Qed.

Lemma due_at_spec now_ p :
  due_at now_ p = true <->
  status p = scheduled /\ now_ - 300000 <= scheduledTime p <= now_.
Proof.
  unfold due_at. rewrite !andb_true_iff, !Z.leb_le.
  destruct (status p); split; intros H; try lia; try (destruct H as [H _]; discriminate H);
    try (destruct H as [[H _] _]; discriminate H).
  split; [reflexivity | lia].
Qed.

(** X1. The query for due posts returns at most five posts, each of them a
    post of the collection that is [scheduled] and due within the last
    five minutes, paired with the user its [userId] names - or with none
    when that user does not exist; when it returns fewer than five, every
    due post of the collection is among them.  The query writes nothing
    and sends nothing. *)
Theorem due_posts_found :
  forall (now_ : Z) (E : Env) (w : World) (due : list (Post * option User)) (w' : World),
    find_due now_ E w = (Ok due, w') ->
    (length due <= 5)%nat /\
    Forall (fun d =>
              In (fst d) (w_posts w) /\
              status (fst d) = scheduled /\
              now_ - 300000 <= scheduledTime (fst d) <= now_ /\
              match snd d with
              | Some u => In u (w_users w) /\ user_id u = userId (fst d)
              | None => forall u, In u (w_users w) -> user_id u <> userId (fst d)
              end) due /\
    (forall p, In p (w_posts w) -> status p = scheduled ->
               now_ - 300000 <= scheduledTime p <= now_ ->
               (length due < 5)%nat -> In p (map fst due)) /\
    w_posts w' = w_posts w /\ w_users w' = w_users w /\ w_sent w' = w_sent w.
Proof.
  intros now_ E w due w' H.
  apply find_due_selected in H as (Hsel & Hpop & ->).
  assert (Hlen : length due = length (selected now_ (w_posts w)))
    by (rewrite <- Hsel; now rewrite length_map).
  split; [rewrite Hlen; apply firstn_le_length |].
  split; [| split; [| repeat split]].
  - apply List.Forall_forall. intros d Hd.
    assert (Hin : In (fst d) (selected now_ (w_posts w)))
      by (rewrite <- Hsel; now apply in_map).
    apply in_firstn, filter_In in Hin as (Hin & Hdue).
    apply due_at_spec in Hdue as (Hst & Htime).
    split; [exact Hin |]. split; [exact Hst |]. split; [exact Htime |].
    rewrite (Hpop d Hd).
    destruct (List.find _ (w_users w)) as [u|] eqn:Hfind.
    + apply find_some in Hfind as (Hu & Heq). split; [exact Hu |].
      now apply Nat.eqb_eq in Heq.
    + intros u Hu Heq. apply (find_none _ _ Hfind) in Hu.
      apply Nat.eqb_neq in Hu. contradiction.
  - intros p Hp Hst Htime Hfew. rewrite Hsel. unfold selected.
    rewrite Hlen in Hfew. unfold selected in Hfew.
    rewrite firstn_all2.
    + apply filter_In. split; [exact Hp |]. apply due_at_spec. now split.
    + rewrite length_firstn in Hfew. lia.
Qed.

Lemma untouched_refl ids w : untouched_outside ids w w.
Proof. intros p Hp _. exact Hp. Qed.

Lemma untouched_trans ids w1 w2 w3 :
  untouched_outside ids w1 w2 -> untouched_outside ids w2 w3 ->
  untouched_outside ids w1 w3.
Proof. intros H1 H2 p Hp Hid. apply H2; [now apply H1 | exact Hid]. Qed.

Lemma untouched_same_posts ids w w' :
  w_posts w' = w_posts w -> untouched_outside ids w w'.
Proof. intros H p Hp _. now rewrite H. Qed.

Lemma untouched_weaken ids ids' w w' :
  (forall id, In id ids -> In id ids') ->
  untouched_outside ids w w' -> untouched_outside ids' w w'.
Proof. intros Hsub H p Hp Hid. apply H; [exact Hp |]. intros Hin. apply Hid, Hsub, Hin. Qed.

Lemma store_post_keeps q posts p :
  In p posts -> post_id p <> post_id q -> In p (store_post q posts).
Proof.
  intros Hp Hid. unfold store_post.
  destruct (existsb (fun p0 => Nat.eqb (post_id p0) (post_id q)) posts).
  - apply in_map_iff. exists p. split; [| exact Hp].
    apply Nat.eqb_neq in Hid. now rewrite Hid.
  - apply in_or_app. now left.
Qed.

Lemma save_keeps q E w : untouched_outside [post_id q] w (snd (save q E w)).
Proof.
  unfold save. destruct (save_error E (w_time w)); simpl.
  - now apply untouched_same_posts.
  - intros p Hp Hid. simpl. apply store_post_keeps; [exact Hp |].
    intros Heq. apply Hid. left. now symmetry.
Qed.

Lemma recover_keeps q c e E w :
  untouched_outside [post_id q] w (snd (recover q c e E w)).
Proof.
  unfold recover, bind, try_catch.
  pose proof (save_keeps (mark_failed q (message e)) E w) as H.
  destruct (save (mark_failed q (message e)) E w) as [[[]|e'] w1]; exact H.
Qed.

Lemma persist_keeps q user hs c E w :
  untouched_outside [post_id q] w (snd (persist q user hs c E w)).
Proof.
  unfold persist, try_catch at 1. unfold bind at 1.
  pose proof (save_keeps q E w) as Hs.
  destruct (save q E w) as [[[]|e] w1]; simpl in Hs.
  - assert (Hinc : forall m : M unit,
               (forall E w, w_posts (snd (m E w)) = w_posts w) ->
               untouched_outside [post_id q] w
                 (snd (match bind m (fun _ => ret (q, if hs then c + 1 else c)) E w1 with
                       | (Ok a, w') => (Ok a, w')
                       | (Thrown e, w') => recover q c e E w'
                       end))).
    { intros m Hm. unfold bind. specialize (Hm E w1).
      destruct (m E w1) as [[[]|e] w2]; simpl in Hm |- *.
      - eapply untouched_trans; [exact Hs |]. now apply untouched_same_posts.
      - eapply untouched_trans; [exact Hs |].
        eapply untouched_trans; [apply untouched_same_posts, Hm |].
        apply recover_keeps. }
    apply Hinc. intros E0 w0. destruct hs; [| reflexivity].
    destruct user as [u|]; [| reflexivity].
    unfold incrementPostsCount. now destruct (update_error E0 (w_time w0)).
  - eapply untouched_trans; [exact Hs | apply recover_keeps].
Qed.

Lemma processPost_keeps post user c E w :
  untouched_outside [post_id post] w (snd (processPost post user c E w)).
Proof.
  destruct (allSettled_total (map (platformTask post user) (platforms post)) E w)
    as (settled & w1 & Ha).
  fold (attempts post user) in Ha.
  destruct (collect_all_total settled E w1) as (results & w2 & Hc).
  destruct (sends_attempts post user E w) as (Hp1 & _).
  rewrite Ha in Hp1.
  destruct (sends_collect_all any_request settled E w1) as (Hp2 & _).
  rewrite Hc in Hp2. simpl in Hp1, Hp2.
  unfold processPost, try_catch at 1.
  rewrite (bind_Ok _ _ _ _ _ _ Ha), (bind_Ok _ _ _ _ _ _ Hc). cbv zeta.
  set (hs := any_success settled).
  match goal with
  | |- context [bind ?m ?f E w2] =>
      assert (Hm : exists a w3, m E w2 = (Ok a, w3) /\ w_posts w3 = w_posts w2)
  end.
  { destruct hs; [| now exists None, w2].
    eexists _, _. split; [reflexivity | reflexivity]. }
  destruct Hm as (at_ & w3 & Hm & Hp3).
  rewrite (bind_Ok _ _ _ _ _ _ Hm).
  match goal with
  | |- context [persist ?q user hs c E w3] =>
      pose proof (persist_keeps q user hs c E w3) as Hk;
      destruct (persist q user hs c E w3) as [[a|e] w4]
  end; simpl in Hk.
  - simpl. eapply untouched_trans; [| exact Hk].
    apply untouched_same_posts. congruence.
  - eapply untouched_trans; [| apply recover_keeps].
    eapply untouched_trans; [| exact Hk].
    apply untouched_same_posts. congruence.
Qed.

Lemma processPost_fields post user count E w :
  exists post' count' w',
    processPost post user count E w = (Ok (post', count'), w') /\
    post_id post' = post_id post /\ userId post' = userId post /\
    content post' = content post /\ platforms post' = platforms post /\
    scheduledTime post' = scheduledTime post /\ media post' = media post /\
    (count' = count \/ count' = count + 1) /\
    (errorMessage post' = errorMessage post \/
     ~ reliable_store E /\ status post' = failed /\ count' = count /\
     exists e, errorMessage post' = Some (message e)).
Proof.
  destruct (processPost_outcome post user count E w)
    as (settled & w1 & results & w2 & post' & count' & w'
        & _ & _ & Hrun & _ & _ & _ & _ & Hcases).
  cbv zeta in Hcases. exists post', count', w'. split; [exact Hrun |].
  destruct Hcases as [(-> & -> & _) | (e & -> & -> & _ & Hno)]; simpl.
  - repeat (split; [reflexivity |]).
    split; [destruct (any_success settled); auto | now left].
  - repeat (split; [reflexivity |]). split; [now left |].
    right. repeat (split; [assumption || reflexivity |]). now exists e.
Qed.

Lemma process_posts_run duePosts startTime :
  forall count E w,
  exists finals count' w',
    process_posts duePosts startTime count E w = (Ok (finals, count'), w') /\
    map post_id finals = map (fun d => post_id (fst d)) duePosts /\
    count <= count' <= count + Z.of_nat (length duePosts) /\
    untouched_outside (map (fun d => post_id (fst d)) duePosts) w w'.
Proof.
  induction duePosts as [|[post user] rest IH]; intros count E w.
  - exists [], count, w. split; [reflexivity |]. split; [reflexivity |].
    split; [simpl; lia | apply untouched_refl].
  - cbn [process_posts]. unfold now. rewrite bind_oracle.
    destruct (clock E (w_time w) - startTime >? MAX_EXECUTION_TIME - 2000).
    + eexists _, count, _. split; [reflexivity |].
      split; [now rewrite map_map |].
      split; [simpl length; lia | now apply untouched_same_posts].
    + destruct (processPost_fields post user count E (advance w))
        as (post' & c1 & w1 & Hrun & Hid & _ & _ & _ & _ & _ & Hc1 & _).
      pose proof (processPost_keeps post user count E (advance w)) as Hk.
      rewrite Hrun in Hk. simpl in Hk.
      destruct (IH c1 E w1) as (finals & c2 & w2 & Hloop & Hids & Hc2 & Hk2).
      exists (post' :: finals), c2, w2. split.
      * rewrite (bind_Ok _ _ _ _ _ _ Hrun). simpl snd.
        rewrite (bind_Ok _ _ _ _ _ _ Hloop). reflexivity.
      * split; [simpl; now rewrite Hid, Hids |].
        split; [simpl length; lia |].
        eapply untouched_trans.
        -- eapply untouched_weaken; [| exact Hk].
           intros id [<- | []]. now left.
        -- eapply untouched_weaken; [| exact Hk2].
           intros id Hin. now right.
Qed.

Lemma NoDup_map_injective {A B} (f : A -> B) (l : list A) x y :
  List.NoDup (map f l) -> In x l -> In y l -> f x = f y -> x = y.
Proof.
  induction l as [|a l IH]; simpl; [tauto |].
  intros Hnd Hx Hy Hf. inversion Hnd as [|? ? Hnotin Hnd']; subst.
  destruct Hx as [-> | Hx], Hy as [-> | Hy]; auto.
  - exfalso. apply Hnotin. rewrite Hf. now apply in_map.
  - exfalso. apply Hnotin. rewrite <- Hf. now apply in_map.
Qed.

Lemma in_selected now_ posts p : In p (selected now_ posts) -> In p posts.
Proof. intros H. now apply in_firstn, filter_In in H. Qed.

(** The run, unfolded as far as the loop. *)
Lemma run_cases E w :
  let now_ := clock E (S (S (w_time w))) in
  let sel := selected now_ (w_posts w) in
  (exists e n, processScheduledPosts E w = (Thrown e, Nat.iter n advance w)) \/
  (sel = [] /\
   processScheduledPosts E w
   = (Ok {| processed := 0; report_message := "No posts to process";
            duePosts_after := [] |}, Nat.iter 4 advance w)) \/
  (exists due finals count w',
     map fst due = sel /\ sel <> [] /\
     process_posts due (clock E (w_time w)) 0 E (Nat.iter 4 advance w)
     = (Ok (finals, count), w') /\
     map post_id finals = map post_id sel /\
     0 <= count <= Z.of_nat (length sel) /\
     untouched_outside (map post_id sel) w w' /\
     processScheduledPosts E w
     = (Ok {| processed := count;
              report_message := "Processed " +:+ pretty count +:+ " posts";
              duePosts_after := finals |}, w')).
Proof.
  cbv zeta.
  assert (Hstart : processScheduledPosts E w
                   = bind connect (fun _ =>
                       now_ <- now ;;
                       duePosts <- find_due now_ ;;
                       if Nat.eqb (length duePosts) 0
                       then ret {| processed := 0; report_message := "No posts to process";
                                   duePosts_after := [] |}
                       else
                         r <- process_posts duePosts (clock E (w_time w)) 0 ;;
                         ret {| processed := snd r;
                                report_message := "Processed " +:+ pretty (snd r) +:+ " posts";
                                duePosts_after := fst r |}) E (advance w)).
  { unfold processScheduledPosts, now. now rewrite bind_oracle, try_catch_rethrow. }
  set (run := processScheduledPosts E w) in *. clearbody run.
  unfold bind at 1 in Hstart. unfold connect in Hstart. cbn [w_time advance] in Hstart.
  destruct (connect_error E (S (w_time w))) as [e|].
  { left. exists e, 2%nat. exact Hstart. }
  unfold now in Hstart. rewrite bind_oracle in Hstart. cbn [w_time advance] in Hstart.
  unfold bind at 1 in Hstart.
  destruct (find_due (clock E (S (S (w_time w)))) E (advance (advance (advance w))))
    as [[due|e] w2] eqn:Hfind.
  - apply find_due_selected in Hfind as (Hsel & _ & ->). simpl w_posts in Hsel.
    destruct (Nat.eqb (length due) 0) eqn:Hlen.
    + right. left. apply Nat.eqb_eq in Hlen. destruct due; [| discriminate].
      split; [now rewrite <- Hsel | exact Hstart].
    + right. right.
      destruct (process_posts_run due (clock E (w_time w)) 0 E
                  (advance (advance (advance (advance w)))))
        as (finals & count & w' & Hloop & Hids & Hcount & Hkeep).
      exists due, finals, count, w'. split; [exact Hsel |].
      split; [rewrite <- Hsel; destruct due; [discriminate Hlen | discriminate] |].
      split; [exact Hloop |].
      rewrite <- Hsel, map_map.
      split; [exact Hids |].
      split; [rewrite length_map; lia |].
      split; [| now rewrite (bind_Ok _ _ _ _ _ _ Hloop) in Hstart].
      intros p Hp Hid. apply Hkeep; assumption.
  - left. unfold find_due in Hfind. cbn [w_time advance] in Hfind.
    destruct (find_error E (S (S (S (w_time w))))); [| discriminate].
    injection Hfind as <- <-. exists e0, 4%nat. exact Hstart.
Qed.

Lemma iter_advance n w :
  w_posts (Nat.iter n advance w) = w_posts w /\
  w_users (Nat.iter n advance w) = w_users w /\
  w_sent (Nat.iter n advance w) = w_sent w.
Proof. induction n as [|n IH]; simpl; [auto | exact IH]. Qed.

(** X2. A run never modifies a post it did not take up: a post that is
    already published or failed, that is scheduled for later, that is more
    than five minutes overdue, or that comes after the first five due
    posts, is in the collection after the run exactly as it was before,
    whatever the network and the store did. *)
Theorem run_leaves_other_posts :
  forall (E : Env) (w : World) (out : Res Report) (w' : World),
    List.NoDup (map post_id (w_posts w)) ->
    processScheduledPosts E w = (out, w') ->
    forall p, In p (w_posts w) ->
      ~ In p (selected (clock E (S (S (w_time w)))) (w_posts w)) ->
      In p (w_posts w').
Proof.
  intros E w out w' Hnd Hrun p Hp Hnot.
  destruct (run_cases E w)
    as [(e & n & H) | [(_ & H) | (due & finals & count & w1 & _ & _ & _ & _ & _ & Hkeep & H)]];
    rewrite H in Hrun; injection Hrun as _ <-.
  - now rewrite (proj1 (iter_advance n w)).
  - exact Hp.
  - apply Hkeep; [exact Hp |]. intros Hin.
    apply in_map_iff in Hin as (q & Hid & Hq). apply Hnot.
    replace p with q; [exact Hq |].
    apply (NoDup_map_injective post_id (w_posts w)); auto.
    eapply in_selected, Hq.
Qed.

(** X3. A run takes up at most five posts - the first five that are due -
    and its count lies between 0 and their number. *)
Theorem run_handles_at_most_five :
  forall (E : Env) (w : World) (report : Report) (w' : World),
    processScheduledPosts E w = (Ok report, w') ->
    map post_id (duePosts_after report)
    = map post_id (selected (clock E (S (S (w_time w)))) (w_posts w)) /\
    (length (duePosts_after report) <= 5)%nat /\
    0 <= processed report <= Z.of_nat (length (duePosts_after report)).
Proof.
  intros E w report w' Hrun.
  assert (H5 : forall posts, (length (selected (clock E (S (S (w_time w)))) posts) <= 5)%nat)
    by (intros; apply firstn_le_length).
  destruct (run_cases E w)
    as [(e & n & H) | [(Hsel & H) | (due & finals & count & w1 & _ & _ & _ & Hids & Hc & _ & H)]];
    rewrite H in Hrun; [discriminate | |]; injection Hrun as <- _; simpl.
  - rewrite Hsel. split; [reflexivity |]. split; simpl; lia.
  - split; [exact Hids |].
    assert (Hlen : length finals
                   = length (selected (clock E (S (S (w_time w)))) (w_posts w))).
    { rewrite <- (length_map post_id finals), Hids. apply length_map. }
    rewrite Hlen. split; [apply H5 | exact Hc].
Qed.

(** X4. When the connection to the store fails or times out, or the query
    for due posts fails, the run throws that very error, having sent
    nothing and written nothing. *)
Theorem store_failure_aborts_run :
  forall (E : Env) (w : World),
    (forall e, connect_error E (S (w_time w)) = Some e ->
       exists w', processScheduledPosts E w = (Thrown e, w') /\
                  w_posts w' = w_posts w /\ w_users w' = w_users w /\
                  w_sent w' = w_sent w) /\
    (forall e, connect_error E (S (w_time w)) = None ->
       find_error E (3 + w_time w) = Some e ->
       exists w', processScheduledPosts E w = (Thrown e, w') /\
                  w_posts w' = w_posts w /\ w_users w' = w_users w /\
                  w_sent w' = w_sent w).
Proof.
  intros E w. split.
  - intros e He. exists (Nat.iter 2 advance w). split; [| apply iter_advance].
    unfold processScheduledPosts, now.
    rewrite bind_oracle, try_catch_rethrow. unfold bind at 1, connect.
    cbn [w_time advance]. now rewrite He.
  - intros e Hc He. exists (Nat.iter 4 advance w). split; [| apply iter_advance].
    unfold processScheduledPosts, now.
    rewrite bind_oracle, try_catch_rethrow. unfold bind at 1, connect.
    cbn [w_time advance]. rewrite Hc, bind_oracle. unfold bind at 1, find_due.
    cbn [w_time advance]. simpl in He. now rewrite He.
Qed.

(** With the store answering, the run returns. *)
Lemma run_returns E w :
  connect_error E (S (w_time w)) = None ->
  find_error E (3 + w_time w) = None ->
  exists report w', processScheduledPosts E w = (Ok report, w').
Proof.
  intros Hc Hf.
  destruct (run_cases E w)
    as [(e & n & H) | [(_ & H) | (due & finals & count & w1 & _ & _ & _ & _ & _ & _ & H)]];
    [| eauto | eauto].
  exfalso. revert H. unfold processScheduledPosts, now.
  rewrite bind_oracle, try_catch_rethrow. unfold bind at 1, connect.
  cbn [w_time advance]. rewrite Hc, bind_oracle. unfold bind at 1, find_due.
  cbn [w_time advance]. simpl in Hf. rewrite Hf.
  match goal with
  | |- context [Nat.eqb ?n 0] => destruct (Nat.eqb n 0)
  end; [discriminate |].
  unfold bind.
  match goal with
  | |- context [process_posts ?d ?s ?c E ?w0] =>
      destruct (process_posts_run d s c E w0) as (f & c' & w2 & -> & _)
  end.
  discriminate.
Qed.

Lemma filter_none {A} (f : A -> bool) (l : list A) :
  (forall x, In x l -> f x = false) -> List.filter f l = [].
Proof.
  induction l as [|a l IH]; intros H; simpl; [reflexivity |].
  rewrite (H a (or_introl eq_refl)). apply IH. intros x Hx. apply H. now right.
Qed.

(** X5. When no post is due the run reports [processed: 0] with the message
    "No posts to process", having sent nothing and written nothing. *)
Theorem idle_run_reports_nothing :
  forall (E : Env) (w : World),
    connect_error E (S (w_time w)) = None ->
    find_error E (3 + w_time w) = None ->
    (forall p, In p (w_posts w) -> due_at (clock E (S (S (w_time w)))) p = false) ->
    exists w',
      processScheduledPosts E w
      = (Ok {| processed := 0; report_message := "No posts to process";
               duePosts_after := [] |}, w') /\
      w_posts w' = w_posts w /\ w_users w' = w_users w /\ w_sent w' = w_sent w.
Proof.
  intros E w Hc Hf Hnone.
  destruct (run_cases E w)
    as [(e & n & H) | [(_ & H) | (due & finals & count & w1 & _ & Hne & _)]].
  - exfalso.
    destruct (run_returns E w Hc Hf) as (report & w' & Hrun).
    rewrite Hrun in H. discriminate.
  - eexists. split; [exact H |]. apply (iter_advance 4 w).
  - exfalso. apply Hne. unfold selected. now rewrite filter_none.
Qed.

(** X6. A run that is already more than six seconds old when the first post's
    turn comes processes nothing: it reports [processed: 0], the posts it
    found are left as they were, nothing is sent and nothing is written. *)
Theorem spent_budget_processes_nothing :
  forall (E : Env) (w : World) (report : Report) (w' : World),
    processScheduledPosts E w = (Ok report, w') ->
    clock E (4 + w_time w) - clock E (w_time w) > 6000 ->
    processed report = 0 /\
    duePosts_after report = selected (clock E (S (S (w_time w)))) (w_posts w) /\
    w_posts w' = w_posts w /\ w_users w' = w_users w /\ w_sent w' = w_sent w.
Proof.
  intros E w report w' Hrun Hlate.
  destruct (run_cases E w)
    as [(e & n & H) | [(Hsel & H) | (due & finals & count & w1 & Hsel & Hne & Hloop & _ & _ & _ & H)]];
    rewrite H in Hrun; [discriminate | |]; injection Hrun as <- <-.
  - simpl. rewrite Hsel. repeat split.
  - destruct due as [|[post user] rest]; [now rewrite <- Hsel in Hne |].
    cbn [process_posts] in Hloop. unfold now in Hloop. rewrite bind_oracle in Hloop.
    change (w_time (Nat.iter 4 advance w)) with (S (S (S (S (w_time w))))) in Hloop.
    replace (clock E (S (S (S (S (w_time w))))) - clock E (w_time w)
             >? MAX_EXECUTION_TIME - 2000) with true in Hloop
      by (symmetry; apply Z.gtb_lt; unfold MAX_EXECUTION_TIME; simpl in Hlate; lia).
    cbv beta iota delta [ret] in Hloop.
    injection Hloop as <- <- <-. simpl. rewrite <- Hsel. repeat split.
Qed.

(** X7. Under a store whose writes go through, a post that has been
    processed is stored with a final status: every document of the
    collection carrying its identifier is the document of the post as the
    iteration left it, with its status, published or failed, so that no
    later query for due posts returns it again. *)
Theorem processed_post_leaves_the_queue :
  forall (E : Env) (w : World) (post : Post) (user : option User) (count : Z),
    reliable_store E ->
    exists post' count' w',
      processPost post user count E w = (Ok (post', count'), w') /\
      (forall p, In p (w_posts w') -> post_id p = post_id post ->
                 p = document post' /\ status p = status post' /\
                 status p <> scheduled) /\
      (forall now_ p, In p (selected now_ (w_posts w')) -> post_id p <> post_id post).
Proof.
  intros E w post user count Hrel.
  destruct (processPost_outcome post user count E w)
    as (settled & w1 & results & w2 & post' & count' & w'
        & _ & _ & Hrun & _ & _ & _ & _ & [(-> & _ & Hposts & _) | (e & _ & _ & _ & Hno)]);
    [| contradiction].
  eexists _, count', w'. split; [exact Hrun |].
  match type of Hposts with _ = store_post (document ?q) _ => set (post1 := q) in * end.
  assert (Hst : status post1 <> scheduled)
    by (subst post1; simpl; destruct (any_success settled); discriminate).
  assert (Hall : forall p, In p (w_posts w') -> post_id p = post_id post ->
                           p = document post1).
  { intros p Hp Hpid. rewrite Hposts in Hp.
    now apply (store_post_replaces p (document post1) (w_posts w) Hp). }
  split.
  - intros p Hp Hpid. rewrite (Hall p Hp Hpid). now repeat split.
  - intros now_ p Hsel Hpid.
    pose proof (in_selected _ _ _ Hsel) as Hp.
    apply in_firstn, filter_In in Hsel as (_ & Hdue).
    apply due_at_spec in Hdue as (Hsched & _).
    rewrite (Hall p Hp Hpid) in Hsched. contradiction.
Qed.

(** X8. Processing never alters what the user scheduled: the post an
    iteration leaves has the identifier, owner, content, platforms,
    scheduled time and media it had.  Its [errorMessage] stays as it was
    when the writes of the post raise no exception; when [post.save()] or
    the update of the owner's counter throws, the post ends [failed] with
    the message of that very exception. *)
Theorem processing_keeps_what_was_scheduled :
  forall (E : Env) (w : World) (post : Post) (user : option User) (count : Z),
    exists settled w1 results w2 post' count' w',
      attempts post user E w = (Ok settled, w1) /\
      collect_all settled E w1 = (Ok results, w2) /\
      processPost post user count E w = (Ok (post', count'), w') /\
      post_id post' = post_id post /\ userId post' = userId post /\
      content post' = content post /\ platforms post' = platforms post /\
      scheduledTime post' = scheduledTime post /\ media post' = media post /\
      let hasSuccess := any_success settled in
      (* the interaction at which the post is saved *)
      let t := if hasSuccess then S (w_time w2) else w_time w2 in
      match write_fault E t hasSuccess with
      | None => errorMessage post' = errorMessage post
      | Some e => status post' = failed /\ errorMessage post' = Some (message e)
      end.
Proof.
  intros E w post user count.
  destruct (processPost_run post user count E w)
    as (settled & w1 & results & w2 & post' & count' & w'
        & Ha & Hc & Hrun & _ & _ & _ & Hcases).
  exists settled, w1, results, w2, post', count', w'.
  split; [exact Ha |]. split; [exact Hc |]. split; [exact Hrun |].
  revert Hcases. cbv zeta. unfold write_fault.
  destruct (any_success settled).
  - destruct (save_error E (S (w_time w2))) as [e|];
      [| destruct (update_error E (S (S (w_time w2)))) as [e|]];
      intros (-> & _); cbn; repeat split.
  - destruct (save_error E (w_time w2)) as [e|];
      intros (-> & _); cbn; repeat split.
Qed.

Lemma total_postToTwitter content tok media acct :
  total (Twitter.postToTwitter content tok media acct).
Proof. apply total_try_catch, total_failure. Qed.

(** X9. The twitter attempt is raced with a five-second timer: when the timer
    fires first the attempt is recorded as the failure "Twitter API
    timeout" whatever the publisher obtained - the requests it sent stay
    sent - and otherwise the publisher's own result is recorded. *)
Theorem twitter_attempt_raced_with_timer :
  forall (E : Env) (w : World) (post : Post) (u : User) (account : Account)
         (token : string),
    connectedAccounts u !! "twitter" = Some account ->
    connected account = true ->
    accessToken account = Some token ->
    nonempty token = true ->
    exists r w1,
      Twitter.postToTwitter (content post) token (media post) (Some account) E w
      = (Ok r, w1) /\
      platformTask post (Some u) "twitter" E w
      = if timer_first E (w_time w1)
        then timed_out_result "twitter" "Twitter API timeout" E w1
        else (Ok {| platform := "twitter"; result := r |}, advance w1).
Proof.
  intros E w post u account token Hacc Hconn Htok Hne.
  destruct (total_postToTwitter (content post) token (media post) (Some account) E w)
    as (r & w1 & Hrun).
  exists r, w1. split; [exact Hrun |].
  unfold platformTask. rewrite bind_ret_l, Hacc, Hconn, Htok, Hne. cbn [negb].
  unfold race_with_timer, timed_out_result.
  unfold bind at 1. unfold try_catch. unfold bind at 1. rewrite Hrun.
  rewrite bind_oracle.
  destruct (timer_first E (w_time w1)); reflexivity.
Qed.

Lemma twitter_attempt_raced_with_timer_witness :
  exists r w1,
    Twitter.postToTwitter (content (draft no_media)) "bearer-token"
      (media (draft no_media)) (Some (account_of true (Some "bearer-token")))
      impatient home = (Ok r, w1) /\
    success r = true /\
    w_sent w1 = [ Twitter.tweetRequest "bearer-token" (VObj [ ("text", VStr "hello") ]) ] /\
    platformTask (draft no_media) (Some alice) "twitter" impatient home
    = timed_out_result "twitter" "Twitter API timeout" impatient w1.
Proof.
  destruct (twitter_attempt_raced_with_timer impatient home (draft no_media) alice
              (account_of true (Some "bearer-token")) "bearer-token"
              eq_refl eq_refl eq_refl eq_refl)
    as (r & w1 & Hrun & Htask).
  exists r, w1. split; [exact Hrun |].
  assert (H : success r = true /\
              w_sent w1 = [ Twitter.tweetRequest "bearer-token"
                              (VObj [ ("text", VStr "hello") ]) ]).
  { clear Htask. vm_compute in Hrun. injection Hrun as <- <-. split; reflexivity. }
  destruct H as (Hs & Hsent). split; [exact Hs |]. split; [exact Hsent |].
  rewrite Htask. reflexivity.
Defined.

(** X10. The cron endpoint always answers, and its answer follows the run: 408
    "Request timeout" when its nine-second timer fires first; otherwise 200
    with the count of the run when the run returned, and 500 "Internal
    server error" with the message of the exception when the run threw.
    The endpoint itself writes nothing and sends nothing. *)
Theorem endpoint_answers_the_run :
  forall (E : Env) (w : World),
    let run := processScheduledPosts E (advance (advance w)) in
    exists resp w',
      endpoint E w = (Ok resp, w') /\
      w_posts w' = w_posts (snd run) /\ w_users w' = w_users (snd run) /\
      w_sent w' = w_sent (snd run) /\
      if timer_first E (w_time (snd run))
      then http_status resp = 408 /\
           field "success" (http_body resp) = VBool false /\
           field "error" (http_body resp) = VStr "Request timeout"
      else match fst run with
           | Ok report =>
               http_status resp = 200 /\
               field "success" (http_body resp) = VBool true /\
               field "processed" (http_body resp) = VNum (processed report)
           | Thrown e =>
               http_status resp = 500 /\
               field "success" (http_body resp) = VBool false /\
               field "error" (http_body resp) = VStr "Internal server error" /\
               field "details" (http_body resp) = VStr (message e)
           end.
Proof.
  intros E w. cbv zeta.
  unfold endpoint, now. rewrite !bind_oracle. unfold bind at 1, settle.
  destruct (processScheduledPosts E (advance (advance w))) as [[report|e] w1];
    rewrite bind_oracle; cbn [fst snd];
    destruct (timer_first E (w_time w1)); rewrite !bind_oracle, bind_ask;
    eexists _, _; (split; [reflexivity |]); cbn [w_posts w_users w_sent advance];
    repeat (split; [reflexivity |]); try reflexivity.
  simpl. unfold js_or. simpl.
  now destruct (processed report =? 0) eqn:Hz; [apply Z.eqb_eq in Hz; rewrite Hz |].
Qed.

Lemma due_posts_found_witness :
  exists due w',
    find_due 4000 calm home = (Ok due, w') /\
    map fst due = [draft no_media] /\
    (length due <= 5)%nat /\
    Forall (fun d => status (fst d) = scheduled) due.
Proof.
  exists [(draft no_media, Some alice)], (advance home).
  destruct (due_posts_found 4000 calm home [(draft no_media, Some alice)] (advance home)
              eq_refl) as (Hlen & Hall & _).
  split; [reflexivity |]. split; [reflexivity |]. split; [exact Hlen |].
  eapply Forall_impl; [exact Hall |]. intros d Hd. apply Hd.
Defined.

Lemma run_leaves_other_posts_witness :
  exists out w',
    processScheduledPosts calm home_with_archive = (out, w') /\
    In archived (w_posts w').
Proof.
  exists (fst (processScheduledPosts calm home_with_archive)),
         (snd (processScheduledPosts calm home_with_archive)).
  split; [now destruct (processScheduledPosts calm home_with_archive) |].
  apply (run_leaves_other_posts calm home_with_archive
           (fst (processScheduledPosts calm home_with_archive))).
  - simpl. constructor; [simpl; intros [H | []]; discriminate H |].
    constructor; [intros [] | constructor].
  - now destruct (processScheduledPosts calm home_with_archive).
  - now left.
  - vm_compute. intros [H | []]. discriminate H.
Defined.

Lemma run_handles_at_most_five_witness :
  exists report w',
    processScheduledPosts calm home = (Ok report, w') /\
    map post_id (duePosts_after report) = [7%nat] /\
    0 <= processed report <= 1.
Proof.
  assert (H : exists report w', processScheduledPosts calm home = (Ok report, w')).
  { do 2 eexists. vm_compute. reflexivity. }
  destruct H as (report & w' & Hrun). exists report, w'. split; [exact Hrun |].
  destruct (run_handles_at_most_five calm home report w' Hrun) as (Hids & _ & Hc).
  split; [exact Hids |].
  assert (Hlen : length (duePosts_after report) = 1%nat)
    by (rewrite <- (length_map post_id), Hids; reflexivity).
  rewrite Hlen in Hc. exact Hc.
Defined.

Lemma idle_run_reports_nothing_witness :
  exists w',
    processScheduledPosts calm nowhere
    = (Ok {| processed := 0; report_message := "No posts to process";
             duePosts_after := [] |}, w') /\
    w_sent w' = [].
Proof.
  destruct (idle_run_reports_nothing calm nowhere eq_refl eq_refl)
    as (w' & Hrun & _ & _ & Hsent).
  - intros p [].
  - exists w'. split; [exact Hrun | exact Hsent].
Defined.

Lemma spent_budget_processes_nothing_witness :
  exists report w',
    processScheduledPosts sluggish home = (Ok report, w') /\
    processed report = 0 /\
    duePosts_after report = [draft no_media] /\
    w_posts w' = [draft no_media] /\ w_sent w' = [].
Proof.
  assert (H : exists report w', processScheduledPosts sluggish home = (Ok report, w')).
  { do 2 eexists. vm_compute. reflexivity. }
  destruct H as (report & w' & Hrun). exists report, w'. split; [exact Hrun |].
  destruct (spent_budget_processes_nothing sluggish home report w' Hrun)
    as (Hc & Hd & Hp & _ & Hs); [vm_compute; reflexivity |].
  split; [exact Hc |]. split; [exact Hd |]. split; [exact Hp | exact Hs].
Defined.

Lemma processed_post_leaves_the_queue_witness :
  exists post' count' w',
    processPost (draft no_media) (Some alice) 0 calm home = (Ok (post', count'), w') /\
    forall now_, selected now_ (w_posts w') = [].
Proof.
  destruct (processed_post_leaves_the_queue calm home (draft no_media) (Some alice) 0)
    as (post' & count' & w' & Hrun & Hall & Hsel).
  { intros t. split; reflexivity. }
  exists post', count', w'. split; [exact Hrun |].
  intros now_.
  assert (Hposts : map post_id (w_posts w') = [7%nat]).
  { clear -Hrun. vm_compute in Hrun. now injection Hrun as _ _ <-. }
  destruct (selected now_ (w_posts w')) as [|p rest] eqn:Hs; [reflexivity |].
  exfalso. apply (Hsel now_ p); [rewrite Hs; now left |].
  assert (Hp : In p (w_posts w')) by (eapply in_selected; rewrite Hs; now left).
  apply (in_map post_id) in Hp. rewrite Hposts in Hp.
  destruct Hp as [<- | []]. reflexivity.
Defined.

(* ================================================================== *)
(** ** Twitter: uploads and the tweet *)
(* ================================================================== *)

Lemma getenv_pair E ck cs :
  app_credentials E = Some (ck, cs) ->
  env_var E "TWITTER_API_KEY" = Some ck /\ nonempty ck = true /\
  env_var E "TWITTER_API_SECRET" = Some cs /\ nonempty cs = true.
Proof.
  unfold app_credentials.
  destruct (env_var E "TWITTER_API_KEY") as [k|]; [| discriminate].
  destruct (env_var E "TWITTER_API_SECRET") as [s|]; [| discriminate].
  destruct (nonempty k) eqn:Hk, (nonempty s) eqn:Hs; try discriminate.
  intros H. injection H as <- <-. auto.
Qed.

(** X11. The uploader gives up before contacting Twitter when the media cannot
    be downloaded or the application's credentials are not configured: it
    throws, and the download is the only request it has made. *)
Theorem upload_gives_up_before_twitter :
  forall (E : Env) (w : World) (imageUrl tok sec : string),
    let out := Twitter.uploadMediaToTwitterV1 imageUrl tok sec E w in
    let downloaded := record_request (GET imageUrl) w in
    (forall e, net E (w_time w) (GET imageUrl) = NetFail e ->
       out = (Thrown e, downloaded)) /\
    (forall r, net E (w_time w) (GET imageUrl) = NetReply r -> ok r = false ->
       out = (Thrown (Error ("Failed to fetch media: " +:+ pretty (status_code r))),
              downloaded)) /\
    (forall r, net E (w_time w) (GET imageUrl) = NetReply r -> ok r = true ->
       app_credentials E = None ->
       out = (Thrown (Error "Missing Twitter OAuth 1.0a app credentials"), downloaded)).
Proof.
  intros E w imageUrl tok sec. cbv zeta.
  unfold Twitter.uploadMediaToTwitterV1. rewrite try_catch_rethrow, bind_fetch.
  split; [| split].
  - intros e ->. reflexivity.
  - intros r -> Hok. rewrite bind_throw_if, Hok. reflexivity.
  - intros r -> Hok Hcred. rewrite bind_throw_if, Hok. cbn [negb].
    unfold getenv. rewrite !bind_ask. unfold app_credentials in Hcred.
    destruct (env_var E "TWITTER_API_KEY") as [k|]; [| reflexivity].
    destruct (env_var E "TWITTER_API_SECRET") as [s|];
      [| destruct (nonempty k); reflexivity].
    destruct (nonempty k), (nonempty s); try reflexivity. discriminate Hcred.
Qed.

(** X12. A source whose address does not contain [.gif] is uploaded in one
    signed POST carrying the whole image base64-encoded in the
    [tweet_image] category; the uploader returns the [media_id_string] of
    the answer, and throws "Twitter media upload failed" on an answer
    that is not 2xx. *)
Theorem still_image_uses_simple_upload :
  forall (E : Env) (w : World) (imageUrl tok sec : string) (r : Response)
         (ck cs : string),
    includes ".gif" (toLowerCase imageUrl) = false ->
    net E (w_time w) (GET imageUrl) = NetReply r ->
    ok r = true ->
    app_credentials E = Some (ck, cs) ->
    let upload := simple_upload E (S (w_time w)) (arrayBuffer r) ck cs tok sec in
    exists res w',
      Twitter.uploadMediaToTwitterV1 imageUrl tok sec E w = (res, w') /\
      w_sent w' = w_sent w ++ [GET imageUrl; upload] /\
      method upload = "POST" /\
      body upload = Form [ ("media_data", base64 E (arrayBuffer r));
                           ("media_category", "tweet_image") ] /\
      match net E (3 + w_time w) upload with
      | NetFail e => res = Thrown e
      | NetReply u =>
          if ok u
          then forall v, json u = Some v -> nullish v = false ->
                         res = Ok (member v "media_id_string")
          else res = Thrown (Error ("Twitter media upload failed: "
                                    +:+ pretty (status_code u)))
      end.
Proof.
  intros E w imageUrl tok sec r ck cs Hgif Hnet Hok Hcred. cbv zeta.
  apply getenv_pair in Hcred as (Hck & Hck' & Hcs & Hcs').
  unfold Twitter.uploadMediaToTwitterV1. rewrite try_catch_rethrow.
  rewrite bind_fetch, Hnet, bind_throw_if, Hok. cbn [negb].
  unfold getenv. rewrite !bind_ask, Hck, Hck', Hcs, Hcs', Hgif.
  unfold Twitter.uploadImageSimple.
  rewrite bind_ask, bind_generateOAuthHeader, bind_fetch. run_norm.
  unfold simple_upload, signed_at. cbn [Nat.add].
  match goal with
  | |- context [net E ?t ?q] => destruct (net E t q) as [e|u] eqn:Hup
  end.
  - eexists _, _. split; [reflexivity |]. run_norm.
    split; [now rewrite <- app_assoc |]. repeat split.
  - rewrite bind_throw_if. destruct (ok u) eqn:Hu; cbn [negb].
    + rewrite bind_json_of. destruct (json u) as [v|] eqn:Hv.
      * unfold prop. destruct (nullish v) eqn:Hn;
          (eexists _, _; split; [reflexivity |]; run_norm;
           split; [now rewrite <- app_assoc |]; repeat split);
          intros v' Hv' Hn'; injection Hv' as <-; congruence.
      * eexists _, _. split; [reflexivity |]. run_norm.
        split; [now rewrite <- app_assoc |]. repeat split. discriminate.
    + eexists _, _. split; [reflexivity |]. run_norm.
      split; [now rewrite <- app_assoc |]. repeat split.
Qed.

Lemma still_image_uses_simple_upload_witness :
  exists w',
    Twitter.uploadMediaToTwitterV1 "https://res.cloudinary.com/demo/cat.jpg"
      "legacy-token" "legacy-secret" media_accepted nowhere
    = (Ok (VStr "710511363345354753"), w') /\
    map method (w_sent w') = ["GET"; "POST"].
Proof.
  destruct (still_image_uses_simple_upload media_accepted nowhere
              "https://res.cloudinary.com/demo/cat.jpg" "legacy-token" "legacy-secret"
              (reply 200 (Some (VObj [ ("media_id_string", VStr "710511363345354753") ])))
              "app-credential" "app-credential"
              eq_refl eq_refl eq_refl eq_refl)
    as (res & w' & Hrun & Hsent & _ & _ & Hres).
  exists w'. split.
  - rewrite Hrun. f_equal. simpl in Hres. now apply (Hres _ eq_refl eq_refl).
  - rewrite Hsent. reflexivity.
Defined.

Lemma state_switch {A} (P : A -> Prop) (v : Value) (a b c : A) :
  P a -> P b -> P c ->
  P (match v with
     | VStr "succeeded" => a
     | VStr "failed" => b
     | _ => c
     end).
Proof.
  intros Ha Hb Hc.
  repeat match goal with
         | |- P (match ?x with _ => _ end) => destruct x
         end; assumption.
Qed.

Lemma waitForProcessing_loop_bounded mediaId ck cs tok sec n :
  forall E w,
  exists res w' polls,
    Twitter.waitForProcessing_loop n mediaId ck cs tok sec E w = (res, w') /\
    w_sent w' = w_sent w ++ polls /\
    (length polls <= n)%nat /\
    Forall (fun q => method q = "GET" /\
                     exists header, q = Twitter.statusRequest E header mediaId) polls /\
    (forall v, res = Ok v -> v = mediaId /\ polls <> []) /\
    ((forall t q, exists r, net E t q = NetReply r /\ ok r = false) ->
     length polls = n /\
     res = Thrown (Error "GIF processing timeout - exceeded maximum wait time")).
Proof.
  induction n as [|n IH]; intros E w; cbn [Twitter.waitForProcessing_loop].
  - exists (Thrown (Error "GIF processing timeout - exceeded maximum wait time")), w, [].
    split; [reflexivity |]. split; [now rewrite app_nil_r |]. split; [simpl; lia |].
    split; [constructor |]. split; [discriminate | auto].
  - unfold sleep. rewrite bind_oracle, bind_generateOAuthHeader, bind_ask, bind_fetch.
    run_norm.
    match goal with
    | |- context [net E ?t ?q] =>
        set (poll := q);
        assert (Hpoll : method poll = "GET" /\
                        exists header, poll = Twitter.statusRequest E header mediaId)
          by (split; [reflexivity | eexists; reflexivity]);
        destruct (net E t poll) as [e|r] eqn:Hnet
    end.
    + exists (Thrown e), (record_request poll (advance (advance (advance w)))), [poll].
      split; [reflexivity |]. split; [reflexivity |]. split; [simpl; lia |].
      split; [now constructor |]. split; [discriminate |].
      intros Hrefuse. destruct (Hrefuse (S (S (S (w_time w)))) poll) as (r & Hr & _).
      congruence.
    + assert (Hcont : forall w0, w_sent w0 = w_sent w ++ [poll] ->
                 exists res w' polls,
                   Twitter.waitForProcessing_loop n mediaId ck cs tok sec E w0 = (res, w') /\
                   w_sent w' = w_sent w ++ polls /\
                   (length polls <= S n)%nat /\
                   Forall (fun q => method q = "GET" /\
                              exists header, q = Twitter.statusRequest E header mediaId)
                          polls /\
                   (forall v, res = Ok v -> v = mediaId /\ polls <> []) /\
                   ((forall t q, exists r, net E t q = NetReply r /\ ok r = false) ->
                    length polls = S n /\
                    res = Thrown (Error "GIF processing timeout - exceeded maximum wait time"))).
      { intros w0 Hw0. destruct (IH E w0) as (res & w' & polls & Hrun & Hs & Hl & Hf & Hv & Hr).
        exists res, w', (poll :: polls). split; [exact Hrun |].
        split; [rewrite Hs, Hw0; now rewrite <- app_assoc |].
        split; [simpl; lia |]. split; [now constructor |].
        split; [intros v Hres; split; [now apply Hv | discriminate] |].
        intros Hrefuse. destruct (Hr Hrefuse) as (Hlen & Hres).
        split; [simpl; now rewrite Hlen | exact Hres]. }
      destruct (ok r) eqn:Hok; cbn [negb]; [| apply Hcont; reflexivity].
      assert (Hstop : forall res,
                 (forall v, res = Ok v -> v = mediaId) ->
                 exists res0 w' polls,
                   (res, record_request poll (advance (advance (advance w)))) = (res0, w') /\
                   w_sent w' = w_sent w ++ polls /\
                   (length polls <= S n)%nat /\
                   Forall (fun q => method q = "GET" /\
                              exists header, q = Twitter.statusRequest E header mediaId)
                          polls /\
                   (forall v, res0 = Ok v -> v = mediaId /\ polls <> []) /\
                   ((forall t q, exists r, net E t q = NetReply r /\ ok r = false) ->
                    length polls = S n /\
                    res0 = Thrown (Error "GIF processing timeout - exceeded maximum wait time"))).
      { intros res Hres. exists res, (record_request poll (advance (advance (advance w)))), [poll].
        split; [reflexivity |]. split; [reflexivity |]. split; [simpl; lia |].
        split; [now constructor |].
        split; [intros v Hv; split; [now apply Hres | discriminate] |].
        intros Hrefuse. destruct (Hrefuse (S (S (S (w_time w)))) poll) as (r' & Hr' & Hok').
        congruence. }
      rewrite bind_json_of. destruct (json r) as [statusResult|];
        [| apply Hstop; discriminate].
      rewrite bind_prop. destruct (nullish statusResult); [apply Hstop; discriminate |].
      apply state_switch.
      * apply Hstop. intros v Hv. now injection Hv as <-.
      * apply Hstop. discriminate.
      * rewrite bind_oracle. apply Hcont. reflexivity.
Qed.

(** X13. The polling helper [waitForProcessing] makes at most ten status
    checks, each a GET of the upload endpoint with [command=STATUS] for
    the media it was given; a value it returns is that media identifier,
    after at least one check; and when every check is refused it gives up
    with "GIF processing timeout" after exactly ten. *)
Theorem polling_is_bounded :
  forall (E : Env) (w : World) (mediaId : Value) (ck cs tok sec : string),
    exists res w' polls,
      Twitter.waitForProcessing mediaId ck cs tok sec E w = (res, w') /\
      w_sent w' = w_sent w ++ polls /\
      (length polls <= 10)%nat /\
      Forall (fun q => method q = "GET" /\
                       exists header, q = Twitter.statusRequest E header mediaId) polls /\
      (forall v, res = Ok v -> v = mediaId /\ polls <> []) /\
      ((forall t q, exists r, net E t q = NetReply r /\ ok r = false) ->
       length polls = 10%nat /\
       res = Thrown (Error "GIF processing timeout - exceeded maximum wait time")).
Proof.
  intros E w mediaId ck cs tok sec. unfold Twitter.waitForProcessing.
  apply waitForProcessing_loop_bounded.
Qed.

Lemma sends_uploadMediaToTwitterV1_media imageUrl t s :
  sends_only media_traffic (Twitter.uploadMediaToTwitterV1 imageUrl t s).
Proof.
  unfold Twitter.uploadMediaToTwitterV1, Twitter.uploadGifChunked,
    Twitter.uploadImageSimple.
  repeat frame_step; try apply sends_generateOAuthHeader;
    first [left; reflexivity | right; reflexivity].
Qed.

Lemma sends_upload_all_media items t s ids :
  sends_only media_traffic (Twitter.upload_all items t s ids).
Proof.
  revert ids. induction items as [|item rest IH]; intros ids; simpl.
  - apply sends_ret.
  - destruct (item_source item) as [imageUrl|]; [| apply IH].
    destruct (nonempty imageUrl); [| apply IH].
    apply sends_bind; [apply sends_uploadMediaToTwitterV1_media | intros mediaId; apply IH].
Qed.

(** What [tweetData] holds when the tweet is about to be sent. *)
Lemma prepare_tweet_spec content media acct E w :
  exists tweetData w1 uploads,
    Twitter.prepare_tweet content media acct E w = (Ok tweetData, w1) /\
    w_sent w1 = w_sent w ++ uploads /\
    Forall media_traffic uploads /\
    (tweetData = text_only content \/
     exists mediaIds,
       mediaIds <> [] /\
       tweetData = VObj [ ("text", VStr content);
                          ("media", VObj [ ("media_ids", VArr mediaIds) ]) ]).
Proof.
  assert (Hnone : exists tweetData w1 uploads,
             (Ok (text_only content), w) = (Ok tweetData, w1) /\
             w_sent w1 = w_sent w ++ uploads /\
             Forall media_traffic uploads /\
             (tweetData = text_only content \/
              exists mediaIds,
                mediaIds <> [] /\
                tweetData = VObj [ ("text", VStr content);
                                   ("media", VObj [ ("media_ids", VArr mediaIds) ]) ])).
  { exists (text_only content), w, []. split; [reflexivity |].
    split; [now rewrite app_nil_r |]. split; [constructor | now left]. }
  unfold Twitter.prepare_tweet.
  destruct (media_present media); [| exact Hnone].
  destruct (Twitter.legacy_pair acct) as [[token secret]|]; [| exact Hnone].
  unfold try_catch, bind.
  match goal with
  | |- context [Twitter.upload_all ?items token secret [] E w] =>
      pose proof (sends_upload_all_media items token secret [] E w) as Hframe;
      destruct (Twitter.upload_all items token secret [] E w) as [[mediaIds|e] w1]
  end; destruct Hframe as (_ & _ & _ & uploads & Hsent & Hall); simpl in Hsent.
  - destruct mediaIds as [|mediaId more]; simpl;
      eexists _, w1, uploads; (split; [reflexivity |]);
      (split; [exact Hsent |]); (split; [exact Hall |]).
    + now left.
    + right. eexists. split; [| reflexivity]. discriminate.
  - exists (text_only content), w1, uploads. repeat split; auto.
Qed.

(** X14. A call of [postToTwitter] creates at most one tweet, with its last
    request: everything it sends before is a download or a call to the
    upload endpoint, the tweet carries the content as its text, with
    either no media or a non-empty list of media identifiers, and a call
    that sent no tweet reports a failure. *)
Theorem twitter_posts_once :
  forall (E : Env) (w : World) (content tok : string) (media : Media)
         (acct : option Account),
    exists r w' uploads,
      Twitter.postToTwitter content tok media acct E w = (Ok r, w') /\
      Forall media_traffic uploads /\
      ( (w_sent w' = w_sent w ++ uploads /\ success r = false) \/
        (exists tweetData,
           w_sent w' = w_sent w ++ uploads ++ [Twitter.tweetRequest tok tweetData] /\
           member tweetData "text" = VStr content /\
           (member tweetData "media" = VUndef \/
            exists mediaIds, mediaIds <> [] /\
              member tweetData "media" = VObj [ ("media_ids", VArr mediaIds) ])) ).
Proof.
  intros E w content tok media acct.
  destruct (prepare_tweet_spec content media acct E w)
    as (tweetData & w1 & uploads & Hprep & Hsent & Hall & Hdata).
  assert (Htweet : member tweetData "text" = VStr content /\
                   (member tweetData "media" = VUndef \/
                    exists mediaIds, mediaIds <> [] /\
                      member tweetData "media" = VObj [ ("media_ids", VArr mediaIds) ])).
  { destruct Hdata as [-> | (mediaIds & Hne & ->)]; (split; [reflexivity |]);
      [now left | right; now exists mediaIds]. }
  unfold Twitter.postToTwitter, try_catch, succeeded, failure, now.
  rewrite (bind_Ok _ _ _ _ _ _ Hprep), bind_throw_if.
  destruct (nonempty tok); cbn [negb].
  - run_all.
    all: eexists _, _, uploads; (split; [reflexivity |]); (split; [exact Hall |]).
    all: right; exists tweetData; split; [run_norm; rewrite Hsent; now rewrite app_assoc |].
    all: exact Htweet.
  - rewrite bind_oracle. eexists _, _, uploads. split; [reflexivity |].
    split; [exact Hall |]. left. split; [exact Hsent | reflexivity].
Qed.

(** X15. Without an access token nothing is tweeted: the publisher returns the
    failure "No access token provided" - after the media uploads, if the
    post has media and the account its OAuth 1.0a pair. *)
Theorem tweet_needs_access_token :
  forall (E : Env) (w : World) (content : string) (media : Media)
         (acct : option Account),
    exists r w' uploads,
      Twitter.postToTwitter content EmptyString media acct E w = (Ok r, w') /\
      success r = false /\
      error r = Some "No access token provided" /\
      w_sent w' = w_sent w ++ uploads /\
      Forall media_traffic uploads.
Proof.
  intros E w content media acct.
  destruct (prepare_tweet_spec content media acct E w)
    as (tweetData & w1 & uploads & Hprep & Hsent & Hall & _).
  unfold Twitter.postToTwitter, try_catch, failure, now.
  rewrite (bind_Ok _ _ _ _ _ _ Hprep), bind_throw_if. cbn [nonempty negb String.eqb].
  rewrite bind_oracle. eexists _, _, uploads. split; [reflexivity |].
  repeat split; assumption.
Qed.

(** X16. A failed media upload does not fail the tweet: as soon as one upload
    throws, the remaining items are given up, the identifiers already
    obtained are dropped, and the publisher goes on exactly as for a post
    without media. *)
Theorem tweet_falls_back_to_text :
  forall (E : Env) (w : World) (content tok : string) (items : list MediaItem)
         (acct : option Account) (token secret : string) (e : Exn) (w1 : World),
    items <> [] ->
    Twitter.legacy_pair acct = Some (token, secret) ->
    Twitter.upload_all items token secret [] E w = (Thrown e, w1) ->
    Twitter.postToTwitter content tok (MediaArray items) acct E w
    = Twitter.postToTwitter content tok MediaNull acct E w1.
Proof.
  intros E w content tok items acct token secret e w1 Hne Hpair Hup.
  assert (Hl : Twitter.prepare_tweet content (MediaArray items) acct E w
               = (Ok (text_only content), w1)).
  { unfold Twitter.prepare_tweet. rewrite Hpair.
    destruct items as [|item rest]; [contradiction |].
    cbn [media_present length Nat.eqb negb]. unfold try_catch, bind.
    now rewrite Hup. }
  assert (Hr : Twitter.prepare_tweet content MediaNull acct E w1
               = (Ok (text_only content), w1)) by reflexivity.
  unfold Twitter.postToTwitter, try_catch.
  now rewrite (bind_Ok _ _ _ _ _ _ Hl), (bind_Ok _ _ _ _ _ _ Hr).
Qed.

Lemma tweet_falls_back_to_text_witness :
  exists r w',
    Twitter.postToTwitter "hello" "bearer-token" (MediaArray [cat; dog])
      (Some dual_account) media_gone nowhere = (Ok r, w') /\
    success r = true /\
    w_sent w' = [ GET "https://res.cloudinary.com/demo/cat.jpg";
                  Twitter.tweetRequest "bearer-token" (text_only "hello") ].
Proof.
  assert (Hup : exists e w1,
             Twitter.upload_all [cat; dog] "legacy-token" "legacy-secret" [] media_gone nowhere
             = (Thrown e, w1)).
  { do 2 eexists. vm_compute. reflexivity. }
  destruct Hup as (e & w1 & Hup).
  rewrite (tweet_falls_back_to_text media_gone nowhere "hello" "bearer-token" [cat; dog]
             (Some dual_account) "legacy-token" "legacy-secret" e w1);
    [| discriminate | reflexivity | exact Hup].
  vm_compute in Hup. injection Hup as <- <-.
  do 2 eexists. split; [vm_compute; reflexivity |]. split; reflexivity.
Defined.

(** X17. Media stored in the one-object format [{hasMedia: true, cloudinaryUrl}]
    is published by Twitter and by LinkedIn exactly as the one-item array
    holding that object. *)
Theorem single_object_media_is_one_item :
  forall (content tok : string) (item : MediaItem) (acct : option Account),
    Twitter.postToTwitter content tok (MediaObject true item) acct
    = Twitter.postToTwitter content tok (MediaArray [item]) acct /\
    Linkedin.postToLinkedin content tok (MediaObject true item)
    = Linkedin.postToLinkedin content tok (MediaArray [item]).
Proof. intros content tok item acct. split; reflexivity. Qed.

(* ================================================================== *)
(** ** Publishers: one submission, and it comes last *)
(* ================================================================== *)

Lemma silent_sent {A} (m : M A) E w : silent m -> w_sent (snd (m E w)) = w_sent w.
Proof.
  intros H. destruct (H E w) as (_ & _ & _ & reqs & Hs & Hall).
  destruct reqs as [|q reqs]; [now rewrite app_nil_r in Hs |].
  inversion Hall as [|? ? []].
Qed.

Section SubmitsLast.

Variables N T : Request -> Prop.

Lemma submits_last_fetch {A} (q : Request) (rest : Response -> M A) :
  T q -> (forall r, silent (rest r)) -> submits_last N T (bind (fetch q) rest).
Proof.
  intros Hq Hrest E w. exists []. split; [constructor |]. right.
  exists q. split; [exact Hq |]. rewrite bind_fetch.
  destruct (net E (w_time w) q) as [e|r]; [reflexivity |].
  now rewrite (silent_sent _ _ _ (Hrest r)).
Qed.

Lemma submits_last_bind_returns {A B} (Q : A -> Prop) (m : M A) (f : A -> M B) :
  sends_only N m -> returns Q m ->
  (forall a, Q a -> submits_last N T (f a)) ->
  submits_last N T (bind m f).
Proof.
  intros Hm HQ Hf E w. unfold bind.
  pose proof (Hm E w) as (_ & _ & _ & reqs & Hs & Hall).
  destruct (m E w) as [[a|e] w1] eqn:Hrun; simpl in Hs.
  - destruct (Hf a (HQ E w a w1 Hrun) E w1) as (before & Hb & Hcases).
    exists (reqs ++ before). split; [apply Forall_app; now split |].
    rewrite Hs in Hcases.
    destruct Hcases as [(H1 & H2) | (q & Hq & H1)];
      [left; split; [now rewrite H1, app_assoc | exact H2]
      | right; exists q; split; [exact Hq | now rewrite H1, !app_assoc]].
  - exists reqs. split; [exact Hall |]. left. split; [exact Hs | now exists e].
Qed.

Lemma submits_last_bind {A B} (m : M A) (f : A -> M B) :
  sends_only N m -> (forall a, submits_last N T (f a)) ->
  submits_last N T (bind m f).
Proof.
  intros Hm Hf. apply (submits_last_bind_returns (fun _ => True)); auto.
  intros E w a w1 _. exact I.
Qed.

(** A publisher whose body submits last: it returns, and either it
    reports a failure having submitted nothing, or its last request is
    the submission. *)
Lemma publisher_submits_last (body : M PublishResult) :
  submits_last N T body ->
  forall E w, exists r w' before,
    try_catch body failure E w = (Ok r, w') /\
    Forall N before /\
    ( (w_sent w' = w_sent w ++ before /\ success r = false) \/
      (exists q, T q /\ w_sent w' = w_sent w ++ before ++ [q]) ).
Proof.
  intros Hbody E w. destruct (Hbody E w) as (before & Hb & Hcases).
  unfold try_catch. destruct (body E w) as [[r|e] w1]; simpl in Hcases.
  - exists r, w1, before. split; [reflexivity |]. split; [exact Hb |].
    destruct Hcases as [(_ & e & He) | H]; [discriminate He | now right].
  - unfold failure, now. rewrite bind_oracle.
    eexists _, _, before. split; [reflexivity |]. split; [exact Hb |].
    destruct Hcases as [(Hs & _) | H]; [left; now split | right; exact H].
Qed.

End SubmitsLast.

Ltac silence := unfold silent; repeat frame_step.

Lemma sends_check_api_errors_any P result :
  sends_only P (Reddit.check_api_errors result).
Proof.
  unfold Reddit.check_api_errors.
  apply sends_bind; [apply sends_prop | intros j].
  apply sends_bind; [apply sends_ask | intros [|]]; repeat frame_step.
Qed.

Lemma sends_succeeded P a b : sends_only P (succeeded a b).
Proof. unfold succeeded. repeat frame_step. Qed.

Lemma sends_lease_and_upload_steps what item imageUrl tok :
  sends_only (fun q => is_submission q = false)
    (Reddit.lease_and_upload what item imageUrl tok).
Proof.
  assert (Hf : forall l, sends_only (fun q => is_submission q = false)
                           (Reddit.append_fields l)).
  { induction l as [|f rest IH]; simpl; repeat frame_step. exact IH. }
  unfold Reddit.lease_and_upload, Reddit.lease_form.
  repeat frame_step; try apply Hf; reflexivity.
Qed.

Lemma sends_upload_gallery_steps items tok acc :
  sends_only (fun q => is_submission q = false) (Reddit.upload_gallery items tok acc).
Proof.
  revert acc. induction items as [|item rest IH]; intros acc; simpl.
  - apply sends_ret.
  - unfold Reddit.uploadMediaForGallery. repeat frame_step; try apply IH.
    apply sends_lease_and_upload_steps.
Qed.

Lemma postToReddit_submits_last content tok media acct customSubreddit :
  forall E w, exists r w' uploads,
    Reddit.postToReddit content tok media acct customSubreddit E w = (Ok r, w') /\
    Forall (fun q => is_submission q = false) uploads /\
    ( (w_sent w' = w_sent w ++ uploads /\ success r = false) \/
      (exists q, reddit_submission (Reddit.target customSubreddit) content q /\
                 w_sent w' = w_sent w ++ uploads ++ [q]) ).
Proof.
  unfold Reddit.postToReddit. apply publisher_submits_last. cbv zeta.
  set (subreddit := Reddit.target customSubreddit).
  assert (Htext : forall rest : Response -> M PublishResult,
             (forall r, silent (rest r)) ->
             submits_last (fun q => is_submission q = false)
               (reddit_submission subreddit content)
               (bind (fetch (Reddit.submitRequest tok (Reddit.selfPost subreddit content)))
                     rest)).
  { intros rest Hrest. apply submits_last_fetch; [| exact Hrest].
    repeat split. }
  destruct (media_present media).
  - destruct media as [| hasMedia item | [| item1 [| item2 rest]]].
    + apply Htext. intros r. silence. apply sends_succeeded.
    + apply Htext. intros r. silence. apply sends_succeeded.
    + apply Htext. intros r. silence. apply sends_succeeded.
    + unfold Reddit.post_single_image. apply submits_last_bind.
      * unfold Reddit.uploadImageToRedditAsset. repeat frame_step.
        apply sends_lease_and_upload_steps.
      * intros uploadResult. apply submits_last_fetch; [repeat split |].
        intros r. silence; first [apply sends_check_api_errors_any | apply sends_succeeded].
    + unfold Reddit.post_gallery. apply submits_last_bind.
      * apply sends_upload_gallery_steps.
      * intros galleryItems. apply submits_last_fetch; [repeat split |].
        intros r. silence; first [apply sends_check_api_errors_any | apply sends_succeeded].
  - apply Htext. intros r. silence;
      first [apply sends_check_api_errors_any | apply sends_succeeded].
Qed.

(** X18. A call of [postToReddit] makes at most one submission, with its last
    request: what it sends before are the steps of the uploads; the
    submission is a POST carrying [api_type=json], the first 300 code
    units of the content as its title, and as subreddit the custom one,
    trimmed, or [test] when none is given or it is blank; a call that
    submitted nothing reports a failure. *)
Theorem reddit_submits_once_to_its_subreddit :
  forall (E : Env) (w : World) (content tok : string) (media : Media)
         (acct : option Account) (customSubreddit : option string),
    (exists r w' uploads,
       Reddit.postToReddit content tok media acct customSubreddit E w = (Ok r, w') /\
       Forall (fun q => is_submission q = false) uploads /\
       ( (w_sent w' = w_sent w ++ uploads /\ success r = false) \/
         (exists q, reddit_submission (Reddit.target customSubreddit) content q /\
                    w_sent w' = w_sent w ++ uploads ++ [q]) )) /\
    Reddit.target None = "test" /\
    (forall s, trim s = EmptyString -> Reddit.target (Some s) = "test") /\
    (forall s, trim s <> EmptyString -> Reddit.target (Some s) = trim s).
Proof.
  intros E w content tok media acct customSubreddit.
  split; [apply postToReddit_submits_last |]. split; [reflexivity |]. split.
  - intros s Hs. unfold Reddit.target. now rewrite Hs.
  - intros s Hs. unfold Reddit.target, nonempty.
    destruct (String.eqb_spec (trim s) EmptyString) as [Heq | _]; [contradiction | reflexivity].
Qed.

(** White space around a custom subreddit is dropped, the no-break space
    (code unit 160) included; a subreddit made of white space is none. *)
Example custom_subreddit_is_trimmed :
  Reddit.target (Some (String (ascii_of_nat 160) (String (ascii_of_nat 9) "pics ")))
  = "pics" /\
  Reddit.target (Some (String (ascii_of_nat 160) " ")) = "test".
Proof. split; reflexivity. Qed.

(** X19. The orchestrator passes the subreddit [test] to the Reddit publisher:
    whatever the post and its owner, every submission a scheduled Reddit
    attempt makes goes to [test]. *)
Theorem scheduled_reddit_posts_go_to_test :
  forall (E : Env) (w : World) (post : Post) (u : User),
    exists reqs,
      w_sent (snd (platformTask post (Some u) "reddit" E w)) = w_sent w ++ reqs /\
      Forall (fun q => is_submission q = true -> submitted "sr" q = VStr "test") reqs.
Proof.
  intros E w post u. unfold platformTask. rewrite bind_ret_l.
  assert (Hre : forall msg,
             exists reqs,
               w_sent (snd (bind (refusal msg)
                              (fun r => ret {| platform := "reddit"; result := r |}) E w))
               = w_sent w ++ reqs /\
               Forall (fun q => is_submission q = true -> submitted "sr" q = VStr "test")
                      reqs).
  { intros msg. exists []. split; [simpl; now rewrite app_nil_r | constructor]. }
  destruct (connectedAccounts u !! "reddit") as [account|]; [| apply Hre].
  destruct (negb (connected account)); [apply Hre |].
  destruct (accessToken account) as [token|]; [| apply Hre].
  destruct (nonempty token); [| apply Hre].
  cbv beta iota.
  destruct (postToReddit_submits_last (content post) token (media post) (Some account)
              (Some "test") E w) as (r & w' & uploads & Hrun & Hup & Hcases).
  unfold bind, try_catch. rewrite Hrun. simpl snd.
  assert (Hquiet : Forall (fun q => is_submission q = true -> submitted "sr" q = VStr "test")
                     uploads).
  { eapply Forall_impl; [exact Hup |]. intros q Hq. simpl in Hq. congruence. }
  destruct Hcases as [(Hs & _) | (q & Hq & Hs)].
  - exists uploads. now split.
  - exists (uploads ++ [q]). split; [exact Hs |].
    apply Forall_app. split; [exact Hquiet |]. constructor; [| constructor].
    intros _. apply Hq.
Qed.

(* ------------------------------------------------------------------ *)

Lemma not_share_GET u : ~ is_share (GET u).
Proof. intros [H _]. discriminate H. Qed.

Lemma sends_uploadImageToLinkedin_steps imageUrl tok urn :
  sends_only (fun q => ~ is_share q) (Linkedin.uploadImageToLinkedin imageUrl tok urn).
Proof.
  unfold Linkedin.uploadImageToLinkedin. repeat frame_step;
    first [apply not_share_GET | intros [H _]; discriminate H | intros [_ H]; discriminate H].
Qed.

Lemma sends_upload_images_steps items tok urn acc :
  sends_only (fun q => ~ is_share q) (Linkedin.upload_images items tok urn acc).
Proof.
  revert acc. induction items as [|item rest IH]; intros acc; simpl.
  - apply sends_ret.
  - apply sends_bind; [apply sends_uploadImageToLinkedin_steps | intros a; apply IH].
Qed.

Lemma upload_images_length items tok urn :
  forall acc,
    returns (fun l => length l = (length acc + length items)%nat)
      (Linkedin.upload_images items tok urn acc).
Proof.
  induction items as [|item rest IH]; intros acc E w l w' H; simpl in H.
  - injection H as <- _. simpl. lia.
  - apply bind_inv_Ok in H as (a & w1 & _ & H).
    apply IH in H. rewrite H, length_app. simpl. lia.
Qed.

(** X20. A call of [postToLinkedin] shares at most once, with its last
    request, and never in part: what it sends before - the profile
    lookup, then for each image its registration, its download and its
    PUT - is no share; the share is a text share for a post without
    media, and otherwise an image share listing one asset for every
    attached image, the first four of an array at most; a call that
    shared nothing reports a failure. *)
Theorem linkedin_shares_once_and_whole :
  forall (E : Env) (w : World) (content tok : string) (media : Media),
    exists r w' before,
      Linkedin.postToLinkedin content tok media E w = (Ok r, w') /\
      Forall (fun q => ~ is_share q) before /\
      ( (w_sent w' = w_sent w ++ before /\ success r = false) \/
        (exists q, linkedin_share tok content media q /\
                   w_sent w' = w_sent w ++ before ++ [q]) ).
Proof.
  intros E w content tok media. revert E w.
  unfold Linkedin.postToLinkedin. apply publisher_submits_last.
  apply submits_last_bind; [apply sends_fetch; intros [H _]; discriminate H |].
  intros profileResponse.
  apply submits_last_bind; [apply sends_throw_if | intros _].
  apply submits_last_bind; [apply sends_json_of | intros profileData].
  apply submits_last_bind; [apply sends_prop | intros sub]. cbv zeta.
  set (personUrn := "urn:li:person:" +:+ to_js_string sub).
  apply (submits_last_bind_returns _ _
           (fun shareData =>
              if media_present media
              then exists assetUrns,
                     length assetUrns = attached media /\
                     shareData = Linkedin.imageShare personUrn content assetUrns
              else shareData = Linkedin.textShare personUrn content)).
  - destruct (media_present media); [| apply sends_ret].
    apply sends_bind; [| intros; apply sends_ret].
    destruct media as [| hasMedia item | items].
    + apply sends_ret.
    + apply sends_bind; [apply sends_uploadImageToLinkedin_steps | intros; apply sends_ret].
    + apply sends_upload_images_steps.
  - intros E w shareData w' H.
    destruct (media_present media) eqn:Hmedia.
    + apply bind_inv_Ok in H as (assetUrns & w1 & Hup & H). injection H as <- _.
      exists assetUrns. split; [| reflexivity].
      destruct media as [| hasMedia item | items]; simpl in Hmedia |- *.
      * discriminate Hmedia.
      * rewrite Hmedia. apply bind_inv_Ok in Hup as (a & w2 & _ & Hup).
        now injection Hup as <- _.
      * apply upload_images_length in Hup. simpl in Hup. rewrite Hup.
        rewrite length_firstn. reflexivity.
    + now injection H as <- _.
  - intros shareData HQ. apply submits_last_fetch.
    + exists personUrn. destruct (media_present media).
      * destruct HQ as (assetUrns & Hlen & ->). now exists assetUrns.
      * now rewrite HQ.
    + intros r. silence. apply sends_succeeded.
Qed.

(** X21. When the profile lookup fails or is refused, [postToLinkedin] stops
    there: that lookup is the only request it has made - nothing is
    uploaded and nothing shared - and it reports the failure, "Failed to
    get LinkedIn profile" for an answer that is not 2xx. *)
Theorem linkedin_stops_without_profile :
  forall (E : Env) (w : World) (content tok : string) (media : Media),
    let out := Linkedin.postToLinkedin content tok media E w in
    let looked_up := record_request (Linkedin.profileRequest tok) w in
    let failed_with msg :=
      (Ok {| success := false; postId := VUndef; postUrl := VUndef;
             error := Some msg; sentAt := clock E (S (w_time w)) |},
       advance looked_up) in
    (forall e, net E (w_time w) (Linkedin.profileRequest tok) = NetFail e ->
       out = failed_with (message e)) /\
    (forall r, net E (w_time w) (Linkedin.profileRequest tok) = NetReply r ->
       ok r = false ->
       out = failed_with "Failed to get LinkedIn profile").
Proof.
  intros E w content tok media. cbv zeta.
  unfold Linkedin.postToLinkedin, try_catch. rewrite bind_fetch. split.
  - intros e ->. reflexivity.
  - intros r -> Hok. rewrite bind_throw_if, Hok. reflexivity.
Qed.

(* ================================================================== *)
(** ** Publishers: the number of requests of a call *)
(* ================================================================== *)

Lemma at_most_silent n {A} (m : M A) : silent m -> sends_at_most n m.
Proof.
  intros H E w. exists []. rewrite (silent_sent m E w H).
  split; [now rewrite app_nil_r | simpl; lia].
Qed.

Lemma at_most_weaken n n' {A} (m : M A) :
  (n <= n')%nat -> sends_at_most n m -> sends_at_most n' m.
Proof.
  intros Hle H E w. destruct (H E w) as (reqs & Hs & Hl).
  exists reqs. split; [exact Hs | lia].
Qed.

Lemma at_most_bind a b {A B} (m : M A) (f : A -> M B) :
  sends_at_most a m -> (forall x, sends_at_most b (f x)) ->
  sends_at_most (a + b) (bind m f).
Proof.
  intros Hm Hf E w. unfold bind. destruct (Hm E w) as (r1 & Hs1 & Hl1).
  destruct (m E w) as [[x|e] w1]; simpl in Hs1.
  - destruct (Hf x E w1) as (r2 & Hs2 & Hl2).
    exists (r1 ++ r2). split; [rewrite Hs2, Hs1; now rewrite app_assoc |].
    rewrite length_app. lia.
  - exists r1. split; [exact Hs1 | lia].
Qed.

Lemma at_most_silent_bind n {A B} (m : M A) (f : A -> M B) :
  silent m -> (forall x, sends_at_most n (f x)) -> sends_at_most n (bind m f).
Proof.
  intros Hm Hf. apply (at_most_bind 0 n); [now apply at_most_silent | exact Hf].
Qed.

Lemma at_most_fetch_bind n {B} (q : Request) (f : Response -> M B) :
  (forall r, sends_at_most n (f r)) -> sends_at_most (S n) (bind (fetch q) f).
Proof.
  intros Hf. apply (at_most_bind 1 n); [| exact Hf].
  intros E w. exists [q]. split; [| simpl; lia].
  unfold fetch. now destruct (net E (w_time w) q).
Qed.

Lemma at_most_try_catch a b {A} (m : M A) (h : Exn -> M A) :
  sends_at_most a m -> (forall e, sends_at_most b (h e)) ->
  sends_at_most (a + b) (try_catch m h).
Proof.
  intros Hm Hh E w. unfold try_catch. destruct (Hm E w) as (r1 & Hs1 & Hl1).
  destruct (m E w) as [[x|e] w1]; simpl in Hs1.
  - exists r1. split; [exact Hs1 | lia].
  - destruct (Hh e E w1) as (r2 & Hs2 & Hl2).
    exists (r1 ++ r2). split; [rewrite Hs2, Hs1; now rewrite app_assoc |].
    rewrite length_app. lia.
Qed.

Lemma at_most_try_catch_silent n {A} (m : M A) (h : Exn -> M A) :
  sends_at_most n m -> (forall e, silent (h e)) -> sends_at_most n (try_catch m h).
Proof.
  intros Hm Hh. apply (at_most_weaken (n + 0)); [lia |].
  apply at_most_try_catch; [exact Hm |]. intros e. now apply at_most_silent.
Qed.

Lemma silent_failure e : silent (failure e).
Proof. unfold failure. silence. Qed.

Lemma sends_lease_form_any P fields : sends_only P (Reddit.lease_form fields).
Proof.
  assert (Hf : forall l, sends_only P (Reddit.append_fields l)).
  { induction l as [|f rest IH]; simpl; repeat frame_step. exact IH. }
  unfold Reddit.lease_form. destruct fields; repeat frame_step. apply Hf.
Qed.

(** Everything here is silent but the calls of [fetch]. *)
Ltac hush :=
  solve [ silence;
          first [ apply sends_generateOAuthHeader
                | apply sends_check_api_errors_any
                | apply sends_lease_form_any
                | apply sends_succeeded ] ].

Ltac budget_step :=
  lazymatch goal with
  | |- sends_at_most (S _) (bind (fetch _) _) => apply at_most_fetch_bind; intros ?
  | |- sends_at_most _ (bind _ _) => apply at_most_silent_bind; [hush | intros ?]
  | |- sends_at_most _ (try_catch _ _) => apply at_most_try_catch_silent; [| intros ?; hush]
  | |- sends_at_most _ (match ?x with _ => _ end) => destruct x
  | |- sends_at_most _ (let _ := _ in _) => cbv zeta
  | |- sends_at_most _ _ => apply at_most_silent; hush
  end.

Ltac budget := repeat budget_step.

Lemma at_most_uploadGifChunked buf ty cat ck cs t s :
  sends_at_most 3 (Twitter.uploadGifChunked buf ty cat ck cs t s).
Proof. unfold Twitter.uploadGifChunked. budget. Qed.

Lemma at_most_uploadImageSimple buf cat ck cs t s :
  sends_at_most 1 (Twitter.uploadImageSimple buf cat ck cs t s).
Proof. unfold Twitter.uploadImageSimple. budget. Qed.

Lemma at_most_uploadMediaToTwitterV1 imageUrl t s :
  sends_at_most 4 (Twitter.uploadMediaToTwitterV1 imageUrl t s).
Proof.
  unfold Twitter.uploadMediaToTwitterV1.
  apply at_most_try_catch_silent; [| intros e; hush].
  apply at_most_fetch_bind. intros imageResponse.
  apply at_most_silent_bind; [hush | intros _]. cbv zeta.
  apply at_most_silent_bind; [hush | intros consumerKey].
  apply at_most_silent_bind; [hush | intros consumerSecret].
  destruct consumerKey as [ck|], consumerSecret as [cs|];
    try (apply at_most_silent; hush).
  destruct (includes ".gif" (toLowerCase imageUrl)).
  - apply at_most_uploadGifChunked.
  - eapply at_most_weaken; [| apply at_most_uploadImageSimple]. lia.
Qed.

Lemma at_most_upload_all items t s :
  forall ids, sends_at_most (4 * length items) (Twitter.upload_all items t s ids).
Proof.
  induction items as [|item rest IH]; intros ids; cbn [Twitter.upload_all].
  - apply at_most_silent. hush.
  - assert (Hskip : forall ids, sends_at_most (4 * length (item :: rest))
                                  (Twitter.upload_all rest t s ids)).
    { intros ids'. eapply at_most_weaken; [| apply IH]. simpl length. lia. }
    destruct (item_source item) as [imageUrl|]; [| apply Hskip].
    destruct (nonempty imageUrl); [| apply Hskip].
    eapply at_most_weaken;
      [| apply (at_most_bind 4 (4 * length rest));
         [apply at_most_uploadMediaToTwitterV1 | intros mediaId; apply IH]].
    simpl length. lia.
Qed.

Lemma at_most_postToTwitter content tok media acct :
  sends_at_most (4 * media_items media + 1)
    (Twitter.postToTwitter content tok media acct).
Proof.
  unfold Twitter.postToTwitter.
  apply at_most_try_catch_silent; [| intros e; apply silent_failure].
  apply at_most_bind.
  - unfold Twitter.prepare_tweet.
    destruct (media_present media) eqn:Hmedia; [| apply at_most_silent; hush].
    destruct (Twitter.legacy_pair acct) as [[token secret]|]; [| apply at_most_silent; hush].
    apply at_most_try_catch_silent; [| intros e; hush].
    apply (at_most_weaken (4 * media_items media + 0)); [lia |].
    apply at_most_bind; [| intros mediaIds; apply at_most_silent;
                           destruct (negb (Nat.eqb (length mediaIds) 0)); hush].
    destruct media as [| hasMedia item | items]; cbn [media_present] in Hmedia.
    + discriminate Hmedia.
    + subst hasMedia. apply (at_most_upload_all [item]).
    + apply at_most_upload_all.
  - intros tweetData. budget.
Qed.

Lemma at_most_lease_and_upload what item imageUrl tok :
  sends_at_most 3 (Reddit.lease_and_upload what item imageUrl tok).
Proof. unfold Reddit.lease_and_upload. budget. Qed.

Lemma at_most_upload_gallery items tok :
  forall acc, sends_at_most (3 * length items) (Reddit.upload_gallery items tok acc).
Proof.
  induction items as [|item rest IH]; intros acc; cbn [Reddit.upload_gallery].
  - apply at_most_silent. hush.
  - eapply at_most_weaken;
      [| apply (at_most_bind 3 (3 * length rest)); [| intros mediaId; apply IH]].
    + simpl length. lia.
    + unfold Reddit.uploadMediaForGallery.
      apply at_most_try_catch_silent; [| intros e; hush].
      apply (at_most_weaken (3 + 0)); [lia |].
      apply at_most_bind; [apply at_most_lease_and_upload |].
      intros leaseData. apply at_most_silent. hush.
Qed.

Lemma at_most_postToReddit content tok media acct customSubreddit :
  sends_at_most (3 * media_items media + 1)
    (Reddit.postToReddit content tok media acct customSubreddit).
Proof.
  unfold Reddit.postToReddit.
  apply at_most_try_catch_silent; [| intros e; apply silent_failure]. cbv zeta.
  assert (Htext : forall n, sends_at_most (n + 1)
                    (Reddit.post_text content tok (Reddit.target customSubreddit))).
  { intros n. apply (at_most_weaken 1); [lia |]. unfold Reddit.post_text. budget. }
  assert (Hunchecked : forall n, sends_at_most (n + 1)
                         (Reddit.post_text_unchecked content tok
                            (Reddit.target customSubreddit))).
  { intros n. apply (at_most_weaken 1); [lia |].
    unfold Reddit.post_text_unchecked. budget. }
  destruct (media_present media); [| apply Htext].
  destruct media as [| hasMedia item | [| item1 [| item2 rest]]];
    try apply Hunchecked.
  - unfold Reddit.post_single_image. apply (at_most_bind 3 1).
    + unfold Reddit.uploadImageToRedditAsset.
      apply at_most_try_catch_silent; [| intros e; hush].
      apply (at_most_weaken (3 + 0)); [lia |].
      apply at_most_bind; [apply at_most_lease_and_upload |].
      intros leaseData. apply at_most_silent. hush.
    + intros uploadResult. budget.
  - unfold Reddit.post_gallery. apply at_most_bind.
    + apply at_most_upload_gallery.
    + intros galleryItems. budget.
Qed.

Lemma at_most_uploadImageToLinkedin imageUrl tok urn :
  sends_at_most 3 (Linkedin.uploadImageToLinkedin imageUrl tok urn).
Proof. unfold Linkedin.uploadImageToLinkedin. budget. Qed.

Lemma at_most_upload_images items tok urn :
  forall acc, sends_at_most (3 * length items) (Linkedin.upload_images items tok urn acc).
Proof.
  induction items as [|item rest IH]; intros acc; cbn [Linkedin.upload_images].
  - apply at_most_silent. hush.
  - eapply at_most_weaken;
      [| apply (at_most_bind 3 (3 * length rest));
         [apply at_most_uploadImageToLinkedin | intros assetUrn; apply IH]].
    simpl length. lia.
Qed.

Lemma at_most_postToLinkedin content tok media :
  sends_at_most (3 * attached media + 2) (Linkedin.postToLinkedin content tok media).
Proof.
  unfold Linkedin.postToLinkedin.
  apply at_most_try_catch_silent; [| intros e; apply silent_failure].
  apply (at_most_weaken (S (3 * attached media + 1))); [lia |].
  apply at_most_fetch_bind. intros profileResponse.
  apply at_most_silent_bind; [hush | intros _].
  apply at_most_silent_bind; [hush | intros profileData].
  apply at_most_silent_bind; [hush | intros sub]. cbv zeta.
  apply at_most_bind; [| intros shareData; budget].
  - destruct (media_present media) eqn:Hmedia; [| apply at_most_silent; hush].
    apply (at_most_weaken (3 * attached media + 0)); [lia |].
    apply at_most_bind; [| intros assetUrns; apply at_most_silent; hush].
    destruct media as [| hasMedia item | items]; cbn [media_present] in Hmedia.
    + discriminate Hmedia.
    + subst hasMedia. apply (at_most_weaken (3 + 0)); [simpl; lia |].
      apply at_most_bind; [apply at_most_uploadImageToLinkedin |].
      intros assetUrn. apply at_most_silent. hush.
    + cbn [attached]. rewrite <- length_firstn. apply at_most_upload_images.
Qed.

(** X22. A call of a publisher issues a bounded number of requests:
    [postToTwitter] at most four for each media item (the download and
    up to three calls of the upload endpoint) and one for the tweet;
    [postToReddit] at most three for each media item (lease, download,
    upload) and one for the submission; [postToLinkedin] at most three
    for each attached image and two more (the profile lookup and the
    share), hence never more than fourteen, an array of media being cut
    to its first four items. *)
Theorem request_budgets :
  forall (content tok : string) (media : Media) (acct : option Account)
         (customSubreddit : option string),
    sends_at_most (4 * media_items media + 1)
      (Twitter.postToTwitter content tok media acct) /\
    sends_at_most (3 * media_items media + 1)
      (Reddit.postToReddit content tok media acct customSubreddit) /\
    sends_at_most (3 * attached media + 2)
      (Linkedin.postToLinkedin content tok media) /\
    (3 * attached media + 2 <= 14)%nat.
Proof.
  intros content tok media acct customSubreddit.
  split; [apply at_most_postToTwitter |].
  split; [apply at_most_postToReddit |].
  split; [apply at_most_postToLinkedin |].
  destruct media as [| [|] item | items]; cbn [attached]; lia.
Qed.

(* ================================================================== *)
(** ** Object spread and the order of parameters *)
(* ================================================================== *)

Lemma binding_set_param_same {kv : string * string} l :
  binding (fst kv) (set_param kv l) = Some (snd kv).
Proof.
  unfold binding. induction l as [|kv' rest IH]; simpl.
  - now rewrite String.eqb_refl.
  - destruct (String.eqb (fst kv) (fst kv')) eqn:Heq; simpl.
    + now rewrite String.eqb_refl.
    + rewrite String.eqb_sym, Heq. exact IH.
Qed.

Lemma binding_set_param_other (kv : string * string) l k :
  fst kv <> k -> binding k (set_param kv l) = binding k l.
Proof.
  intros Hne. unfold binding. induction l as [|kv' rest IH]; simpl.
  - apply String.eqb_neq in Hne. now rewrite Hne.
  - destruct (String.eqb (fst kv) (fst kv')) eqn:Heq; simpl.
    + apply String.eqb_eq in Heq. rewrite <- Heq.
      apply String.eqb_neq in Hne. now rewrite Hne.
    + destruct (String.eqb (fst kv') k); [reflexivity | exact IH].
Qed.

Lemma binding_None {V} k (l : list (string * V)) :
  ~ In k (map fst l) -> binding k l = None.
Proof.
  unfold binding. induction l as [|kv rest IH]; simpl; [reflexivity |].
  intros Hnot. destruct (String.eqb (fst kv) k) eqn:Heq.
  - apply String.eqb_eq in Heq. exfalso. apply Hnot. now left.
  - apply IH. intros Hin. apply Hnot. now right.
Qed.

(** [{...a, ...b}]: a key of [b] takes its value from [b], any other key
    keeps the value it has in [a]. *)
Lemma binding_spread b :
  List.NoDup (map fst b) ->
  forall a k,
    binding k (spread a b)
    = match binding k b with Some v => Some v | None => binding k a end.
Proof.
  unfold spread. induction b as [|kv rest IH]; intros Hnd a k; [reflexivity |].
  inversion Hnd as [|? ? Hnotin Hnd']; subst. cbn [fold_left].
  rewrite (IH Hnd'). unfold binding at 2 3. cbn [List.find].
  destruct (String.eqb (fst kv) k) eqn:Heq.
  - apply String.eqb_eq in Heq. subst k.
    rewrite (binding_None _ _ Hnotin). apply binding_set_param_same.
  - fold (binding k rest). destruct (binding k rest); [reflexivity |].
    apply binding_set_param_other. now apply String.eqb_neq.
Qed.

(** X23. The PUT that carries an image to LinkedIn takes its headers from the
    registration response first: a header named there replaces the
    default of the same name - [Authorization] and [Content-Type]
    included - and the defaults, the bearer token and [image/jpeg], hold
    for the names it leaves out. *)
Theorem registered_headers_take_precedence :
  forall (uploadUrl : Value) (tok : string) (fields : list (string * Value))
         (image : list byte) (name : string),
    List.NoDup (map fst fields) ->
    let put := Linkedin.putRequest uploadUrl tok (VObj fields) image in
    method put = "PUT" /\ body put = Raw image /\
    binding name (headers put)
    = match binding name fields with
      | Some v => Some (to_js_string v)
      | None => binding name (default_upload_headers tok)
      end.
Proof.
  intros uploadUrl tok fields image name Hnd. cbv zeta.
  split; [reflexivity |]. split; [reflexivity |].
  unfold Linkedin.putRequest. cbn [headers Linkedin.own_entries].
  rewrite binding_spread.
  - unfold binding at 1 3. clear Hnd.
    induction fields as [|kv rest IH]; [reflexivity |].
    cbn [map List.find fst snd]. destruct (String.eqb (fst kv) name); [reflexivity | exact IH].
  - now rewrite map_map.
Qed.

Lemma registered_headers_take_precedence_witness :
  let put := Linkedin.putRequest (VStr "https://www.linkedin.com/dms-uploads/abc")
               "bearer-token"
               (VObj [ ("Content-Type", VStr "application/octet-stream") ]) [] in
  binding "Content-Type" (headers put) = Some "application/octet-stream" /\
  binding "Authorization" (headers put) = Some "Bearer bearer-token".
Proof.
  split.
  - apply (registered_headers_take_precedence
             (VStr "https://www.linkedin.com/dms-uploads/abc") "bearer-token"
             [ ("Content-Type", VStr "application/octet-stream") ] [] "Content-Type").
    constructor; [intros [] | constructor].
  - reflexivity.
Defined.

(* ------------------------------------------------------------------ *)

Lemma ascii_compare_refl c : Ascii.compare c c = Eq.
Proof. unfold Ascii.compare. apply N.compare_refl. Qed.

Lemma ascii_compare_lt_trans a b c :
  Ascii.compare a b = Lt -> Ascii.compare b c = Lt -> Ascii.compare a c = Lt.
Proof.
  unfold Ascii.compare. rewrite !N.compare_lt_iff. apply N.lt_trans.
Qed.

Lemma string_compare_lt_trans s1 :
  forall s2 s3,
    String.compare s1 s2 = Lt -> String.compare s2 s3 = Lt -> String.compare s1 s3 = Lt.
Proof.
  induction s1 as [|c1 s1 IH]; intros [|c2 s2] [|c3 s3]; simpl; try discriminate; auto.
  destruct (Ascii.compare c1 c2) eqn:H12; try discriminate;
    destruct (Ascii.compare c2 c3) eqn:H23; try discriminate.
  - apply Ascii.compare_eq_iff in H12, H23. subst. rewrite ascii_compare_refl. apply IH.
  - apply Ascii.compare_eq_iff in H12. subst. now rewrite H23.
  - apply Ascii.compare_eq_iff in H23. subst. now rewrite H12.
  - now rewrite (ascii_compare_lt_trans _ _ _ H12 H23).
Qed.

Lemma string_leb_trans s1 s2 s3 :
  String.leb s1 s2 = true -> String.leb s2 s3 = true -> String.leb s1 s3 = true.
Proof.
  unfold String.leb.
  destruct (String.compare s1 s2) eqn:H12; try discriminate;
    destruct (String.compare s2 s3) eqn:H23; try discriminate; intros _ _.
  - apply String.compare_eq_iff in H12, H23. subst.
    destruct (String.compare s3 s3) eqn:H; try reflexivity.
    pose proof (String.compare_antisym s3 s3) as Ha. rewrite H in Ha. discriminate Ha.
  - apply String.compare_eq_iff in H12. subst. now rewrite H23.
  - apply String.compare_eq_iff in H23. subst. now rewrite H12.
  - now rewrite (string_compare_lt_trans _ _ _ H12 H23).
Qed.

(** Inserting two parameters of different names commutes. *)
Lemma insert_sorted_comm x y l :
  fst x <> fst y ->
  Twitter.insert_sorted x (Twitter.insert_sorted y l)
  = Twitter.insert_sorted y (Twitter.insert_sorted x l).
Proof.
  intros Hne.
  assert (Hneg : String.leb (fst y) (fst x) = negb (String.leb (fst x) (fst y))).
  { destruct (String.leb (fst x) (fst y)) eqn:H, (String.leb (fst y) (fst x)) eqn:H';
      try reflexivity.
    - exfalso. apply Hne. now apply String.leb_antisym.
    - destruct (String.leb_total (fst x) (fst y)); congruence. }
  induction l as [|z l IH]; simpl.
  - rewrite Hneg. now destruct (String.leb (fst x) (fst y)).
  - destruct (String.leb (fst y) (fst z)) eqn:Hyz, (String.leb (fst x) (fst z)) eqn:Hxz;
      simpl; rewrite ?Hyz, ?Hxz, ?Hneg.
    + now destruct (String.leb (fst x) (fst y)).
    + destruct (String.leb (fst x) (fst y)) eqn:H; [| reflexivity].
      pose proof (string_leb_trans _ _ _ H Hyz). congruence.
    + destruct (String.leb (fst x) (fst y)) eqn:H; [reflexivity |].
      assert (H' : String.leb (fst y) (fst x) = true) by (rewrite Hneg; reflexivity).
      pose proof (string_leb_trans _ _ _ H' Hxz). congruence.
    + now rewrite IH.
Qed.

Lemma sort_params_permutation l l' :
  Permutation l l' -> List.NoDup (map fst l) ->
  Twitter.sort_params l = Twitter.sort_params l'.
Proof.
  unfold Twitter.sort_params.
  induction 1 as [| x l l' Hperm IH | x y l | l l' l'' H1 IH1 H2 IH2]; intros Hnd.
  - reflexivity.
  - simpl. inversion Hnd; subst. now rewrite IH.
  - simpl. apply insert_sorted_comm.
    inversion Hnd as [|? ? Hnotin _]; subst. intros Heq. apply Hnotin. left. now symmetry.
  - rewrite IH1 by exact Hnd. apply IH2.
    eapply Permutation_NoDup; [| exact Hnd]. now apply Permutation_map.
Qed.

Lemma binding_In {V} k (v : V) l :
  List.NoDup (map fst l) -> (In (k, v) l <-> binding k l = Some v).
Proof.
  unfold binding. induction l as [|[k' v'] rest IH]; simpl; intros Hnd.
  - split; [intros [] | discriminate].
  - inversion Hnd as [|? ? Hnotin Hnd']; subst.
    destruct (String.eqb k' k) eqn:Heq; simpl.
    + apply String.eqb_eq in Heq. subst k'. split.
      * intros [H | H]; [now injection H as -> |].
        exfalso. apply Hnotin. change k with (fst (k, v)). now apply in_map.
      * intros H. injection H as ->. now left.
    + rewrite <- (IH Hnd'). split; [| now right].
      intros [H | H]; [| exact H]. injection H as -> _.
      now rewrite String.eqb_refl in Heq.
Qed.

Lemma keys_set_param (kv : string * string) l :
  map fst (set_param kv l)
  = if existsb (String.eqb (fst kv)) (map fst l) then map fst l
    else map fst l ++ [fst kv].
Proof.
  induction l as [|kv' rest IH]; simpl; [reflexivity |].
  destruct (String.eqb (fst kv) (fst kv')) eqn:Heq; simpl.
  - apply String.eqb_eq in Heq. now rewrite Heq.
  - rewrite IH. now destruct (existsb (String.eqb (fst kv)) (map fst rest)).
Qed.

Lemma NoDup_keys_set_param (kv : string * string) l :
  List.NoDup (map fst l) -> List.NoDup (map fst (set_param kv l)).
Proof.
  intros Hnd. rewrite keys_set_param.
  destruct (existsb (String.eqb (fst kv)) (map fst l)) eqn:Hex; [exact Hnd |].
  apply List.NoDup_app; [exact Hnd | constructor; [intros [] | constructor] |].
  intros k Hk [<- | []].
  assert (Hyes : existsb (String.eqb (fst kv)) (map fst l) = true).
  { apply existsb_exists. exists (fst kv). split; [exact Hk | apply String.eqb_refl]. }
  congruence.
Qed.

Lemma NoDup_keys_spread a b :
  List.NoDup (map fst a) -> List.NoDup (map fst (spread a b)).
Proof.
  unfold spread. revert a. induction b as [|kv rest IH]; intros a Hnd; simpl.
  - exact Hnd.
  - apply IH. now apply NoDup_keys_set_param.
Qed.

Lemma same_bindings_permutation (l l' : list (string * string)) :
  List.NoDup (map fst l) -> List.NoDup (map fst l') ->
  (forall k, binding k l = binding k l') -> Permutation l l'.
Proof.
  intros Hl Hl' Hsame. apply Permutation.NoDup_Permutation.
  - eapply List.NoDup_map_inv, Hl.
  - eapply List.NoDup_map_inv, Hl'.
  - intros [k v]. now rewrite (binding_In k v l Hl), (binding_In k v l' Hl'), Hsame.
Qed.

Lemma spread_permutation a b b' :
  Permutation b b' -> List.NoDup (map fst a) -> List.NoDup (map fst b) ->
  Permutation (spread a b) (spread a b').
Proof.
  intros Hperm Ha Hb.
  assert (Hb' : List.NoDup (map fst b'))
    by (eapply Permutation_NoDup; [apply Permutation_map, Hperm | exact Hb]).
  apply same_bindings_permutation; try now apply NoDup_keys_spread.
  intros k. rewrite !binding_spread by assumption.
  replace (binding k b') with (binding k b); [reflexivity |].
  destruct (binding k b) as [v|] eqn:Hv.
  - symmetry. apply binding_In; [exact Hb' |].
    eapply Permutation_in; [exact Hperm |]. now apply binding_In.
  - destruct (binding k b') as [v'|] eqn:Hv'; [| reflexivity].
    apply binding_In in Hv'; [| exact Hb'].
    apply (Permutation_in _ (Permutation_sym Hperm)) in Hv'.
    apply binding_In in Hv'; [congruence | exact Hb].
Qed.

(** X24. OAuth 1.0a signing does not depend on the order in which the request
    parameters are given: for two lists holding the same parameters, each
    name once, [generateOAuthSignature] computes the same signature and
    [generateOAuthHeader] builds the same Authorization header. *)
Theorem signature_ignores_parameter_order :
  forall (E : Env) (w : World) (method url : string)
         (params params' : list (string * string))
         (consumerKey consumerSecret accessToken tokenSecret : string),
    Permutation params params' ->
    List.NoDup (map fst params) ->
    Twitter.generateOAuthSignature E method url params consumerSecret tokenSecret
    = Twitter.generateOAuthSignature E method url params' consumerSecret tokenSecret /\
    Twitter.generateOAuthHeader method url params
      consumerKey consumerSecret accessToken tokenSecret E w
    = Twitter.generateOAuthHeader method url params'
        consumerKey consumerSecret accessToken tokenSecret E w.
Proof.
  intros E w method url params params' ck cs tok ts Hperm Hnd. split.
  - unfold Twitter.generateOAuthSignature.
    now rewrite (sort_params_permutation _ _ Hperm Hnd).
  - unfold Twitter.generateOAuthHeader, now, randomHex.
    rewrite !bind_oracle. unfold ask. f_equal. f_equal.
    unfold Twitter.oauthHeader, Twitter.generateOAuthSignature.
    match goal with
    | |- context [spread ?o params] =>
        assert (Ho : List.NoDup (map fst o));
        [| rewrite (sort_params_permutation (spread o params) (spread o params'));
           [reflexivity
           | now apply spread_permutation
           | now apply NoDup_keys_spread] ]
    end.
    repeat constructor; simpl; intuition discriminate.
Qed.

Lemma signature_ignores_parameter_order_witness :
  Twitter.generateOAuthHeader "POST" Twitter.uploadUrl
    [ ("command", "FINALIZE"); ("media_id", "7") ]
    "key" "secret" "token" "token-secret" calm nowhere
  = Twitter.generateOAuthHeader "POST" Twitter.uploadUrl
      [ ("media_id", "7"); ("command", "FINALIZE") ]
      "key" "secret" "token" "token-secret" calm nowhere.
Proof.
  apply signature_ignores_parameter_order.
  - apply perm_swap.
  - constructor; [simpl; intros [H | []]; discriminate H |].
    constructor; [intros [] | constructor].
Defined.

(* ================================================================== *)
(** ** Reddit: the legacy upload helper *)
(* ================================================================== *)

Lemma bind_lease_form {B} fields (k : list (string * string) -> M B) E w :
  bind (Reddit.lease_form fields) k E w
  = match fst (Reddit.lease_form fields E w) with
    | Ok form => k form E w
    | Thrown e => (Thrown e, w)
    end.
Proof.
  destruct (lease_form_pure fields E w) as (res & Hres & _).
  unfold bind. rewrite Hres. now destruct res.
Qed.

Ltac lockstep :=
  repeat first
    [ rewrite bind_bind
    | run_step; run_norm
    | rewrite bind_lease_form
    | run_case
    | match goal with
      | |- context [match fst (Reddit.lease_form ?f ?E ?w1) with _ => _ end] =>
          destruct (fst (Reddit.lease_form f E w1))
      end ].

(** X25. The legacy helper [uploadImageToReddit] agrees with
    [uploadImageToRedditAsset]: whenever the latter returns, the legacy
    helper run in its place returns the same stored address, having made
    the same three requests. *)
Theorem legacy_upload_agrees :
  forall (E : Env) (w : World) (imageUrl : option string) (tok : string)
         (assetId : Value) (stored : string) (w' : World),
    Reddit.uploadImageToRedditAsset imageUrl tok E w = (Ok (assetId, stored), w') ->
    uploadImageToReddit imageUrl tok E w = (Ok stored, w').
Proof.
  intros E w imageUrl tok assetId stored w'.
  unfold Reddit.uploadImageToRedditAsset, uploadImageToReddit, Reddit.lease_and_upload.
  rewrite !try_catch_rethrow.
  lockstep; try discriminate.
  all: intros H; injection H as _ <- <-; reflexivity.
Qed.

Lemma legacy_upload_agrees_witness :
  exists w',
    uploadImageToReddit (cloudinaryUrl cat) "reddit-token" (reddit accepted) nowhere
    = (Ok "https://reddit-uploaded-media.s3-accelerate.amazonaws.com/rte_images/cat", w') /\
    length (w_sent w') = 3%nat.
Proof.
  assert (H : exists w',
             Reddit.uploadImageToRedditAsset (cloudinaryUrl cat) "reddit-token"
               (reddit accepted) nowhere
             = (Ok (VStr "asset-1",
                    "https://reddit-uploaded-media.s3-accelerate.amazonaws.com/rte_images/cat"),
                w') /\
             length (w_sent w') = 3%nat).
  { eexists. split; vm_compute; reflexivity. }
  destruct H as (w' & Hrun & Hlen). exists w'. split; [| exact Hlen].
  apply (legacy_upload_agrees _ _ _ _ _ _ _ Hrun).
Defined.

(* ================================================================== *)
(** ** The attempts and the results a post carries *)
(* ================================================================== *)

Lemma total_postToLinkedin content tok media :
  total (Linkedin.postToLinkedin content tok media).
Proof. apply total_try_catch, total_failure. Qed.

Lemma total_postToReddit content tok media acct sub :
  total (Reddit.postToReddit content tok media acct sub).
Proof. apply total_try_catch, total_failure. Qed.

(** X26. For an account that is connected and has its access token, the
    LinkedIn and Reddit attempts record exactly what the publisher
    returned, under the platform's name; the Reddit publisher is called
    with the account and the subreddit [test]. *)
Theorem attempt_records_the_publishers_result :
  forall (E : Env) (w : World) (post : Post) (u : User) (account : Account)
         (token : string),
    connected account = true ->
    accessToken account = Some token ->
    nonempty token = true ->
    (connectedAccounts u !! "linkedin" = Some account ->
     exists r w1,
       Linkedin.postToLinkedin (content post) token (media post) E w = (Ok r, w1) /\
       platformTask post (Some u) "linkedin" E w
       = (Ok {| platform := "linkedin"; result := r |}, w1)) /\
    (connectedAccounts u !! "reddit" = Some account ->
     exists r w1,
       Reddit.postToReddit (content post) token (media post) (Some account)
         (Some "test") E w = (Ok r, w1) /\
       platformTask post (Some u) "reddit" E w
       = (Ok {| platform := "reddit"; result := r |}, w1)).
Proof.
  intros E w post u account token Hconn Htok Hne. split; intros Hacc.
  - destruct (total_postToLinkedin (content post) token (media post) E w)
      as (r & w1 & Hrun).
    exists r, w1. split; [exact Hrun |].
    unfold platformTask. rewrite bind_ret_l, Hacc, Hconn, Htok, Hne. cbn [negb].
    unfold bind, try_catch. now rewrite Hrun.
  - destruct (total_postToReddit (content post) token (media post) (Some account)
                (Some "test") E w) as (r & w1 & Hrun).
    exists r, w1. split; [exact Hrun |].
    unfold platformTask. rewrite bind_ret_l, Hacc, Hconn, Htok, Hne. cbn [negb].
    unfold bind, try_catch. now rewrite Hrun.
Qed.

Lemma attempt_records_the_publishers_result_witness :
  exists r w1,
    Linkedin.postToLinkedin "hello" "bearer-token" no_media calm nowhere = (Ok r, w1) /\
    platformTask (draft no_media)
      (Some {| user_id := 1;
               connectedAccounts := {[ "linkedin" := account_of true (Some "bearer-token") ]};
               postsCount := 0 |})
      "linkedin" calm nowhere
    = (Ok {| platform := "linkedin"; result := r |}, w1).
Proof.
  apply (proj1 (attempt_records_the_publishers_result calm nowhere (draft no_media)
                  {| user_id := 1;
                     connectedAccounts :=
                       {[ "linkedin" := account_of true (Some "bearer-token") ]};
                     postsCount := 0 |}
                  (account_of true (Some "bearer-token")) "bearer-token"
                  eq_refl eq_refl eq_refl)).
  reflexivity.
Defined.

(* ------------------------------------------------------------------ *)

(** Collecting the settled attempts keeps their successes. *)
Lemma collect_all_success settled E w results w' :
  collect_all settled E w = (Ok results, w') ->
  existsb (fun r => success (result r)) results = any_success settled.
Proof.
  revert w results w'.
  induction settled as [|s rest IH]; intros w results w' H; simpl in H.
  - injection H as <- _. reflexivity.
  - apply bind_inv_Ok in H as (r & w1 & Hr & H).
    apply bind_inv_Ok in H as (rs & w2 & Hrs & H).
    injection H as <- _. simpl. rewrite (IH _ _ _ Hrs). f_equal.
    destruct s as [v|e]; simpl in Hr.
    + now injection Hr as <- _.
    + cbv [refusal now bind oracle ret] in Hr. now injection Hr as <- _.
Qed.

(** X27. Under a store whose writes go through, and for a post asking for each
    platform once, the status a post is left with agrees with the
    results it carries: it is [published] exactly when some platform is
    recorded as a success, and [failed] exactly when none is. *)
Theorem status_agrees_with_results :
  forall (E : Env) (w : World) (post : Post) (user : option User) (count : Z),
    reliable_store E ->
    List.NoDup (platforms post) ->
    exists post' count' w',
      processPost post user count E w = (Ok (post', count'), w') /\
      (status post' = published <-> shows_a_success post') /\
      (status post' = failed <-> ~ shows_a_success post').
Proof.
  intros E w post user count Hrel Hnd.
  destruct (processPost_outcome post user count E w)
    as (settled & w1 & results & w2 & post' & count' & w'
        & Ha & Hc & Hrun & _ & _ & _ & _ & [(-> & _) | (e & _ & _ & _ & Hno)]);
    [| contradiction].
  eexists _, count', w'. split; [exact Hrun |].
  pose proof (collect_all_success _ _ _ _ _ Hc) as Hsucc.
  assert (Hiff : shows_a_success
                   (set_outcome post (results_object results)
                      (if any_success settled then published else failed)
                      (if any_success settled then Some (clock E (w_time w2)) else None))
                 <-> any_success settled = true).
  { unfold shows_a_success. cbn [platformResults set_outcome].
    rewrite results_object_fold, <- Hsucc. split.
    - intros (p & entry & Hp & He).
      apply fold_results_from in Hp as [Hp | (r & Hin & _ & ->)];
        [rewrite lookup_empty in Hp; discriminate |].
      apply existsb_exists. exists r. now split.
    - intros Hex. apply existsb_exists in Hex as (r & Hin & Hr).
      exists (platform r), (stored_entry r). split; [| exact Hr].
      apply fold_results_holds; [| exact Hin].
      destruct user as [u|].
      + destruct (attempts_fulfil post u E w) as (values & w1' & Ha' & Hp).
        rewrite Ha in Ha'. injection Ha' as -> _.
        rewrite (collect_all_platforms _ _ _ _ _ Hc), map_map.
        change (List.NoDup (map platform values)). now rewrite Hp.
      + exfalso. rewrite attempts_reject in Ha. injection Ha as <- _.
        rewrite (any_success_rejected (fun _ => TypeError _)) in Hsucc.
        assert (Htrue : existsb (fun r => success (result r)) results = true)
          by (apply existsb_exists; now exists r).
        congruence. }
  cbn [status set_outcome]. rewrite Hiff.
  destruct (any_success settled); split; split; intros H;
    try reflexivity; try discriminate; try congruence; auto.
Qed.

Lemma status_agrees_with_results_witness :
  exists post' count' w',
    processPost (draft no_media) (Some alice) 0 calm home = (Ok (post', count'), w') /\
    status post' = published /\ shows_a_success post'.
Proof.
  destruct (status_agrees_with_results calm home (draft no_media) (Some alice) 0)
    as (post' & count' & w' & Hrun & Hpub & _).
  - intros t. split; reflexivity.
  - simpl. constructor; [intros [] | constructor].
  - exists post', count', w'. split; [exact Hrun |].
    assert (Hst : status post' = published).
    { clear -Hrun. vm_compute in Hrun. now injection Hrun as <- _ _. }
    split; [exact Hst | now apply Hpub].
Defined.

Lemma gif_url_uses_chunked_upload_witness :
  Twitter.uploadMediaToTwitterV1 "https://res.cloudinary.com/demo/CAT.GIF?v=2"
    "legacy-token" "legacy-secret" upload_endpoint nowhere
  = Twitter.uploadGifChunked [] "image/gif" "tweet_gif"
      "app-credential" "app-credential" "legacy-token" "legacy-secret"
      upload_endpoint
      (record_request (GET "https://res.cloudinary.com/demo/CAT.GIF?v=2") nowhere).
Proof.
  apply (gif_url_uses_chunked_upload "https://res.cloudinary.com/demo/CAT.GIF?v=2"
           "legacy-token" "legacy-secret" upload_endpoint nowhere (reply 204 None)
           "app-credential" "app-credential");
    reflexivity.
Defined.
